(** * seg-flow: the mosaic stitching engine of [segflow/core.py]

    A shallow embedding of the tiling, batching, confidence reduction,
    overlap density, coverage scoring, recombination, cropping,
    continuous blending and relabelling code of [SegFlow], of the
    [area] property and the checking, relabelling and masking methods
    of [SegmentationImage], and of the patch methods of
    [SegmentationPatchTiledImage], followed by the properties proved
    about them.

    Conventions of the embedding.
    - Python integers are [Z]; [%] is [Z.modulo] and [//] is [Z.div]
      (both round towards minus infinity, as Python does).
    - A 2-D numpy array is a list of rows, [list (list A)].  Slices
      follow Python: a negative bound counts from the end, and bounds
      are clamped to the length.
    - Rasters the source allocates as [np.int32] wrap around on
      arithmetic and on stores ([wrap32]).  Label tiles come from the
      predictor in an integer type of its own ([int_dtype]); the sums
      the code forms of their labels are computed in that type and wrap
      around ([wrap]).
    - Floating-point scores and weights are rationals [Q]: the float64
      arithmetic of the scorer and of the blending is exact.  A score
      stored in the [np.float32] score raster is rounded to the nearest
      float32 ([float32]).
    - Operations numpy refuses on mismatched shapes return [Err
      ShapeError]; where numpy would produce NaN (the quotient 0/0)
      the model, which has no NaN, returns [Err NotANumber]. *)

From Stdlib Require Import ZArith QArith Qround Lia.
From stdpp Require Import base list strings gmap sorting.

Close Scope Q_scope.
Close Scope string_scope.
Open Scope Z_scope.

(** ** Exceptions and results *)

Inductive py_exc : Type :=
  | NameError (name : string)
  | TypeError
  | ValueError
  | AttributeError
  | IndexError
  | ShapeError
  | NotANumber.

Inductive result (A : Type) : Type :=
  | Ok (a : A)
  | Err (e : py_exc).
Arguments Ok {A} a.
Arguments Err {A} e.

Definition rbind {A B} (r : result A) (k : A -> result B) : result B :=
  match r with
  | Ok a => k a
  | Err e => Err e
  end.

(** ** numpy arrays *)

Module NumPy.

Abbreviation raster A := (list (list A)).

Definition len {A} (l : list A) : Z := Z.of_nat (length l).

(** The bound of a slice, as [PySlice_AdjustIndices] computes it for a
    step of 1: a negative bound counts from the end, then the bound is
    clamped to [0, n]. *)
Definition slice_index (n i : Z) : Z :=
  Z.max 0 (Z.min n (if i <? 0 then i + n else i)).

(** [l[start:stop]] *)
Definition py_slice {A} (start stop : Z) (l : list A) : list A :=
  let a := slice_index (len l) start in
  let b := slice_index (len l) stop in
  take (Z.to_nat (b - a)) (drop (Z.to_nat a) l).

(** [l[start:]] *)
Definition py_slice_from {A} (start : Z) (l : list A) : list A :=
  drop (Z.to_nat (slice_index (len l) start)) l.

(** [m[y0:y1, x0:x1]] *)
Definition slice2 {A} (y0 y1 x0 x1 : Z) (m : raster A) : raster A :=
  fmap (py_slice x0 x1) (py_slice y0 y1 m).

(** [l[start:stop] = new], for [new] as long as the slice. *)
Definition set_slice {A} (start stop : Z) (l new : list A) : list A :=
  let a := slice_index (len l) start in
  let b := slice_index (len l) stop in
  take (Z.to_nat a) l ++ new ++ drop (Z.to_nat (Z.max a b)) l.

(** [m[y0:y1, x0:x1] = new], for [new] of the shape of the slice. *)
Definition set_slice2 {A} (y0 y1 x0 x1 : Z) (m new : raster A) : raster A :=
  set_slice y0 y1 m
    (zip_with (fun row r => set_slice x0 x1 row r) (py_slice y0 y1 m) new).

Definition map2d {A B} (f : A -> B) (m : raster A) : raster B :=
  fmap (M:=list) (fmap (M:=list) f) m.

Definition zip2d {A B C} (f : A -> B -> C) (a : raster A) (b : raster B)
  : raster C :=
  zip_with (zip_with f) a b.

(** [np.where(mask, a, b)]; the masked store [b[mask] = a[mask]] leaves
    [b] equal to it. *)
Definition np_where {A} (mask : raster bool) (a b : raster A) : raster A :=
  zip2d (fun (c : bool) (p : A * A) => if c then p.1 else p.2)
        mask (zip2d pair a b).

(** [m.ravel()]: the cells, row by row. *)
Definition ravel {A} (m : raster A) : list A := mjoin m.

(** [np.zeros((h, w))] *)
Definition np_zeros {A} (zero : A) (h w : nat) : raster A :=
  replicate h (replicate w zero).

(** [m[i, j]] for in-range, non-negative [i] and [j]. *)
Definition at2 {A} (m : raster A) (i j : nat) : option A :=
  row ← m !! i; row !! j.

(** The array has [h] rows of [w] cells. *)
Definition rect {A} (h w : nat) (m : raster A) : Prop :=
  length m = h /\ Forall (fun row => length row = w) m.

Definition is_rect {A} (h w : nat) (m : raster A) : bool :=
  Nat.eqb (length m) h && forallb (fun row => Nat.eqb (length row) w) m.

Definition width {A} (m : raster A) : nat :=
  match m with
  | [] => 0%nat
  | row :: _ => length row
  end.

(** Both arrays have one shape. *)
Definition same_shape {A B} (a : raster A) (b : raster B) : bool :=
  is_rect (length a) (width a) a && is_rect (length a) (width a) b.

(** [np.unique]: the distinct values, ascending. *)
Definition np_unique (l : list Z) : list Z :=
  merge_sort Z.le (remove_dups l).

(** [a.max()] of a non-empty array. *)
Definition np_max (l : list Z) : Z :=
  match l with
  | [] => 0
  | x :: r => foldr Z.max x r
  end.

(** Sum of the integers of a list. *)
Definition np_sum (l : list Z) : Z := foldr Z.add 0 l.

(** [vals[mask]] on flattened arrays of one shape. *)
Definition select {A} (mask : list bool) (vals : list A) : list A :=
  (filter (fun p : bool * A => p.1 = true) (zip mask vals)).*2.

(** Number of elements of [range(start, stop, step)], [step] not 0. *)
Definition range_len (start stop step : Z) : Z :=
  if 0 <? step then
    if start <? stop then (stop - start - 1) / step + 1 else 0
  else
    if stop <? start then (start - stop - 1) / (- step) + 1 else 0.

(** [range(start, stop, step)], [step] not 0. *)
Definition py_range (start stop step : Z) : list Z :=
  fmap (fun k : nat => start + Z.of_nat k * step)
      (seq 0 (Z.to_nat (range_len start stop step))).

(** A value stored in an [int32] array. *)
Definition wrap32 (z : Z) : Z := (z + 2 ^ 31) mod 2 ^ 32 - 2 ^ 31.

(** The integer types of numpy, and the least and the greatest value of
    each.  [uint64] is left out: before numpy 2 the sum of a [uint64]
    scalar and a Python integer is computed in [float64]. *)
Inductive int_dtype : Type :=
  | int8 | int16 | int32 | int64
  | uint8 | uint16 | uint32.

Definition dtype_min (dtype : int_dtype) : Z :=
  match dtype with
  | int8 => - 2 ^ 7
  | int16 => - 2 ^ 15
  | int32 => - 2 ^ 31
  | int64 => - 2 ^ 63
  | uint8 | uint16 | uint32 => 0
  end.

Definition dtype_max (dtype : int_dtype) : Z :=
  match dtype with
  | int8 => 2 ^ 7 - 1
  | int16 => 2 ^ 15 - 1
  | int32 => 2 ^ 31 - 1
  | int64 => 2 ^ 63 - 1
  | uint8 => 2 ^ 8 - 1
  | uint16 => 2 ^ 16 - 1
  | uint32 => 2 ^ 32 - 1
  end.

(** The result of an addition in [dtype]: the exact sum modulo the size
    of the type. *)
Definition wrap (dtype : int_dtype) (z : Z) : Z :=
  (z - dtype_min dtype) mod (dtype_max dtype - dtype_min dtype + 1)
  + dtype_min dtype.

(** The exponent of a positive rational [x]: the [k] with
    [2 ^ k <= x < 2 ^ (k + 1)]. *)
Definition Qlog2 (x : Q) : Z :=
  let k := Z.log2 (Qnum x) - Z.log2 (Z.pos (Qden x)) in
  if Qle_bool (Qpower 2 k) x then k else k - 1.

(** The integer nearest to [x], the even one of two that are equally
    near. *)
Definition round_half_even (x : Q) : Z :=
  let f := Qfloor x in
  match (x - inject_Z f ?= 1 # 2)%Q with
  | Lt => f
  | Gt => f + 1
  | Eq => if Z.even f then f else f + 1
  end.

(** [np.float32(q)]: the nearest binary32 number (a significand of 24
    bits, exponents from -126, subnormal numbers below), ties to the
    even significand.  A magnitude that rounds to [2 ^ 128] or above
    overflows to infinity, for which [2 ^ 128] stands: no float32 is as
    large, so it compares with the others as infinity does. *)
Definition float32 (q : Q) : Q :=
  if Qeq_bool q 0 then 0%Q
  else
    let a := if Qle_bool 0 q then q else (- q)%Q in
    let e := Z.max (Qlog2 a) (-126) in
    let ulp := Qpower 2 (e - 23) in
    let r := (inject_Z (round_half_even (a / ulp)) * ulp)%Q in
    let r := if Qle_bool (Qpower 2 128) r then Qpower 2 128 else r in
    Qred (if Qle_bool 0 q then r else - r).

End NumPy.

Import NumPy.

(** ** [SegFlow]: the coordinator's state *)

Record Padding : Type := mkPadding {
  pad_top : Z;
  pad_bottom : Z;
  pad_left : Z;
  pad_right : Z
}.

(** The fields of a [SegFlow] object the stitching code reads.  Of the
    images only the shape is kept; the four pad amounts are set together
    ([None] by [__init__], all four by [pad_image]). *)
Record SegFlow : Type := mkSegFlow {
  tile_size : Z;
  stride : Z;
  average_weight : Q;
  sum_weight : Q;
  min_pixels : Z;
  image_padded : option (nat * nat);
  padding : option Padding;
  positions : option (list (Z * Z))
}.

(** [SegFlow.__init__]: the two weights and the pixel threshold are set
    to literals, whatever the caller passes. *)
Definition __init__ (tile_size stride : Z) (average_weight sum_weight : Q)
    (min_pixels : Z) : SegFlow :=
  {| tile_size := tile_size;
     stride := stride;
     average_weight := 7 # 10;
     sum_weight := 3 # 10;
     min_pixels := 5;
     image_padded := None;
     padding := None;
     positions := None |}.

(** ** Tiling *)

(** Total padding of one dimension of size [S] in [pad_image]. *)
Definition pad_total (tile_size stride S : Z) : Z :=
  tile_size + ((tile_size - (S - tile_size) mod stride) mod stride).

(** [SegFlow.pad_image], on an image of [height] rows and [width]
    columns: the pad amounts and the shape of the padded image (the
    reflected content is not modelled).  These are the fields the
    method sets when it returns: it raises [ZeroDivisionError] on a
    stride of 0, and [np.pad] raises [ValueError] on an image without
    pixels and on a negative pad, so the properties of the padded image
    assume a stride above 0 and an image of at least one row and one
    column. *)
Definition pad_image (self : SegFlow) (height width : Z) : SegFlow :=
  let pad_height_total := pad_total (tile_size self) (stride self) height in
  let pad_width_total := pad_total (tile_size self) (stride self) width in
  let pad_top := pad_height_total / 2 in
  let pad_bottom := pad_height_total - pad_top in
  let pad_left := pad_width_total / 2 in
  let pad_right := pad_width_total - pad_left in
  {| tile_size := tile_size self;
     stride := stride self;
     average_weight := average_weight self;
     sum_weight := sum_weight self;
     min_pixels := min_pixels self;
     image_padded :=
       Some (Z.to_nat (pad_top + height + pad_bottom),
             Z.to_nat (pad_left + width + pad_right));
     padding := Some (mkPadding pad_top pad_bottom pad_left pad_right);
     positions := positions self |}.

(** Start offsets of the stride grid along a dimension of size [n]:
    [range(0, n - tile_size + 1, stride)]. *)
Definition grid_starts (n tile_size stride : Z) : list Z :=
  py_range 0 (n - tile_size + 1) stride.

(** [_extract_tiles]: the tiles of the stride grid, row-major, each with
    its top-left position.  [range] raises on a step of 0. *)
Definition _extract_tiles {A} (image : raster A) (tile_size stride : Z)
  : result (list (raster A * (Z * Z))) :=
  if stride =? 0 then Err ValueError
  else
    let height := len image in
    let width := Z.of_nat (NumPy.width image) in
    Ok (y ← grid_starts height tile_size stride;
        x ← grid_starts width tile_size stride;
        [(slice2 y (y + tile_size) x (x + tile_size) image, (y, x))]).

(** [SegFlow.extract_tiles], as far as the positions go: they are those
    of the grid on the padded image, computed once. *)
Definition extract_tiles (self : SegFlow) : result SegFlow :=
  match positions self, image_padded self with
  | Some _, _ => Ok self
  | None, None => Err AttributeError
  | None, Some shape =>
      rbind (_extract_tiles (np_zeros 0 shape.1 shape.2)
                            (tile_size self) (stride self))
        (fun extracted =>
           Ok {| tile_size := tile_size self;
                 stride := stride self;
                 average_weight := average_weight self;
                 sum_weight := sum_weight self;
                 min_pixels := min_pixels self;
                 image_padded := image_padded self;
                 padding := padding self;
                 positions := Some extracted.*2 |})
  end.

(** ** Confidence reduction *)

(** One iteration of the loop of [_calculate_high_confidence_tiles]:
    the adjusted tile and the value of [max_label] after it.  The tiles
    are arrays of type [dtype]: [label] and [max_label] (0, or the
    maximum of an adjusted tile) are numpy scalars of that type, and
    their sum is computed in it. *)
Definition confidence_tile (dtype : int_dtype) (tile_size max_label : Z)
    (tile_segmentation : raster Z) : raster Z * Z :=
  let margin := tile_size / 8 in
  let y_start := margin in
  let y_end := tile_size - margin in
  let x_start := margin in
  let x_end := tile_size - margin in
  let high_confidence_region :=
    slice2 y_start y_end x_start x_end tile_segmentation in
  let labels_in_high_confidence :=
    filter (fun l : Z => l ≠ 0) (np_unique (ravel high_confidence_region)) in
  let mask :=
    map2d (fun v : Z => bool_decide (v ∈ labels_in_high_confidence))
          tile_segmentation in
  let tile_segmentation_cleaned :=
    np_where mask tile_segmentation (map2d (fun _ => 0) tile_segmentation) in
  let labels_to_adjust :=
    filter (fun l : Z => l ≠ 0) (np_unique (ravel tile_segmentation_cleaned)) in
  let label_mapping :=
    fmap (fun label => (label, wrap dtype (label + max_label)))
         labels_to_adjust in
  let tile_segmentation_adjusted :=
    foldl (fun adjusted (m : Z * Z) =>
             np_where (map2d (fun v => v =? m.1) tile_segmentation_cleaned)
                      (map2d (fun _ => m.2) tile_segmentation_cleaned)
                      adjusted)
          (map2d (fun _ => 0) tile_segmentation_cleaned)
          label_mapping in
  let max_label' :=
    if bool_decide (labels_to_adjust ≠ [])
    then np_max (ravel tile_segmentation_adjusted)
    else max_label in
  (tile_segmentation_adjusted, max_label').

(** The loop itself, from a given [max_label]: each adjusted tile with
    the running [max_label] after it. *)
Fixpoint confidence_loop (dtype : int_dtype) (tile_size max_label : Z)
    (tiles : list (raster Z * (Z * Z))) : list (raster Z * Z) :=
  match tiles with
  | [] => []
  | (tile_segmentation, _) :: rest =>
      let r := confidence_tile dtype tile_size max_label tile_segmentation in
      r :: confidence_loop dtype tile_size r.2 rest
  end.

(** [SegFlow._calculate_high_confidence_tiles], on tiles of type
    [dtype]. *)
Definition _calculate_high_confidence_tiles (dtype : int_dtype) (tile_size : Z)
    (positions : list (Z * Z)) (segmentation_tiles : list (raster Z))
  : list (raster Z) :=
  (confidence_loop dtype tile_size 0 (zip segmentation_tiles positions)).*1.

(** The running offset after each tile of the same call. *)
Definition running_offsets (dtype : int_dtype) (tile_size : Z)
    (positions : list (Z * Z)) (segmentation_tiles : list (raster Z))
  : list Z :=
  (confidence_loop dtype tile_size 0 (zip segmentation_tiles positions)).*2.

(** ** Overlap density map *)

(** The loops below run in the [result] monad: a step that fails ends
    the run. *)
Fixpoint foldM {A B} (f : B -> A -> result B) (b : B) (l : list A) : result B :=
  match l with
  | [] => Ok b
  | x :: rest => rbind (f b x) (fun b' => foldM f b' rest)
  end.

Fixpoint mapM {A B} (f : A -> result B) (l : list A) : result (list B) :=
  match l with
  | [] => Ok []
  | x :: rest =>
      rbind (f x) (fun y => rbind (mapM f rest) (fun ys => Ok (y :: ys)))
  end.

(** One iteration of the loop of [_calculate_overlaps]. *)
Definition overlaps_tile (tile_size : Z) (full_overlap_mask : raster Z)
    (t : raster Z * (Z * Z)) : result (raster Z) :=
  let '(tile_segmentation, (y, x)) := t in
  let y_end := y + tile_size in
  let x_end := x + tile_size in
  let overlap_mask_region := slice2 y y_end x x_end full_overlap_mask in
  if same_shape tile_segmentation overlap_mask_region then
    let non_zero_mask := map2d (fun v => 0 <? v) tile_segmentation in
    let overlap_mask :=
      zip2d andb non_zero_mask (map2d (fun v => 0 <? v) overlap_mask_region) in
    (* full_overlap_mask[y:y_end, x:x_end][overlap_mask] += 1 *)
    let full1 :=
      set_slice2 y y_end x x_end full_overlap_mask
        (np_where overlap_mask
                  (map2d (fun v => wrap32 (v + 1)) overlap_mask_region)
                  overlap_mask_region) in
    (* full_overlap_mask[y:y_end, x:x_end][~overlap_mask & non_zero_mask] = 1 *)
    let region1 := slice2 y y_end x x_end full1 in
    Ok (set_slice2 y y_end x x_end full1
          (np_where (zip2d (fun o n => negb o && n) overlap_mask non_zero_mask)
                    (map2d (fun _ => 1) region1)
                    region1))
  else Err ShapeError.

(** [SegFlow._calculate_overlaps], on a padded image of [shape]. *)
Definition _calculate_overlaps (tile_size : Z) (shape : nat * nat)
    (positions : list (Z * Z)) (confidence_segmentation_tiles : list (raster Z))
  : result (raster Z) :=
  foldM (overlaps_tile tile_size)
        (np_zeros 0 shape.1 shape.2)
        (zip confidence_segmentation_tiles positions).

(** ** Per-instance coverage scorer *)

(** The score of one label: the body of the inner loop of
    [_calculate_tile_overlaps]. *)
Definition score_label (w1 w2 : Q) (min_pixels : Z)
    (tile_segmentation overlap_tile : raster Z)
    (tile_index_coverage : gmap Z Q) (label : Z) : gmap Z Q :=
  let label_mask := map2d (fun v => v =? label) tile_segmentation in
  let overlap_values := select (ravel label_mask) (ravel overlap_tile) in
  let num_pixels := len (filter (fun b : bool => b = true) (ravel label_mask)) in
  if min_pixels <=? num_pixels then
    let avg_overlap :=
      (inject_Z (np_sum overlap_values) / inject_Z (len overlap_values))%Q in
    let sum_overlap := np_sum overlap_values in
    let score := (w1 * avg_overlap + w2 * inject_Z sum_overlap)%Q in
    <[label := score]> tile_index_coverage
  else tile_index_coverage.

(** The coverage dictionary of one tile. *)
Definition tile_coverage (w1 w2 : Q) (min_pixels : Z)
    (t : raster Z * raster Z) : result (gmap Z Q) :=
  let '(tile_segmentation, overlap_tile) := t in
  if same_shape tile_segmentation overlap_tile then
    let unique_labels :=
      filter (fun l : Z => l ≠ 0) (np_unique (ravel tile_segmentation)) in
    Ok (foldl (score_label w1 w2 min_pixels tile_segmentation overlap_tile)
              ∅ unique_labels)
  else Err ShapeError.

(** [SegFlow._calculate_tile_overlaps]: the weights and the threshold
    are read from the object. *)
Definition _calculate_tile_overlaps (self : SegFlow)
    (full_overlap_mask : raster Z)
    (confidence_segmentation_tiles : list (raster Z))
  : result (list (gmap Z Q)) :=
  rbind (_extract_tiles full_overlap_mask (tile_size self) (stride self))
    (fun extracted =>
       let overlap_mask_tiles := extracted.*1 in
       let w1 := average_weight self in
       let w2 := sum_weight self in
       let min_pixels := min_pixels self in
       mapM (tile_coverage w1 w2 min_pixels)
            (zip confidence_segmentation_tiles overlap_mask_tiles)).

(** ** Recombiner *)

(** [a > b] on scores. *)
Definition Qgtb (a b : Q) : bool := negb (Qle_bool a b).

(** The per-pixel score raster of a tile, an array of [np.float32]:
    each entry of the coverage dictionary is written on the pixels of
    its label, rounded to float32 by the store. *)
Definition tile_score_map (tile_segmentation : raster Z)
    (index_coverage : gmap Z Q) : raster Q :=
  map_fold
    (fun label score tsm =>
       np_where (map2d (fun v => v =? label) tile_segmentation)
                (map2d (fun _ => float32 score) tile_segmentation)
                tsm)
    (map2d (fun _ => 0%Q) tile_segmentation)
    index_coverage.

(** The mosaic: the label raster ([np.int32]) and the score raster
    ([np.float32]). *)
Record Mosaic : Type := mkMosaic {
  full_segmentation_mask : raster Z;
  full_score_map : raster Q
}.

(** [overwrite_mask] of one iteration of [ingest_tile_segmentation]. *)
Definition overwrite_mask (tile_segmentation : raster Z)
    (tsm full_score_region : raster Q) : raster bool :=
  zip2d andb (zip2d Qgtb tsm full_score_region)
             (map2d (fun v => 0 <? v) tile_segmentation).

(** One iteration of the recombination loop. *)
Definition ingest_tile (tile_size : Z) (m : Mosaic)
    (t : raster Z * (Z * Z) * gmap Z Q) : result Mosaic :=
  let '(tile_segmentation, (y, x), index_coverage) := t in
  let y_end := y + tile_size in
  let x_end := x + tile_size in
  let full_mask_region := slice2 y y_end x x_end (full_segmentation_mask m) in
  let full_score_region := slice2 y y_end x x_end (full_score_map m) in
  if same_shape tile_segmentation full_mask_region
     && same_shape tile_segmentation full_score_region then
    let tsm := tile_score_map tile_segmentation index_coverage in
    let ow := overwrite_mask tile_segmentation tsm full_score_region in
    let full_mask_region' :=
      np_where ow (map2d wrap32 tile_segmentation) full_mask_region in
    let full_score_region' := np_where ow tsm full_score_region in
    Ok {| full_segmentation_mask :=
            set_slice2 y y_end x x_end (full_segmentation_mask m) full_mask_region';
          full_score_map :=
            set_slice2 y y_end x x_end (full_score_map m) full_score_region' |}
  else Err ShapeError.

(** The mosaic before the first tile: every cell unclaimed. *)
Definition empty_mosaic (shape : nat * nat) : Mosaic :=
  {| full_segmentation_mask := np_zeros 0 shape.1 shape.2;
     full_score_map := np_zeros 0%Q shape.1 shape.2 |}.

(** The recombination loop of [ingest_tile_segmentation]. *)
Definition recombine (tile_size : Z) (m : Mosaic)
    (tiles : list (raster Z * (Z * Z) * gmap Z Q)) : result Mosaic :=
  foldM (ingest_tile tile_size) m tiles.

(** ** Cropper *)

(** [SegFlow._crop_padded].  [-self.pad_bottom] of a pad of 0 is the
    bound 0, not the end of the axis. *)
Definition _crop_padded {A} (self : SegFlow) (padded_image_to_crop : raster A)
  : result (raster A) :=
  match image_padded self, padding self with
  | None, _ => Err ValueError
  | Some _, None => Err TypeError
  | Some _, Some p =>
      let cropped_segmentation_mask :=
        slice2 (pad_top p) (- pad_bottom p) (pad_left p) (- pad_right p)
               padded_image_to_crop in
      let cropped_segmentation_mask :=
        if pad_bottom p =? 0 then
          fmap (py_slice (pad_left p) (- pad_right p))
              (py_slice_from (pad_top p) padded_image_to_crop)
        else cropped_segmentation_mask in
      let cropped_segmentation_mask :=
        if pad_right p =? 0 then
          fmap (py_slice_from (pad_left p)) cropped_segmentation_mask
        else cropped_segmentation_mask in
      Ok cropped_segmentation_mask
  end.

(** [SegFlow.ingest_tile_segmentation]: the whole label pipeline, on
    tiles of type [dtype]. *)
Definition ingest_tile_segmentation (self : SegFlow) (dtype : int_dtype)
    (segmentation_tiles : list (raster Z)) : result (raster Z) :=
  match positions self, image_padded self with
  | None, _ => Err ValueError
  | Some _, None => Err AttributeError
  | Some pos, Some shape =>
      let confidence_segmentation_tiles :=
        _calculate_high_confidence_tiles dtype (tile_size self) pos
                                         segmentation_tiles in
      rbind (_calculate_overlaps (tile_size self) shape pos
                                 confidence_segmentation_tiles)
        (fun full_overlap_mask =>
      rbind (_calculate_tile_overlaps self full_overlap_mask
                                      confidence_segmentation_tiles)
        (fun index_coverage_tiles =>
      (* total_cells_before: np.concatenate of an empty list raises *)
      if bool_decide (confidence_segmentation_tiles = []) then Err ValueError
      else
      rbind (recombine (tile_size self) (empty_mosaic shape)
               (zip (zip confidence_segmentation_tiles pos) index_coverage_tiles))
        (fun m => _crop_padded self (full_segmentation_mask m))))
  end.

(** ** Continuous-tile blending *)

Definition Qmaxb (a b : Q) : Q := if Qle_bool a b then b else a.

(** [window.max()] *)
Definition q_max (l : list Q) : Q :=
  match l with
  | [] => 0%Q
  | x :: r => foldr Qmaxb x r
  end.

(** [np.outer(a, b)] *)
Definition np_outer (a b : list Q) : raster Q :=
  fmap (fun x => fmap (fun y => (x * y)%Q) b) a.

(** The weighting window, from the values [hanning] of
    [np.hanning(self.tile_size)], a function of numpy: their outer
    product, divided by its maximum.  The maximum of an empty array
    raises; a maximum of 0 makes every cell 0/0. *)
Definition hann_window (hanning : list Q) : result (raster Q) :=
  let window := np_outer hanning hanning in
  if bool_decide (ravel window = []) then Err ValueError
  else if Qeq_bool (q_max (ravel window)) 0 then Err NotANumber
  else Ok (map2d (fun v => (v / q_max (ravel window))%Q) window).

(** One iteration of the loop of [combine_continuous_tiles], on the
    pair of [reconstructed_image] and [weight_matrix]. *)
Definition blend_tile (tile_size : Z) (window : raster Q)
    (acc : raster Q * raster Q) (t : raster Q * (Z * Z))
  : result (raster Q * raster Q) :=
  let '(reconstructed_image, weight_matrix) := acc in
  let '(tile, (row_start, col_start)) := t in
  let row_end := row_start + tile_size in
  let col_end := col_start + tile_size in
  let image_region :=
    slice2 row_start row_end col_start col_end reconstructed_image in
  let weight_region :=
    slice2 row_start row_end col_start col_end weight_matrix in
  if same_shape window tile && same_shape window image_region
     && same_shape window weight_region then
    Ok (set_slice2 row_start row_end col_start col_end reconstructed_image
          (zip2d Qplus image_region (zip2d Qmult tile window)),
        set_slice2 row_start row_end col_start col_end weight_matrix
          (zip2d Qplus weight_region window))
  else Err ShapeError.

(** The accumulation loop, from zero accumulators. *)
Definition blend_loop (tile_size : Z) (window : raster Q) (shape : nat * nat)
    (tiles : list (raster Q * (Z * Z))) : result (raster Q * raster Q) :=
  foldM (blend_tile tile_size window)
        (np_zeros 0%Q shape.1 shape.2, np_zeros 0%Q shape.1 shape.2)
        tiles.

(** The division guard and the elementwise quotient. *)
Definition normalize (reconstructed_image weight_matrix : raster Q) : raster Q :=
  zip2d Qdiv reconstructed_image
        (map2d (fun w : Q => if Qeq_bool w 0 then 1%Q else w) weight_matrix).

(** [SegFlow.combine_continuous_tiles], given [np.hanning(tile_size)]. *)
Definition combine_continuous_tiles (self : SegFlow) (hanning : list Q)
    (tiles : list (raster Q)) : result (raster Q) :=
  match image_padded self with
  | None => Err AttributeError
  | Some shape =>
      (* tiles[0].dtype *)
      if bool_decide (tiles = []) then Err IndexError
      else
        rbind (hann_window hanning) (fun window =>
        match positions self with
        | None => Err TypeError
        | Some pos =>
            rbind (blend_loop (tile_size self) window shape (zip tiles pos))
              (fun acc => _crop_padded self (normalize acc.1 acc.2))
        end)
  end.

(** ** [SegmentationImage.area] *)

Module SegmentationImage.

(** The object: the label array and the two fields [area] reads.  The
    md5 checksum of the content is modelled by the content itself. *)
Record t : Type := mk {
  data : raster Z;
  _area_cache : option (gmap Z Z);
  _checksum : raster Z
}.

Definition _calculate_checksum (self : t) : raster Z := data self.

(** [SegmentationImage.__new__] on a 2-D integer array. *)
Definition __new__ (input_array : raster Z) : t :=
  {| data := input_array;
     _area_cache := None;
     _checksum := input_array |}.

(** Values a name can be bound to, as far as the area computation
    tells them apart. *)
Inductive value : Type :=
  | VArray (a : raster Z)
  | VInt (n : Z)
  | VObject.

(** Names bound at module level in [segmentation_image.py]: its imports,
    its class and its functions. *)
Definition module_globals : list string :=
  ["np"; "expand_labels"; "binary_dilation"; "binary_erosion"; "disk";
   "nd_binary_erosion"; "regionprops"; "tqdm"; "hashlib"; "cv2";
   "distance_transform_edt"; "generate_binary_structure";
   "minimum_filter"; "maximum_filter"; "SegmentationImage";
   "morphological_closing_fast"; "binary_dilation_fast";
   "binary_erosion_fast"; "binary_dilation_fast3";
   "binary_erosion_fast3"; "dilate_labels4"]%string.

(** Python's built-in functions. *)
Definition builtins : list string :=
  ["abs"; "aiter"; "all"; "anext"; "any"; "ascii"; "bin"; "bool";
   "breakpoint"; "bytearray"; "bytes"; "callable"; "chr"; "classmethod";
   "compile"; "complex"; "delattr"; "dict"; "dir"; "divmod"; "enumerate";
   "eval"; "exec"; "filter"; "float"; "format"; "frozenset"; "getattr";
   "globals"; "hasattr"; "hash"; "help"; "hex"; "id"; "input"; "int";
   "isinstance"; "issubclass"; "iter"; "len"; "list"; "locals"; "map";
   "max"; "memoryview"; "min"; "next"; "object"; "oct"; "open"; "ord";
   "pow"; "print"; "property"; "range"; "repr"; "reversed"; "round";
   "set"; "setattr"; "slice"; "sorted"; "staticmethod"; "str"; "sum";
   "super"; "tuple"; "type"; "vars"; "zip"; "__import__"]%string.

(** The scope in which the body of the loop of [_calculate_area] runs:
    the locals assigned so far, then the module's names, then the
    built-ins. *)
Definition area_scope (self : t) (region_label : Z) : list (string * value) :=
  [("self", VArray (data self)); ("current_checksum", VObject);
   ("area", VObject); ("regions", VObject);
   ("region", VInt region_label)]%string
  ++ fmap (fun n => (n, VObject)) module_globals
  ++ fmap (fun n => (n, VObject)) builtins.

(** Loading a name: the first binding, or [NameError]. *)
Definition load_name (scope : list (string * value)) (name : string)
  : result value :=
  match list_find (fun b : string * value => b.1 = name) scope with
  | Some (_, b) => Ok b.2
  | None => Err (NameError name)
  end.

(** [np.sum(labeled_image == label)]: [np] is loaded, then the two
    operands of the comparison, left to right. *)
Definition curr_area_expr (scope : list (string * value)) : result Z :=
  rbind (load_name scope "np") (fun _ =>
  rbind (load_name scope "labeled_image") (fun labeled_image =>
  rbind (load_name scope "label") (fun label =>
    match labeled_image, label with
    | VArray a, VInt l =>
        Ok (len (filter (fun v : Z => v = l) (ravel a)))
    | _, _ => Err TypeError
    end))).

(** [skimage.measure.regionprops], by its documentation: one region per
    positive label of the array, in ascending order of label (label 0
    is ignored).  A region is kept as its label. *)
Definition regionprops (label_image : raster Z) : list Z :=
  filter (fun l : Z => 0 < l) (np_unique (ravel label_image)).

(** [SegmentationImage._calculate_area]: the object after the call and
    the value returned. *)
Definition _calculate_area (self : t) : result (t * gmap Z Z) :=
  let current_checksum := _calculate_checksum self in
  let compute :=
    let regions := regionprops (data self) in
    rbind
      (foldM (fun (area : gmap Z Z) (region : Z) =>
                if bool_decide (region ≠ 0) then
                  rbind (curr_area_expr (area_scope self region))
                        (fun curr_area => Ok (<[region := curr_area]> area))
                else Ok area)
             ∅ regions)
      (fun area =>
         Ok ({| data := data self;
                _area_cache := Some area;
                _checksum := current_checksum |}, area)) in
  match _area_cache self with
  | Some cached =>
      if bool_decide (current_checksum = _checksum self)
      then Ok (self, cached)
      else compute
  | None => compute
  end.

(** The [area] property: the object after the read and the value. *)
Definition area (self : t) : result (t * option (gmap Z Z)) :=
  match _area_cache self with
  | None =>
      rbind (_calculate_area self)
            (fun r => Ok (r.1, _area_cache r.1))
  | Some _ => Ok (self, _area_cache self)
  end.

End SegmentationImage.

(** ** Batched prediction and padding content *)

(** The batches of [run_segmentation]: [tiles[i:i+batch_size]] for [i]
    in [range(0, len(tiles), batch_size)]. *)
Definition batches {T} (tiles : list T) (batch_size : Z) : list (list T) :=
  fmap (fun i => py_slice i (i + batch_size) tiles)
       (py_range 0 (len tiles) batch_size).

(** [SegFlow.run_segmentation]: the predictions of the batches, one
    after the other.  [predict] is the application's [predict] method
    (with its [image_mpp] argument fixed). *)
Definition run_segmentation {T P} (tiles : list T) (predict : list T -> list P)
    (batch_size : Z) : result (list P) :=
  if batch_size =? 0 then Err ValueError
  else Ok (mjoin (fmap predict (batches tiles batch_size))).

(** [np.pad(image, ((top, bottom), (left, right)), mode=...)] on the two
    image axes: the image in the middle of an array of the padded shape.
    The values the mode gives the added cells are [border], a function
    of the cell's position in the padded array.  numpy refuses negative
    pad amounts. *)
Definition np_pad {A} (border : nat -> nat -> A) (top bottom left right : Z)
    (image : raster A) : result (raster A) :=
  if (top <? 0) || (bottom <? 0) || (left <? 0) || (right <? 0)
  then Err ValueError
  else
    let w := (Z.to_nat left + width image + Z.to_nat right)%nat in
    Ok (fmap (fun i => fmap (border i) (seq 0 w)) (seq 0 (Z.to_nat top))
        ++ imap (fun i row =>
                   fmap (border (Z.to_nat top + i)%nat) (seq 0 (Z.to_nat left))
                   ++ row
                   ++ fmap (border (Z.to_nat top + i)%nat)
                           (seq (Z.to_nat left + width image)%nat (Z.to_nat right)))
                image
        ++ fmap (fun i => fmap (border i) (seq 0 w))
                (seq (Z.to_nat top + length image)%nat (Z.to_nat bottom))).

(** The padded image [pad_image] stores in [self.image_padded]:
    [np.pad(self.image, ..., mode='reflect')] with the pad amounts of
    [pad_image] (for a stride that is not 0).  Other than the constant
    mode, reflection refuses to extend an axis without pixels. *)
Definition padded_content {A} (self : SegFlow) (border : nat -> nat -> A)
    (image : raster A) : result (raster A) :=
  let pad_height_total :=
    pad_total (tile_size self) (stride self) (len image) in
  let pad_width_total :=
    pad_total (tile_size self) (stride self) (Z.of_nat (width image)) in
  let pad_top := pad_height_total / 2 in
  let pad_bottom := pad_height_total - pad_top in
  let pad_left := pad_width_total / 2 in
  let pad_right := pad_width_total - pad_left in
  if (len image =? 0) && negb ((pad_top =? 0) && (pad_bottom =? 0))
  then Err ValueError
  else if (0 <? len image) && (Z.of_nat (width image) =? 0)
          && negb ((pad_left =? 0) && (pad_right =? 0))
  then Err ValueError
  else np_pad border pad_top pad_bottom pad_left pad_right image.

(** ** Relabelling at random *)

(** An index into an axis of [n] cells; a negative index counts from the
    end. *)
Definition py_index (n i : Z) : result nat :=
  if (0 <=? i) && (i <? n) then Ok (Z.to_nat i)
  else if (- n <=? i) && (i <? 0) then Ok (Z.to_nat (n + i))
  else Err IndexError.

(** [a[indices] = values] on a 1-D [int32] array, one cell after the
    other.  The two sides have one length, or the right side is a
    single value, which numpy repeats. *)
Definition assign_at (a : list Z) (indices values : list Z) : result (list Z) :=
  let assign (values : list Z) :=
    foldM (fun (a : list Z) (iv : Z * Z) =>
             rbind (py_index (len a) iv.1)
                   (fun k => Ok (<[k := wrap32 iv.2]> a)))
          a (zip indices values) in
  if len values =? len indices then assign values
  else
    match values with
    | [value] => assign (replicate (length indices) value)
    | _ => Err ValueError
    end.

(** [a[image]]: the cell of [a] at each value of the image. *)
Definition take_at (a : list Z) (image : raster Z) : result (raster Z) :=
  mapM (mapM (fun v : Z =>
                rbind (py_index (len a) v)
                      (fun k => match a !! k with
                                | Some x => Ok x
                                | None => Err IndexError
                                end)))
       image.

(** The body the two [randomize_segmentation] methods share.
    [permutation n] is what the random generator returns for
    [permutation(n)]: the numbers below [n] in some order.  [max()] of
    an array without cells raises.  The labels are integers without a
    bound: [max() + 1] is taken not to wrap in the dtype of the image. *)
Definition randomize_labels (permutation : Z -> list Z) (image : raster Z)
  : result (raster Z) :=
  let unique_labels := np_unique (ravel image) in
  let non_zero_labels := filter (fun l : Z => 0 < l) unique_labels in
  let randomized_labels :=
    (fun k : Z => k + 1) <$> permutation (len non_zero_labels) in
  if bool_decide (unique_labels = []) then Err ValueError
  else if np_max unique_labels + 1 <? 0 then Err ValueError
  else
    let label_mapping := replicate (Z.to_nat (np_max unique_labels + 1)) 0 in
    rbind (assign_at label_mapping non_zero_labels randomized_labels)
      (fun label_mapping => take_at label_mapping image).

(** [SegFlow.randomize_segmentation] *)
Definition randomize_segmentation (permutation : Z -> list Z)
    (segmentation_image : option (raster Z)) : result (raster Z) :=
  match segmentation_image with
  | None => Err ValueError
  | Some image => randomize_labels permutation image
  end.

(** ** Methods of [SegmentationImage] *)

Module SegmentationImageMethods.
Import SegmentationImage.

(** [np.sum] of a boolean array: the number of its [True] cells. *)
Definition count_true (l : list bool) : Z :=
  np_sum ((fun b : bool => if b then 1 else 0) <$> l).

(** The loop of [has_missing_cells] over the labels: the first label
    other than 0 without a pixel ends it with [True]. *)
Fixpoint has_missing_cells_loop (self : t) (labels : list Z) : bool :=
  match labels with
  | [] => false
  | label :: rest =>
      if label =? 0 then has_missing_cells_loop self rest
      else if count_true (ravel (map2d (fun v => v =? label) (data self))) =? 0
      then true
      else has_missing_cells_loop self rest
  end.

(** [SegmentationImage.has_missing_cells] *)
Definition has_missing_cells (self : t) : bool :=
  has_missing_cells_loop self (np_unique (ravel (data self))).

(** [SegmentationImage.randomize_segmentation] *)
Definition randomize_segmentation (permutation : Z -> list Z) (self : t)
  : result t :=
  rbind (randomize_labels permutation (data self))
        (fun new_image => Ok (__new__ new_image)).

(** [np.isin(a, labels)] *)
Definition np_isin (a : raster Z) (labels : list Z) : raster bool :=
  map2d (fun v => bool_decide (v ∈ labels)) a.

(** [a[mask]] for a boolean mask: the cells of [a] where the mask
    holds, in order; the mask has the shape of [a]. *)
Definition bool_index (a : raster Z) (mask : raster bool) : result (list Z) :=
  if same_shape a mask then Ok (select (ravel mask) (ravel a))
  else Err IndexError.

(** [a[i, j]] with integer indices. *)
Definition index2 {A} (a : raster A) (i j : Z) : result A :=
  rbind (py_index (len a) i) (fun i' =>
  rbind (py_index (Z.of_nat (width a)) j) (fun j' =>
    match at2 a i' j' with
    | Some x => Ok x
    | None => Err IndexError
    end)).

(** The names in scope in the body of [apply_binary_mask] when the
    warning is issued. *)
Definition mask_scope : list (string * value) :=
  fmap (fun n => (n, VObject))
       (["self"; "binary_mask"; "method"]%string ++ module_globals ++ builtins).

(** [SegmentationImage.apply_binary_mask].  [centroids] are the items
    of [self.centroids], which skimage computes; [mask_is_bool] tells
    whether the mask's dtype is boolean (its cells are then 0 and 1). *)
Definition apply_binary_mask (centroids : list (Z * (Z * Z)))
    (self binary_mask : t) (mask_is_bool : bool) (method : string) : result t :=
  rbind
    (if negb (bool_decide (np_unique (ravel (data binary_mask)) = [0; 1]))
        && negb mask_is_bool
     then rbind (load_name mask_scope "warn") (fun _ => Ok tt)
     else Ok tt)
    (fun _ =>
       let binary_mask_bool := map2d (fun v => 0 <? v) (data binary_mask) in
       let new_image := data self in
       if String.eqb method "centroid_overlap" then
         rbind
           (foldM (fun (acc : list Z) (c : Z * (Z * Z)) =>
                     rbind (index2 binary_mask_bool c.2.1 c.2.2)
                           (fun b => Ok (if b then acc else acc ++ [c.1])))
                  [] centroids)
           (fun centroids_in_false_areas =>
              let mask := np_isin (data self) centroids_in_false_areas in
              Ok (__new__ (np_where mask (map2d (fun _ => 0) new_image) new_image)))
       else if String.eqb method "all_in" then
         rbind (bool_index (data self) (map2d negb binary_mask_bool))
           (fun cells =>
              let labels_in_false_area := np_unique cells in
              let mask := np_isin (data self) labels_in_false_area in
              Ok (__new__ (np_where mask (map2d (fun _ => 0) new_image) new_image)))
       else if String.eqb method "any_in" then
         rbind (bool_index (data self) binary_mask_bool)
           (fun cells =>
              let labels_in_true_area := np_unique cells in
              let all_labels := np_unique (ravel (data self)) in
              let labels_to_zero :=
                filter (fun l : Z => l ∉ labels_in_true_area) all_labels in
              let mask := np_isin (data self) labels_to_zero in
              Ok (__new__ (np_where mask (map2d (fun _ => 0) new_image) new_image)))
       else Err ValueError).

(** [SegmentationImage.close_segmentation].  [morphological_closing_fast]
    is OpenCV's closing of the 0/255 image; [is_bool] tells whether the
    dtype of the image is boolean.  On a labelled image the method
    does nothing ([pass]) and then reads [new_image], a local name
    that was never bound: an [UnboundLocalError], which is a
    [NameError]. *)
Definition close_segmentation
    (morphological_closing_fast : raster Z -> Z -> raster Z)
    (self : t) (is_bool : bool) (closing_pixels : Z) : result t :=
  if closing_pixels <? 1 then Err ValueError
  else
    rbind
      (if is_bool || bool_decide (np_unique (ravel (data self)) = [0; 1]) then
         let image_uint8 := map2d (fun v => v mod 2 ^ 8 * 255) (data self) in
         let closed := morphological_closing_fast image_uint8 closing_pixels in
         Ok (map2d (fun v : Z => if 0 <? v then 1 else 0) closed)
       else Err (NameError "new_image"))
      (fun new_image => Ok (__new__ new_image)).

End SegmentationImageMethods.

(** ** [SegmentationPatchTiledImage] *)

Module SegmentationPatchTiledImage.

(** A patch description, as far as the methods below read it. *)
Record description : Type := mkDescription {
  region_label : Z;
  bbox_position : Z * Z
}.

(** The object: the array itself, one patch per index of its first
    axis, the patch descriptions, and the shape of the full image.  The
    base class [SegmentationTiledImage] is taken as a subclass of
    [ndarray] that sets [original_shape] and leaves indexing to numpy. *)
Record t : Type := mk {
  patches : list (raster Z);
  patch_descriptions : list description;
  original_shape : nat * nat
}.

(** The names a [SegmentationImage] has as attributes: those its class
    defines (the instance fields set by [__new__] included) and those
    of [ndarray], the double-underscore names apart. *)
Definition image_attributes : list string :=
  ["_centroids_cache"; "_area_cache"; "_MinorAxisLength_cache";
   "_MajorAxisLength_cache"; "_Extent_cache"; "_Solidity_cache";
   "_Eccentricity_cache"; "_Orientation_cache"; "_segment_patches_cache";
   "_checksum"; "_initialize_attributes"; "_calculate_checksum";
   "_invalidate_cache"; "centroids"; "area"; "MinorAxisLength";
   "MajorAxisLength"; "Extent"; "Solidity"; "Eccentricity"; "Orientation";
   "has_missing_cells"; "randomize_segmentation"; "dilate_segmentation2";
   "erode_segmentation2"; "_calculate_centroids"; "_calculate_area";
   "_calculate_MajorAxisLength"; "_calculate_MinorAxisLength";
   "_calculate_Eccentricity"; "_calculate_Solidity"; "_calculate_Extent";
   "_calculate_Orientation"; "apply_binary_mask"; "dilate_segmentation4";
   "erode_segmentation4"; "dilate_segmentation3"; "erode_segmentation3";
   "close_segmentation"; "dilate_segmentation"; "erode_segmentation";
   "T"; "mT"; "base"; "ctypes"; "data"; "device"; "dtype"; "flags"; "flat";
   "imag"; "itemsize"; "nbytes"; "ndim"; "real"; "shape"; "size"; "strides";
   "all"; "any"; "argmax"; "argmin"; "argpartition"; "argsort"; "astype";
   "byteswap"; "choose"; "clip"; "compress"; "conj"; "conjugate"; "copy";
   "cumprod"; "cumsum"; "diagonal"; "dot"; "dump"; "dumps"; "fill";
   "flatten"; "getfield"; "item"; "itemset"; "max"; "mean"; "min";
   "newbyteorder"; "nonzero";
   "partition"; "prod"; "ptp"; "put"; "ravel"; "repeat"; "reshape"; "resize";
   "round"; "searchsorted"; "setfield"; "setflags"; "sort"; "squeeze";
   "std"; "sum"; "swapaxes"; "take"; "to_device"; "tobytes"; "tofile";
   "tolist"; "tostring"; "trace"; "transpose"; "var"; "view"]%string.

(** Reading an attribute of a [SegmentationImage]. *)
Definition getattr (name : string) : result unit :=
  if bool_decide (name ∈ image_attributes) then Ok tt else Err AttributeError.

(** [SegmentationPatchTiledImage.from_image], from its start to the
    last read of a property of the image: the centroids (computed by
    skimage), the areas, and six more.  [Ok tt] stands for reaching the
    code after them, which cuts the patches. *)
Definition from_image (input_image : SegmentationImage.t) (bbox_size : Z * Z)
  : result unit :=
  rbind (getattr "centroids") (fun _ =>
  rbind (getattr "area") (fun _ =>
  rbind (SegmentationImage.area input_image) (fun _ =>
  rbind (getattr "minor_axis_length") (fun _ =>
  rbind (getattr "major_axis_length") (fun _ =>
  rbind (getattr "extent") (fun _ =>
  rbind (getattr "solidity") (fun _ =>
  rbind (getattr "eccentricity") (fun _ =>
  rbind (getattr "orientation") (fun _ => Ok tt))))))))).

(** One iteration of the loop of [combine_tiles] (the second
    definition of the class, which replaces the first). *)
Definition combine_tile (self : t) (output_image : raster Z)
    (ip : nat * description) : result (raster Z) :=
  let '(i, patch_description) := ip in
  match patches self !! i with
  | None => Err IndexError
  | Some patch =>
      let '(y_min, x_min) := bbox_position patch_description in
      let patch_height := len patch in
      let patch_width := Z.of_nat (width patch) in
      let y_max := y_min + patch_height in
      let x_max := x_min + patch_width in
      if (Z.of_nat (original_shape self).1 <? y_max)
         || (Z.of_nat (original_shape self).2 <? x_max)
      then Err ValueError
      else
        let patch_mask := map2d (fun v => 0 <? v) patch in
        let output_image_region := slice2 y_min y_max x_min x_max output_image in
        if negb (same_shape patch output_image_region) then Err ValueError
        else
          (* the region is a view: the masked assignment writes the image *)
          Ok (set_slice2 y_min y_max x_min x_max output_image
                (np_where patch_mask patch output_image_region))
  end.

(** [SegmentationPatchTiledImage.combine_tiles] *)
Definition combine_tiles (self : t) : result SegmentationImage.t :=
  rbind (foldM (combine_tile self)
               (np_zeros 0 (original_shape self).1 (original_shape self).2)
               (imap pair (patch_descriptions self)))
        (fun output_image => Ok (SegmentationImage.__new__ output_image)).

(** What [isolate_center_labels] makes of a patch. *)
Definition isolate (region_label : Z) (patch : raster Z) : raster Z :=
  np_where (map2d (fun v => v =? region_label) patch) patch
           (map2d (fun _ => 0) patch).

(** One iteration of the loop of [isolate_center_labels]: the object is
    changed in place. *)
Definition isolate_center_label (self : t) (ic : nat * description) : result t :=
  let '(i, centroid) := ic in
  match patches self !! i with
  | None => Err IndexError
  | Some patch =>
      Ok {| patches := <[i := isolate (region_label centroid) patch]> (patches self);
            patch_descriptions := patch_descriptions self;
            original_shape := original_shape self |}
  end.

(** [SegmentationPatchTiledImage.isolate_center_labels] *)
Definition isolate_center_labels (self : t) : result t :=
  foldM isolate_center_label self (imap pair (patch_descriptions self)).

(** [np.any] of a boolean array. *)
Definition np_any (m : raster bool) : bool := existsb id (ravel m).

(** [SegmentationPatchTiledImage.find_patches_with_missing_labels] *)
Definition find_patches_with_missing_labels (self : t) : list Z :=
  omap (fun pd : raster Z * description =>
          if negb (np_any (map2d (fun v => v =? region_label pd.2) pd.1))
          then Some (region_label pd.2) else None)
       (zip (patches self) (patch_descriptions self)).

End SegmentationPatchTiledImage.

(** * Vocabulary of the properties *)

(** ** Confidence reduction, cell by cell *)

(** The non-zero labels of the central region of a tile: those whose
    instances survive confidence reduction. *)
Definition center_labels (tile_size : Z) (tile : raster Z) : list Z :=
  filter (fun l : Z => l ≠ 0)
    (np_unique (ravel (slice2 (tile_size / 8) (tile_size - tile_size / 8)
                              (tile_size / 8) (tile_size - tile_size / 8) tile))).

(** What confidence reduction makes of a cell of label [v] in a tile of
    type [dtype]. *)
Definition adjust (dtype : int_dtype) (tile_size max_label : Z) (tile : raster Z)
    (v : Z) : Z :=
  if bool_decide (v ∈ center_labels tile_size tile)
  then wrap dtype (v + max_label) else 0.

(** ** Coverage of an instance *)

(** Number of cells of label [l] in a tile. *)
Definition pixel_count (tile : raster Z) (l : Z) : Z :=
  len (filter (fun v : Z => v = l) (ravel tile)).

(** Sum of the density over the cells of label [l], cell by cell. *)
Definition density_sum (tile density : raster Z) (l : Z) : Z :=
  np_sum (ravel (zip2d (fun v d : Z => if v =? l then d else 0) tile density)).

(** Weighted mean and sum of the density over the cells of label [l]. *)
Definition coverage_score (w_avg w_sum : Q) (tile density : raster Z) (l : Z) : Q :=
  (w_avg * (inject_Z (density_sum tile density l) / inject_Z (pixel_count tile l))
   + w_sum * inject_Z (density_sum tile density l))%Q.

(** ** Blending a constant image *)

(** The accumulated image is [c] times the accumulated weight, cell by
    cell. *)
Definition blend_inv (c : Q) (acc : raster Q * raster Q) : Prop :=
  forall i j r wv,
    at2 acc.1 i j = Some r -> at2 acc.2 i j = Some wv -> (r == c * wv)%Q.

(** The pads are non-negative, fit the padded shape, and the right pad
    is positive. *)
Definition pads_fit (p : Padding) (shape : nat * nat) : Prop :=
  0 <= pad_top p /\ 0 <= pad_bottom p /\ 0 <= pad_left p /\ 0 < pad_right p
  /\ pad_top p + pad_bottom p <= Z.of_nat shape.1
  /\ pad_left p + pad_right p <= Z.of_nat shape.2.

(** ** Tiles on the padded image *)

(** A tile of side [tile_size] at [pos] lies within an array of [shape]. *)
Definition in_bounds (tile_size : Z) (shape : nat * nat) (pos : Z * Z) : Prop :=
  0 <= tile_size
  /\ 0 <= pos.1 /\ pos.1 + tile_size <= Z.of_nat shape.1
  /\ 0 <= pos.2 /\ pos.2 + tile_size <= Z.of_nat shape.2.

(** Pixel [(i, j)] of the padded image lies in the region of the tile
    at [pos]. *)
Definition covers (tile_size : Z) (pos : Z * Z) (i j : nat) : Prop :=
  pos.1 <= Z.of_nat i < pos.1 + tile_size
  /\ pos.2 <= Z.of_nat j < pos.2 + tile_size.

(** The cell of a tile at [pos] that lies on pixel [(i, j)]. *)
Definition tile_cell {A} (tile : raster A) (pos : Z * Z) (i j : nat) : option A :=
  at2 tile (i - Z.to_nat pos.1) (j - Z.to_nat pos.2).

#[global] Instance covers_dec (tile_size : Z) (pos : Z * Z) (i j : nat) :
  Decision (covers tile_size pos i j).
Proof. unfold covers. apply _. Defined.

(** The tile at its position covers pixel [(i, j)] with a positive
    label. *)
Definition claims (tile_size : Z) (t : raster Z * (Z * Z)) (i j : nat) : bool :=
  bool_decide (covers tile_size t.2 i j)
  && match tile_cell t.1 t.2 i j with
     | Some v => 0 <? v
     | None => false
     end.

(** Number of tiles of a list that claim pixel [(i, j)]. *)
Definition claim_count (tile_size : Z) (tiles : list (raster Z * (Z * Z)))
    (i j : nat) : Z :=
  len (filter (fun t => claims tile_size t i j = true) tiles).

(** A tile of the predictor's shape, placed within the padded image. *)
Definition well_placed (tile_size : Z) (shape : nat * nat)
    (t : raster Z * (Z * Z)) : Prop :=
  rect (Z.to_nat tile_size) (Z.to_nat tile_size) t.1
  /\ in_bounds tile_size shape t.2.

(** The score written on the cells of label [v]: its entry as a
    float32, or 0. *)
Definition score_of (index_coverage : gmap Z Q) (v : Z) : Q :=
  match index_coverage !! v with
  | Some score => float32 score
  | None => 0%Q
  end.

(** Both rasters of the mosaic have the padded shape. *)
Definition mosaic_rect (h w : nat) (m : Mosaic) : Prop :=
  rect h w (full_segmentation_mask m) /\ rect h w (full_score_map m).

(** A tile of the recombination loop, well placed. *)
Definition placed (tile_size : Z) (shape : nat * nat)
    (t : raster Z * (Z * Z) * gmap Z Q) : Prop :=
  well_placed tile_size shape t.1.

(** A coordinator whose pad fields were set to [p] on a padded image of
    [shape]. *)
Definition with_padding (shape : nat * nat) (p : Padding) : SegFlow :=
  {| tile_size := 512; stride := 256;
     average_weight := 7 # 10; sum_weight := 3 # 10; min_pixels := 5;
     image_padded := Some shape; padding := Some p; positions := None |}.

(** ** The winner of a pixel *)

(** Tile [t] of the recombination loop claims pixel [(i, j)] with the
    positive label [tv]. *)
Definition claims_label (tile_size : Z) (t : raster Z * (Z * Z) * gmap Z Q)
    (i j : nat) (tv : Z) : Prop :=
  covers tile_size t.1.2 i j /\ tile_cell t.1.1 t.1.2 i j = Some tv /\ 0 < tv.

(** Label [l] and score [s] of a pixel after the tiles [done]: the pixel
    is unclaimed, or holds the label of a tile that claims it and the
    entry of that label in the tile's dictionary as a float32, which is
    positive; and no tile that claims the pixel has a higher float32
    score (a label without an entry counts as 0). *)
Definition best_claim (tile_size : Z)
    (done : list (raster Z * (Z * Z) * gmap Z Q)) (i j : nat) (l : Z) (s : Q)
  : Prop :=
  ((l = 0 /\ s = 0%Q)
   \/ exists t tv score, t ∈ done /\ claims_label tile_size t i j tv
        /\ l = wrap32 tv /\ t.2 !! tv = Some score /\ s = float32 score
        /\ (0 < s)%Q)
  /\ forall t tv, t ∈ done -> claims_label tile_size t i j tv ->
       (score_of t.2 tv <= s)%Q.

(** ** The central region of a tile *)


(** ** Blending the tiles of one image *)

(** The accumulated image is the padded image [P] times the accumulated
    weight, cell by cell. *)
Definition blend_inv_image (P : raster Q) (acc : raster Q * raster Q) : Prop :=
  forall i j r wv pv,
    at2 acc.1 i j = Some r -> at2 acc.2 i j = Some wv -> at2 P i j = Some pv ->
    (r == pv * wv)%Q.

(** ** Masks and patches *)

Module MaskVocabulary.
Import SegmentationImage.

(** Label [v] has a pixel where the mask is true ([inside] is [true])
    or where it is false. *)
Definition label_in_area (image mask : raster Z) (inside : bool) (v : Z) : Prop :=
  exists i j m,
    at2 image i j = Some v /\ at2 mask i j = Some m /\ (0 <? m) = inside.

(** A binary array: it is boolean, or its values are exactly 0 and 1
    (as a mask it raises no warning). *)
Definition plain_mask (mask : raster Z) (mask_is_bool : bool) : Prop :=
  mask_is_bool = true
  \/ (0 ∈ ravel mask /\ 1 ∈ ravel mask /\ forall v, v ∈ ravel mask -> v = 0 \/ v = 1).

End MaskVocabulary.

Module PatchVocabulary.
Import SegmentationPatchTiledImage.

(** The patches after the loop of [isolate_center_labels] over the
    descriptions [descs]. *)
Definition isolated (descs : list description) (ps : list (raster Z))
  : list (raster Z) :=
  imap (fun i p => match descs !! i with
                   | Some d => isolate (region_label d) p
                   | None => p
                   end) ps.

(** The cell of a patch at its position that lies on pixel (i, j) of
    the full image, if the patch covers the pixel. *)
Definition patch_cell (patch : raster Z) (d : description) (i j : nat)
  : option Z :=
  if bool_decide ((bbox_position d).1 <= Z.of_nat i < (bbox_position d).1 + len patch
                  /\ (bbox_position d).2 <= Z.of_nat j
                     < (bbox_position d).2 + Z.of_nat (width patch))
  then at2 patch (i - Z.to_nat (bbox_position d).1) (j - Z.to_nat (bbox_position d).2)
  else None.

(** Pixel value [o] after the patches of [descs]: 0 when no patch has a
    positive label there, else the positive label of the last patch
    that has one. *)
Definition last_positive (self : t) (descs : list description) (i j : nat) (o : Z)
  : Prop :=
  (o = 0
   /\ forall k patch d v,
        patches self !! k = Some patch -> descs !! k = Some d ->
        patch_cell patch d i j = Some v -> v <= 0)
  \/ exists k patch d,
       patches self !! k = Some patch /\ descs !! k = Some d
       /\ patch_cell patch d i j = Some o /\ 0 < o
       /\ forall k' patch' d' v,
            (k < k')%nat ->
            patches self !! k' = Some patch' -> descs !! k' = Some d' ->
            patch_cell patch' d' i j = Some v -> v <= 0.

(** The patch at the position of [d] fits the full image. *)
Definition patch_fits (self : t) (ph pw : nat) (d : description) : Prop :=
  0 <= (bbox_position d).1
  /\ (bbox_position d).1 + Z.of_nat ph <= Z.of_nat (original_shape self).1
  /\ 0 <= (bbox_position d).2
  /\ (bbox_position d).2 + Z.of_nat pw <= Z.of_nat (original_shape self).2.

End PatchVocabulary.

(** ** Example inputs *)

(** A 3 x 3 label tile filled by one instance. *)
Definition full_tile (label : Z) : raster Z := replicate 3 (replicate 3 label).

(** The coordinator after [SegFlow(tile_size=3, stride=1)], [pad_image]
    on a 1 x 1 image and [extract_tiles]: a 4 x 4 padded image and four
    tiles, all of which cover padded pixel (1, 1), the image's pixel. *)
Definition tie_self : result SegFlow :=
  extract_tiles (pad_image (__init__ 3 1 (7 # 10) (3 # 10) 5) 1 1).

(** Two tiles of the recombination loop with one instance each and the
    same score, one column apart. *)
Definition tile_a : raster Z * (Z * Z) * gmap Z Q :=
  ([[1; 1]; [1; 1]], (0, 0), {[ 1 := 2%Q ]}).
Definition tile_b : raster Z * (Z * Z) * gmap Z Q :=
  ([[2; 2]; [2; 2]], (0, 1), {[ 2 := 2%Q ]}).

(** Four label tiles of type [np.uint16] for [SegFlow(tile_size=2,
    stride=2)] on a 1 x 1 image, whose padded image of 4 x 4 pixels has
    the four positions (0, 0), (0, 2), (2, 0) and (2, 2): the first
    tile holds the instances 1 and 65000, the second the instance 537,
    the others none. *)
Definition wrap_self : result SegFlow :=
  extract_tiles (pad_image (__init__ 2 2 (7 # 10) (3 # 10) 5) 1 1).
Definition wrap_tiles : list (raster Z) :=
  [[[1; 65000]; [0; 0]]; [[537; 0]; [0; 0]]; [[0; 0]; [0; 0]]; [[0; 0]; [0; 0]]].

(** The coordinator after [SegFlow(tile_size=3, stride=2)], [pad_image]
    on a 3 x 3 image and [extract_tiles]: a 7 x 7 padded image and nine
    tiles, neighbours overlapping by one row or column. *)
Definition blend_self : SegFlow :=
  {| tile_size := 3; stride := 2;
     average_weight := 7 # 10; sum_weight := 3 # 10; min_pixels := 5;
     image_padded := Some (7%nat, 7%nat);
     padding := Some (mkPadding 2 2 2 2);
     positions := Some [(0, 0); (0, 2); (0, 4); (2, 0); (2, 2); (2, 4);
                        (4, 0); (4, 2); (4, 4)] |}.

(** A padded image of 7 x 7 pixels; pixel (i, j) holds 7 i + j. *)
Definition ramp : raster Q :=
  fmap (fun i : nat => fmap (fun j : nat => inject_Z (Z.of_nat (7 * i + j))) (seq 0 7))
       (seq 0 7).

(** * Properties *)

(** ** Slices *)

Section Slices.
Context {A : Type}.
Implicit Types (l new : list A) (m : raster A).

Lemma slice_index_in (n i : Z) : 0 <= i <= n -> slice_index n i = i.
Proof. unfold slice_index. intros H. destruct (Z.ltb_spec i 0); lia. Qed.

Lemma py_slice_in l (a b : Z) :
  0 <= a <= b -> b <= len l ->
  py_slice a b l = take (Z.to_nat (b - a)) (drop (Z.to_nat a) l).
Proof.
  intros Hab Hb. unfold py_slice.
  rewrite !slice_index_in by lia. reflexivity.
Qed.

Lemma length_py_slice l (a b : Z) :
  0 <= a <= b -> b <= len l -> length (py_slice a b l) = Z.to_nat (b - a).
Proof.
  intros Hab Hb. rewrite py_slice_in by assumption.
  rewrite length_take, length_drop. unfold len in Hb. lia.
Qed.

Lemma lookup_py_slice l (a b : Z) (k : nat) :
  0 <= a <= b -> b <= len l -> (k < Z.to_nat (b - a))%nat ->
  py_slice a b l !! k = l !! (Z.to_nat a + k)%nat.
Proof.
  intros Hab Hb Hk. rewrite py_slice_in by assumption.
  rewrite lookup_take. destruct (decide (k < Z.to_nat (b - a))%nat); [|lia].
  apply lookup_drop.
Qed.

Lemma length_set_slice l new (a b : Z) :
  0 <= a <= b -> b <= len l -> length new = Z.to_nat (b - a) ->
  length (set_slice a b l new) = length l.
Proof.
  intros Hab Hb Hn. unfold set_slice. rewrite !slice_index_in by lia.
  rewrite !length_app, length_take, length_drop. unfold len in Hb. lia.
Qed.

Lemma lookup_set_slice_in l new (a b : Z) (i : nat) :
  0 <= a <= b -> b <= len l -> length new = Z.to_nat (b - a) ->
  a <= Z.of_nat i < b ->
  set_slice a b l new !! i = new !! (i - Z.to_nat a)%nat.
Proof.
  intros Hab Hb Hn Hi. unfold set_slice. rewrite !slice_index_in by lia.
  unfold len in Hb.
  rewrite lookup_app_r by (rewrite length_take; lia).
  rewrite length_take.
  replace (Z.to_nat a `min` length l)%nat with (Z.to_nat a) by lia.
  apply lookup_app_l. lia.
Qed.

Lemma lookup_set_slice_out l new (a b : Z) (i : nat) :
  0 <= a <= b -> b <= len l -> length new = Z.to_nat (b - a) ->
  ~ (a <= Z.of_nat i < b) ->
  set_slice a b l new !! i = l !! i.
Proof.
  intros Hab Hb Hn Hi. unfold set_slice. rewrite !slice_index_in by lia.
  unfold len in Hb.
  destruct (decide (Z.of_nat i < a)) as [Hlt|Hge].
  - rewrite lookup_app_l by (rewrite length_take; lia).
    rewrite lookup_take. destruct (decide (i < Z.to_nat a)%nat); [reflexivity|lia].
  - rewrite lookup_app_r by (rewrite length_take; lia).
    rewrite length_take.
    replace (Z.to_nat a `min` length l)%nat with (Z.to_nat a) by lia.
    rewrite lookup_app_r by lia.
    rewrite lookup_drop. f_equal. lia.
Qed.

End Slices.

(** ** Two-dimensional arrays *)

Section Rasters.
Context {A : Type}.
Implicit Types (m new : raster A).

Lemma rect_row (h w : nat) m (i : nat) (row : list A) :
  rect h w m -> m !! i = Some row -> length row = w.
Proof. intros [_ Hrows] Hi. exact (proj1 (Forall_lookup _ _) Hrows i row Hi). Qed.

Lemma rect_lookup_lt (h w : nat) m (i : nat) :
  rect h w m -> (i < h)%nat -> exists row, m !! i = Some row /\ length row = w.
Proof.
  intros Hr Hi. destruct (lookup_lt_is_Some_2 m i) as [row Hrow].
  { destruct Hr as [-> _]. exact Hi. }
  exists row. split; [exact Hrow|]. eapply rect_row; eauto.
Qed.

Lemma at2_is_Some (h w : nat) m (i j : nat) :
  rect h w m -> (i < h)%nat -> (j < w)%nat -> is_Some (at2 m i j).
Proof.
  intros Hr Hi Hj. destruct (rect_lookup_lt h w m i Hr Hi) as (row & Hrow & Hlen).
  unfold at2. rewrite Hrow. cbn. apply lookup_lt_is_Some. lia.
Qed.

Lemma at2_Some_lt (h w : nat) m (i j : nat) (x : A) :
  rect h w m -> at2 m i j = Some x -> (i < h)%nat /\ (j < w)%nat.
Proof.
  intros Hr. unfold at2. destruct (m !! i) as [row|] eqn:Hrow; cbn; [|discriminate].
  intros Hj. split.
  - destruct Hr as [<- _]. apply lookup_lt_is_Some. eauto.
  - rewrite <- (rect_row h w m i row Hr Hrow). apply lookup_lt_is_Some. eauto.
Qed.

Lemma is_rect_spec (h w : nat) m : is_rect h w m = true <-> rect h w m.
Proof.
  unfold is_rect, rect. rewrite andb_true_iff, Nat.eqb_eq, forallb_forall.
  rewrite Forall_forall. split; intros [H1 H2]; (split; [exact H1|]).
  - intros row Hrow. apply Nat.eqb_eq, H2. apply list_elem_of_In, Hrow.
  - intros row Hrow. apply Nat.eqb_eq, H2. apply list_elem_of_In, Hrow.
Qed.

Lemma rect_width (h w : nat) m : rect h w m -> (0 < h)%nat -> width m = w.
Proof.
  intros Hr Hh. destruct m as [|row rest].
  - destruct Hr as [Hl _]. cbn in Hl. lia.
  - cbn. eapply (rect_row h w _ 0%nat); eauto.
Qed.

Lemma rect_slice2 (h w : nat) m (y0 y1 x0 x1 : Z) :
  rect h w m ->
  0 <= y0 <= y1 -> y1 <= Z.of_nat h -> 0 <= x0 <= x1 -> x1 <= Z.of_nat w ->
  rect (Z.to_nat (y1 - y0)) (Z.to_nat (x1 - x0)) (slice2 y0 y1 x0 x1 m).
Proof.
  intros Hr Hy Hy1 Hx Hx1. pose proof Hr as [Hlen Hrows]. unfold slice2. split.
  - rewrite length_fmap. apply length_py_slice; unfold len; lia.
  - apply Forall_fmap, Forall_lookup. intros k row Hk. cbn.
    assert (Hlt : (k < Z.to_nat (y1 - y0))%nat).
    { rewrite <- (length_py_slice m y0 y1) by (unfold len; lia).
      apply lookup_lt_is_Some. eauto. }
    rewrite lookup_py_slice in Hk by (unfold len; lia).
    apply length_py_slice; [lia|]. unfold len.
    rewrite (rect_row h w m _ row Hr Hk). lia.
Qed.

Lemma at2_slice2 (h w : nat) m (y0 y1 x0 x1 : Z) (i j : nat) :
  rect h w m ->
  0 <= y0 <= y1 -> y1 <= Z.of_nat h -> 0 <= x0 <= x1 -> x1 <= Z.of_nat w ->
  (i < Z.to_nat (y1 - y0))%nat -> (j < Z.to_nat (x1 - x0))%nat ->
  at2 (slice2 y0 y1 x0 x1 m) i j = at2 m (Z.to_nat y0 + i) (Z.to_nat x0 + j).
Proof.
  intros Hr Hy Hy1 Hx Hx1 Hi Hj. pose proof Hr as [Hlen Hrows].
  unfold at2, slice2. rewrite list_lookup_fmap.
  rewrite lookup_py_slice by (unfold len; lia).
  destruct (rect_lookup_lt h w m (Z.to_nat y0 + i) Hr) as (row & Hrow & Hrl); [lia|].
  rewrite Hrow. cbn. apply lookup_py_slice; unfold len; lia.
Qed.

Lemma rect_set_slice2 (h w : nat) m new (y0 y1 x0 x1 : Z) :
  rect h w m ->
  0 <= y0 <= y1 -> y1 <= Z.of_nat h -> 0 <= x0 <= x1 -> x1 <= Z.of_nat w ->
  rect (Z.to_nat (y1 - y0)) (Z.to_nat (x1 - x0)) new ->
  rect h w (set_slice2 y0 y1 x0 x1 m new).
Proof.
  intros Hr Hy Hy1 Hx Hx1 Hn. pose proof Hr as [Hlen Hrows].
  pose proof Hn as [Hnl Hnrows].
  assert (Hzl : length (zip_with (fun row r => set_slice x0 x1 row r)
                          (py_slice y0 y1 m) new) = Z.to_nat (y1 - y0)).
  { rewrite length_zip_with, length_py_slice by (unfold len; lia). lia. }
  unfold set_slice2. split.
  - rewrite length_set_slice; unfold len; try lia.
  - apply Forall_lookup. intros i row Hi.
    destruct (decide (y0 <= Z.of_nat i < y1)) as [Hin|Hout].
    + rewrite lookup_set_slice_in in Hi by (unfold len; lia).
      rewrite lookup_zip_with in Hi.
      destruct (py_slice y0 y1 m !! (i - Z.to_nat y0)%nat) as [r0|] eqn:Hr0;
        cbn in Hi; [|discriminate].
      destruct (new !! (i - Z.to_nat y0)%nat) as [r1|] eqn:Hr1;
        cbn in Hi; [|discriminate].
      injection Hi as <-.
      rewrite lookup_py_slice in Hr0 by (unfold len; lia).
      pose proof (rect_row h w m _ r0 Hr Hr0) as Hl0.
      pose proof (rect_row _ _ new _ r1 Hn Hr1) as Hl1.
      rewrite length_set_slice; unfold len; lia.
    + rewrite lookup_set_slice_out in Hi by (unfold len; lia).
      eapply rect_row; eauto.
Qed.

Lemma at2_set_slice2_in (h w : nat) m new (y0 y1 x0 x1 : Z) (i j : nat) :
  rect h w m ->
  0 <= y0 <= y1 -> y1 <= Z.of_nat h -> 0 <= x0 <= x1 -> x1 <= Z.of_nat w ->
  rect (Z.to_nat (y1 - y0)) (Z.to_nat (x1 - x0)) new ->
  y0 <= Z.of_nat i < y1 -> x0 <= Z.of_nat j < x1 ->
  at2 (set_slice2 y0 y1 x0 x1 m new) i j
  = at2 new (i - Z.to_nat y0) (j - Z.to_nat x0).
Proof.
  intros Hr Hy Hy1 Hx Hx1 Hn Hi Hj. pose proof Hr as [Hlen Hrows].
  pose proof Hn as [Hnl Hnrows].
  assert (Hzl : length (zip_with (fun row r => set_slice x0 x1 row r)
                          (py_slice y0 y1 m) new) = Z.to_nat (y1 - y0)).
  { rewrite length_zip_with, length_py_slice by (unfold len; lia). lia. }
  unfold at2 at 1, set_slice2.
  rewrite lookup_set_slice_in by (unfold len; lia).
  rewrite lookup_zip_with.
  rewrite lookup_py_slice by (unfold len; lia).
  destruct (rect_lookup_lt h w m (Z.to_nat y0 + (i - Z.to_nat y0)) Hr)
    as (r0 & Hr0 & Hl0); [lia|].
  destruct (rect_lookup_lt _ _ new (i - Z.to_nat y0) Hn) as (r1 & Hr1 & Hl1); [lia|].
  rewrite Hr0. cbn. unfold at2. rewrite Hr1. cbn.
  apply lookup_set_slice_in; unfold len; lia.
Qed.

Lemma at2_set_slice2_out (h w : nat) m new (y0 y1 x0 x1 : Z) (i j : nat) :
  rect h w m ->
  0 <= y0 <= y1 -> y1 <= Z.of_nat h -> 0 <= x0 <= x1 -> x1 <= Z.of_nat w ->
  rect (Z.to_nat (y1 - y0)) (Z.to_nat (x1 - x0)) new ->
  ~ (y0 <= Z.of_nat i < y1 /\ x0 <= Z.of_nat j < x1) ->
  at2 (set_slice2 y0 y1 x0 x1 m new) i j = at2 m i j.
Proof.
  intros Hr Hy Hy1 Hx Hx1 Hn Hout. pose proof Hr as [Hlen Hrows].
  pose proof Hn as [Hnl Hnrows].
  assert (Hzl : length (zip_with (fun row r => set_slice x0 x1 row r)
                          (py_slice y0 y1 m) new) = Z.to_nat (y1 - y0)).
  { rewrite length_zip_with, length_py_slice by (unfold len; lia). lia. }
  unfold at2, set_slice2.
  destruct (decide (y0 <= Z.of_nat i < y1)) as [Hi|Hi].
  - rewrite lookup_set_slice_in by (unfold len; lia).
    rewrite lookup_zip_with.
    rewrite lookup_py_slice by (unfold len; lia).
    destruct (rect_lookup_lt h w m (Z.to_nat y0 + (i - Z.to_nat y0)) Hr)
      as (r0 & Hr0 & Hl0); [lia|].
    destruct (rect_lookup_lt _ _ new (i - Z.to_nat y0) Hn) as (r1 & Hr1 & Hl1); [lia|].
    rewrite Hr0. cbn. rewrite Hr1. cbn.
    replace (Z.to_nat y0 + (i - Z.to_nat y0))%nat with i in Hr0 by lia.
    rewrite Hr0. cbn.
    apply lookup_set_slice_out; unfold len; lia.
  - rewrite lookup_set_slice_out by (unfold len; lia). reflexivity.
Qed.

End Rasters.

Section Pointwise.
Context {A B C : Type}.

Lemma at2_map2d (f : A -> B) (m : raster A) (i j : nat) :
  at2 (map2d f m) i j = f <$> at2 m i j.
Proof.
  unfold at2, map2d. rewrite list_lookup_fmap.
  destruct (m !! i) as [row|]; cbn; [|reflexivity].
  apply list_lookup_fmap.
Qed.

Lemma at2_zip2d (f : A -> B -> C) (a : raster A) (b : raster B) (i j : nat) :
  at2 (zip2d f a b) i j = x ← at2 a i j; y ← at2 b i j; Some (f x y).
Proof.
  unfold at2, zip2d. rewrite lookup_zip_with.
  destruct (a !! i) as [ra|]; cbn; [|reflexivity].
  destruct (b !! i) as [rb|]; cbn.
  - apply lookup_zip_with.
  - destruct (ra !! j); reflexivity.
Qed.

Lemma rect_map2d (h w : nat) (f : A -> B) (m : raster A) :
  rect h w m -> rect h w (map2d f m).
Proof.
  intros [Hl Hrows]. unfold map2d. split.
  - rewrite length_fmap. exact Hl.
  - apply Forall_fmap. eapply Forall_impl; [exact Hrows|].
    intros row Hrow. cbn. rewrite length_fmap. exact Hrow.
Qed.

Lemma rect_zip2d (h w : nat) (f : A -> B -> C) (a : raster A) (b : raster B) :
  rect h w a -> rect h w b -> rect h w (zip2d f a b).
Proof.
  intros Ha Hb. pose proof Ha as [Hla _]. pose proof Hb as [Hlb _].
  unfold zip2d. split.
  - rewrite length_zip_with. lia.
  - apply Forall_lookup. intros i row Hi. rewrite lookup_zip_with in Hi.
    destruct (a !! i) as [ra|] eqn:Hra; cbn in Hi; [|discriminate].
    destruct (b !! i) as [rb|] eqn:Hrb; cbn in Hi; [|discriminate].
    injection Hi as <-. rewrite length_zip_with.
    rewrite (rect_row h w a i ra Ha Hra), (rect_row h w b i rb Hb Hrb). lia.
Qed.

End Pointwise.

Lemma at2_np_where {A} (mask : raster bool) (a b : raster A) (i j : nat) :
  at2 (np_where mask a b) i j
  = c ← at2 mask i j; x ← at2 a i j; y ← at2 b i j; Some (if c : bool then x else y).
Proof.
  unfold np_where. rewrite at2_zip2d, at2_zip2d.
  destruct (at2 mask i j) as [c|]; cbn; [|reflexivity].
  destruct (at2 a i j) as [x|]; cbn; [|reflexivity].
  destruct (at2 b i j) as [y|]; cbn; reflexivity.
Qed.

Lemma rect_np_where {A} (h w : nat) (mask : raster bool) (a b : raster A) :
  rect h w mask -> rect h w a -> rect h w b -> rect h w (np_where mask a b).
Proof.
  intros Hm Ha Hb. unfold np_where. apply rect_zip2d; [exact Hm|].
  apply rect_zip2d; assumption.
Qed.

Lemma rect_np_zeros {A} (z : A) (h w : nat) : rect h w (np_zeros z h w).
Proof.
  unfold np_zeros. split.
  - apply length_replicate.
  - apply Forall_replicate. apply length_replicate.
Qed.

Lemma at2_np_zeros {A} (z : A) (h w i j : nat) :
  (i < h)%nat -> (j < w)%nat -> at2 (np_zeros z h w) i j = Some z.
Proof.
  intros Hi Hj. unfold at2, np_zeros.
  rewrite lookup_replicate_2 by exact Hi. cbn.
  apply lookup_replicate_2, Hj.
Qed.

Lemma same_shape_rect {A B} (h w : nat) (a : raster A) (b : raster B) :
  rect h w a -> rect h w b -> same_shape a b = true.
Proof.
  intros Ha Hb. unfold same_shape.
  destruct (decide (h = 0)%nat) as [->|Hh].
  - destruct Ha as [Hla _], Hb as [Hlb _].
    destruct a; [|discriminate]. destruct b; [|discriminate]. reflexivity.
  - rewrite (rect_width h w a Ha) by lia.
    destruct Ha as [Hla Hra]. rewrite Hla.
    apply andb_true_iff. split; apply is_rect_spec; [split|]; assumption.
Qed.

(** ** Elementwise operations on one array *)

Section Elementwise.
Context {A B C D : Type}.

Lemma zip2d_map2d (f : B -> C -> D) (g : A -> B) (k : A -> C) (m : raster A) :
  zip2d f (map2d g m) (map2d k m) = map2d (fun v => f (g v) (k v)) m.
Proof.
  unfold zip2d, map2d. induction m as [|row m IH]; cbn; [reflexivity|].
  f_equal; [|exact IH].
  induction row as [|v row IHr]; cbn; [reflexivity|]. f_equal. exact IHr.
Qed.

Lemma map2d_ext_in (f g : A -> B) (m : raster A) :
  (forall v, v ∈ ravel m -> f v = g v) -> map2d f m = map2d g m.
Proof.
  unfold map2d, ravel. induction m as [|row m IH]; intros H; cbn; [reflexivity|].
  f_equal.
  - apply list_fmap_ext. intros i v Hv. apply H. cbn.
    apply elem_of_app. left. eapply list_elem_of_lookup_2, Hv.
  - apply IH. intros v Hv. apply H. cbn. apply elem_of_app. right. exact Hv.
Qed.

Lemma elem_of_ravel_map2d (f : A -> B) (m : raster A) (y : B) :
  y ∈ ravel (map2d f m) <-> exists v, y = f v /\ v ∈ ravel m.
Proof.
  unfold map2d, ravel. induction m as [|row m IH]; cbn.
  - split; [intros H; apply elem_of_nil in H; contradiction|].
    intros (v & _ & H). apply elem_of_nil in H. contradiction.
  - rewrite elem_of_app, IH, list_elem_of_fmap. split.
    + intros [(v & -> & Hv)|(v & -> & Hv)]; exists v; (split; [reflexivity|]);
        apply elem_of_app; [left | right]; exact Hv.
    + intros (v & -> & Hv). apply elem_of_app in Hv.
      destruct Hv as [Hv|Hv]; [left | right]; exists v; split; auto.
Qed.

End Elementwise.

Lemma map2d_id {A} (m : raster A) : map2d (fun v => v) m = m.
Proof.
  unfold map2d. induction m as [|row m IH]; cbn; [reflexivity|].
  f_equal; [|exact IH]. apply list_fmap_id.
Qed.

Lemma np_where_map2d {A B} (p : A -> bool) (a b : A -> B) (m : raster A) :
  np_where (map2d p m) (map2d a m) (map2d b m)
  = map2d (fun v => if p v then a v else b v) m.
Proof.
  unfold np_where. rewrite zip2d_map2d, zip2d_map2d. reflexivity.
Qed.

Lemma np_where_map2d_self {A} (p : A -> bool) (b : A -> A) (m : raster A) :
  np_where (map2d p m) m (map2d b m)
  = map2d (fun v => if p v then v else b v) m.
Proof.
  pose proof (np_where_map2d p (fun v => v) b m) as H.
  rewrite map2d_id in H. exact H.
Qed.

(** ** [a.max()] *)

Lemma np_max_ge (l : list Z) (x : Z) : x ∈ l -> x <= np_max l.
Proof.
  destruct l as [|y r]; [intros H; apply elem_of_nil in H; contradiction|].
  cbn. revert y. induction r as [|z r IH]; intros y Hx; cbn.
  - apply list_elem_of_singleton in Hx. lia.
  - apply elem_of_cons in Hx. destruct Hx as [->|Hx].
    + specialize (IH y (ltac:(left))). lia.
    + apply elem_of_cons in Hx. destruct Hx as [->|Hx]; [lia|].
      specialize (IH y (ltac:(right; exact Hx))). lia.
Qed.

(** ** Flattened arrays *)

Lemma ravel_map2d {A B} (f : A -> B) (m : raster A) :
  ravel (map2d f m) = f <$> ravel m.
Proof.
  unfold ravel, map2d. induction m as [|row m IH]; cbn; [reflexivity|].
  rewrite fmap_app. f_equal. exact IH.
Qed.

Lemma length_ravel {A} (h w : nat) (m : raster A) :
  rect h w m -> length (ravel m) = (h * w)%nat.
Proof.
  intros [Hl Hrows]. subst h. unfold ravel.
  induction Hrows as [|row m Hrow Hrows IH]; [reflexivity|].
  change (mjoin (row :: m)) with (row ++ mjoin m).
  rewrite length_app, IH, Hrow. reflexivity.
Qed.

Lemma ravel_zip2d {A B C} (f : A -> B -> C) (h w : nat)
    (a : raster A) (b : raster B) :
  rect h w a -> rect h w b ->
  ravel (zip2d f a b) = zip_with f (ravel a) (ravel b).
Proof.
  intros [Hla Ha] [Hlb Hb]. subst h. unfold ravel, zip2d.
  revert b Hlb Hb. induction Ha as [|ra a Hra Ha IH]; intros b Hlb Hb.
  - destruct b; [reflexivity | discriminate].
  - destruct b as [|rb b]; [discriminate|]. cbn.
    inversion Hb as [|? ? Hrb Hb']; subst.
    rewrite zip_with_app by congruence. f_equal.
    apply IH; [cbn in Hlb; lia | exact Hb'].
Qed.

(** ** Masked selection *)

Lemma select_cons {A} (b : bool) (mask : list bool) (y : A) (ys : list A) :
  select (b :: mask) (y :: ys)
  = if b then y :: select mask ys else select mask ys.
Proof.
  unfold select. change (zip (b :: mask) (y :: ys)) with ((b, y) :: zip mask ys).
  rewrite filter_cons. destruct b; cbn [fst].
  - rewrite decide_True by reflexivity. reflexivity.
  - rewrite decide_False by discriminate. reflexivity.
Qed.

Lemma np_sum_cons (x : Z) (xs : list Z) : np_sum (x :: xs) = x + np_sum xs.
Proof. reflexivity. Qed.

Section Select.
Variable l : Z.

Lemma np_sum_select (xs ys : list Z) :
  np_sum (select ((fun v => v =? l) <$> xs) ys)
  = np_sum (zip_with (fun v d : Z => if v =? l then d else 0) xs ys).
Proof.
  revert ys. induction xs as [|x xs IH]; intros ys; [reflexivity|].
  destruct ys as [|y ys]; [reflexivity|].
  change ((fun v => v =? l) <$> x :: xs) with ((x =? l) :: ((fun v => v =? l) <$> xs)).
  change (zip_with (fun v d : Z => if v =? l then d else 0) (x :: xs) (y :: ys))
    with ((if x =? l then y else 0)
          :: zip_with (fun v d : Z => if v =? l then d else 0) xs ys).
  rewrite select_cons, np_sum_cons, <- IH.
  destruct (x =? l); [apply np_sum_cons | lia].
Qed.

Lemma length_select (xs ys : list Z) :
  length xs = length ys ->
  length (select ((fun v => v =? l) <$> xs) ys)
  = length (filter (fun v : Z => v = l) xs).
Proof.
  revert ys. induction xs as [|x xs IH]; intros ys Hlen; [reflexivity|].
  destruct ys as [|y ys]; [discriminate|].
  change ((fun v => v =? l) <$> x :: xs) with ((x =? l) :: ((fun v => v =? l) <$> xs)).
  rewrite select_cons, filter_cons.
  specialize (IH ys ltac:(cbn in Hlen; lia)).
  destruct (Z.eqb_spec x l) as [Heq|Hne].
  - rewrite decide_True by exact Heq. cbn [length]. f_equal. exact IH.
  - rewrite decide_False by exact Hne. exact IH.
Qed.

Lemma length_filter_mask (xs : list Z) :
  length (filter (fun b : bool => b = true) ((fun v => v =? l) <$> xs))
  = length (filter (fun v : Z => v = l) xs).
Proof.
  induction xs as [|x xs IH]; [reflexivity|].
  change ((fun v => v =? l) <$> x :: xs) with ((x =? l) :: ((fun v => v =? l) <$> xs)).
  rewrite !filter_cons.
  destruct (Z.eqb_spec x l) as [Heq|Hne].
  - rewrite decide_True by reflexivity. rewrite decide_True by exact Heq.
    cbn [length]. f_equal. exact IH.
  - rewrite decide_False by discriminate. rewrite decide_False by exact Hne.
    exact IH.
Qed.

End Select.

(** ** [np.unique] *)

Lemma elem_of_np_unique (l : list Z) (x : Z) : x ∈ np_unique l <-> x ∈ l.
Proof.
  unfold np_unique. rewrite merge_sort_Permutation. apply elem_of_remove_dups.
Qed.

(** ** Tile regions *)

Section Regions.
Context {A : Type}.
Variables (ts : Z) (h w : nat) (y x : Z).
Implicit Types (m new : raster A).

Lemma rect_region m :
  rect h w m -> in_bounds ts (h, w) (y, x) ->
  rect (Z.to_nat ts) (Z.to_nat ts) (slice2 y (y + ts) x (x + ts) m).
Proof.
  intros Hr (Hts & Hy & Hy1 & Hx & Hx1). cbn in *.
  pose proof (rect_slice2 h w m y (y + ts) x (x + ts) Hr) as H.
  replace (y + ts - y) with ts in H by lia.
  replace (x + ts - x) with ts in H by lia.
  apply H; lia.
Qed.

Lemma at2_region m (i j : nat) :
  rect h w m -> in_bounds ts (h, w) (y, x) -> covers ts (y, x) i j ->
  at2 (slice2 y (y + ts) x (x + ts) m) (i - Z.to_nat y) (j - Z.to_nat x)
  = at2 m i j.
Proof.
  intros Hr (Hts & Hy & Hy1 & Hx & Hx1) [Hi Hj]. cbn in *.
  rewrite (at2_slice2 h w) by (try assumption; lia).
  f_equal; lia.
Qed.

Lemma rect_set_region m new :
  rect h w m -> in_bounds ts (h, w) (y, x) ->
  rect (Z.to_nat ts) (Z.to_nat ts) new ->
  rect h w (set_slice2 y (y + ts) x (x + ts) m new).
Proof.
  intros Hr (Hts & Hy & Hy1 & Hx & Hx1) Hn. cbn in *.
  apply rect_set_slice2; try assumption; try lia.
  replace (y + ts - y) with ts by lia.
  replace (x + ts - x) with ts by lia. exact Hn.
Qed.

Lemma at2_set_region m new (i j : nat) :
  rect h w m -> in_bounds ts (h, w) (y, x) ->
  rect (Z.to_nat ts) (Z.to_nat ts) new ->
  at2 (set_slice2 y (y + ts) x (x + ts) m new) i j
  = if bool_decide (covers ts (y, x) i j)
    then at2 new (i - Z.to_nat y) (j - Z.to_nat x)
    else at2 m i j.
Proof.
  intros Hr (Hts & Hy & Hy1 & Hx & Hx1) Hn. cbn in *.
  assert (Hn' : rect (Z.to_nat (y + ts - y)) (Z.to_nat (x + ts - x)) new).
  { replace (y + ts - y) with ts by lia.
    replace (x + ts - x) with ts by lia. exact Hn. }
  destruct (bool_decide_reflect (covers ts (y, x) i j)) as [[Hi Hj]|Hout].
  - cbn in *. apply (at2_set_slice2_in h w); try assumption; lia.
  - apply (at2_set_slice2_out h w); try assumption; try lia.
Qed.

Lemma covers_cell_lt (i j : nat) :
  0 <= y -> 0 <= x -> covers ts (y, x) i j ->
  (i - Z.to_nat y < Z.to_nat ts)%nat /\ (j - Z.to_nat x < Z.to_nat ts)%nat.
Proof. intros Hy Hx [Hi Hj]. cbn in *. lia. Qed.

End Regions.

(** ** The loops *)

Lemma foldM_app {A B} (f : B -> A -> result B) (b : B) (l1 l2 : list A) :
  foldM f b (l1 ++ l2) = rbind (foldM f b l1) (fun b' => foldM f b' l2).
Proof.
  revert b. induction l1 as [|x l1 IH]; intros b; cbn; [reflexivity|].
  destruct (f b x); cbn; [apply IH | reflexivity].
Qed.

Lemma mapM_Ok {A B} (f : A -> result B) (l : list A) :
  Forall (fun x => exists y, f x = Ok y) l ->
  exists ys,
    mapM f l = Ok ys
    /\ length ys = length l
    /\ forall k x, l !! k = Some x -> exists y, ys !! k = Some y /\ f x = Ok y.
Proof.
  induction 1 as [|x l [y Hy] _ (ys & Hys & Hlen & Hlook)].
  - exists []. split; [reflexivity|]. split; [reflexivity|]. intros k x Hk. discriminate.
  - exists (y :: ys). cbn [mapM]. rewrite Hy, Hys. cbn.
    split; [reflexivity|]. split; [congruence|].
    intros [|k] x' Hk; cbn in Hk.
    + injection Hk as <-. exists y. split; [reflexivity | exact Hy].
    + apply Hlook, Hk.
Qed.

(** Closed side conditions on concrete tiles. *)
Ltac solve_rect :=
  split; [reflexivity | repeat (constructor; [reflexivity|]); constructor].
Ltac solve_in_bounds := unfold in_bounds; cbn; lia.
Ltac solve_placed :=
  repeat (constructor;
          [first [ split; [solve_rect | solve_in_bounds] ]|]);
  constructor.

(** ** The constructor and the scorer's parameters *)

(** Whatever the caller passes, the object holds the literals. *)
Lemma init_scoring_fields (ts st : Z) (w s : Q) (m : Z) :
  average_weight (__init__ ts st w s m) = (7 # 10)%Q
  /\ sum_weight (__init__ ts st w s m) = (3 # 10)%Q
  /\ min_pixels (__init__ ts st w s m) = 5.
Proof. unfold __init__; cbn. repeat split. Qed.

(** C1, at [SegFlow(tile_size=2, stride=2, average_weight=1, sum_weight=0,
    min_pixels=1)]: the object's threshold is 5, not the 1 passed, and
    the scorer, run on a tile whose instance 1 has two pixels, gives
    that instance no entry, although 2 is at least the threshold
    passed. *)
Theorem init_min_pixels_not_used :
  min_pixels (__init__ 2 2 1 0 1) = 5
  /\ _calculate_tile_overlaps (__init__ 2 2 1 0 1)
       [[1; 1]; [0; 0]] [[[1; 1]; [0; 0]]] = Ok [∅]
  /\ tile_coverage 1 0 1 ([[1; 1]; [0; 0]], [[1; 1]; [0; 0]])
     = Ok {[ 1 := (1 * (2 / 2) + 0 * 2)%Q ]}.
Proof.
  split; [reflexivity|]. split; vm_compute; reflexivity.
Qed.

(** ** Tiling: padding and the stride grid *)

(** The two pads of an axis add up to the total of the formula. *)
Lemma pad_image_totals (self : SegFlow) (height width : Z) :
  exists p, padding (pad_image self height width) = Some p
    /\ pad_top p + pad_bottom p = pad_total (tile_size self) (stride self) height
    /\ pad_left p + pad_right p = pad_total (tile_size self) (stride self) width.
Proof.
  eexists; split; [reflexivity|]; cbn; split; lia.
Qed.

(** The total pad is at least the tile size. *)
Lemma pad_total_ge (ts st S : Z) : 0 < st -> ts <= pad_total ts st S.
Proof.
  intros Hst. unfold pad_total.
  pose proof (Z.mod_pos_bound (ts - (S - ts) mod st) st Hst). lia.
Qed.

(** What is left of the padded axis after the tile, modulo the stride:
    twice the tile size, not 0. *)
Lemma pad_total_residue (ts st S : Z) :
  0 < st -> (pad_total ts st S + S - ts) mod st = (2 * ts) mod st.
Proof.
  intros Hst. unfold pad_total.
  replace (ts + (ts - (S - ts) mod st) mod st + S - ts)
    with (S + (ts - (S - ts) mod st) mod st) by lia.
  rewrite Zplus_mod_idemp_r.
  replace (S + (ts - (S - ts) mod st)) with ((S + ts) - (S - ts) mod st) by lia.
  rewrite Zminus_mod_idemp_r. f_equal. lia.
Qed.

(** C7, at an axis of 17 pixels with [tile_size = 13] and [stride = 9]:
    the pads are 6 and 7, the padded axis of 30 pixels leaves a rest of
    8 modulo the stride, the grid starts at 0 and 9 only, and the last
    image row (padded row 22) lies in no tile. *)
Theorem pad_image_grid_not_flush :
  padding (pad_image (__init__ 13 9 (7 # 10) (3 # 10) 5) 17 17)
    = Some (mkPadding 6 7 6 7)
  /\ image_padded (pad_image (__init__ 13 9 (7 # 10) (3 # 10) 5) 17 17)
    = Some (30%nat, 30%nat)
  /\ (6 + 7 + 17 - 13) mod 9 = 8
  /\ grid_starts 30 13 9 = [0; 9]
  /\ Forall (fun y => ~ (y <= 6 + 16 < y + 13)) (grid_starts 30 13 9).
Proof.
  repeat split; try reflexivity.
  repeat constructor; lia.
Qed.

Lemma elem_of_py_range (stop step y : Z) :
  0 < step -> y ∈ py_range 0 stop step -> 0 <= y < stop.
Proof.
  intros Hstep Hy. unfold py_range in Hy.
  apply list_elem_of_fmap in Hy. destruct Hy as (k & -> & Hk).
  apply elem_of_seq in Hk. unfold range_len in Hk.
  rewrite (proj2 (Z.ltb_lt 0 step) Hstep) in Hk.
  destruct (Z.ltb_spec 0 stop) as [Hpos|Hneg]; [|cbn in Hk; lia].
  assert (Hdiv : step * ((stop - 0 - 1) / step) <= stop - 0 - 1)
    by (apply Z.mul_div_le; lia).
  assert (0 <= (stop - 0 - 1) / step) by (apply Z.div_pos; lia).
  nia.
Qed.

(** Every extracted tile is the region of the image at its position,
    lies within the image and has the tile shape. *)
Lemma extract_tiles_rect {A} (image : raster A) (h w : nat) (ts st : Z) :
  rect h w image -> 0 <= ts -> 0 < st ->
  exists extracted,
    _extract_tiles image ts st = Ok extracted
    /\ Forall (fun t => rect (Z.to_nat ts) (Z.to_nat ts) t.1
                       /\ in_bounds ts (h, w) t.2
                       /\ t.1 = slice2 t.2.1 (t.2.1 + ts) t.2.2 (t.2.2 + ts) image)
              extracted.
Proof.
  intros Hr Hts Hst. unfold _extract_tiles.
  destruct (Z.eqb_spec st 0) as [|_]; [lia|].
  eexists. split; [reflexivity|].
  apply Forall_forall. intros t Ht.
  apply list_elem_of_bind in Ht. destruct Ht as (y & Ht & Hy).
  apply list_elem_of_bind in Ht. destruct Ht as (x & Ht & Hx).
  apply list_elem_of_singleton in Ht. subst t. cbn [fst snd].
  unfold grid_starts in Hy, Hx.
  apply elem_of_py_range in Hy; [|exact Hst].
  apply elem_of_py_range in Hx; [|exact Hst].
  assert (Hh : len image = Z.of_nat h) by (destruct Hr as [<- _]; reflexivity).
  assert (Hw : Z.of_nat (width image) <= Z.of_nat w).
  { destruct (decide (h = 0)%nat) as [->|Hne].
    - destruct Hr as [Hl _]. destruct image; [cbn; lia | discriminate].
    - rewrite (rect_width h w image Hr) by lia. lia. }
  rewrite Hh in Hy.
  assert (Hb : in_bounds ts (h, w) (y, x)) by (unfold in_bounds; cbn; lia).
  split; [|split; [exact Hb | reflexivity]].
  apply (rect_region ts h w); assumption.
Qed.

(** ** Confidence reduction *)

(** The relabelling loop, cell by cell. *)
Lemma relabel_fold (c : raster Z) (mapping : list (Z * Z)) :
  forall g : Z -> Z,
  foldl (fun adjusted (m : Z * Z) =>
           np_where (map2d (fun v => v =? m.1) c) (map2d (fun _ => m.2) c) adjusted)
        (map2d g c) mapping
  = map2d (fun v => foldl (fun acc (m : Z * Z) => if v =? m.1 then m.2 else acc)
                          (g v) mapping) c.
Proof.
  induction mapping as [|m mapping IH]; intros g; cbn [foldl]; [reflexivity|].
  rewrite np_where_map2d. apply (IH (fun v => if v =? m.1 then m.2 else g v)).
Qed.

Lemma relabel_value (dtype : int_dtype) (v ml : Z) (labels : list Z) :
  forall a : Z,
  foldl (fun acc (m : Z * Z) => if v =? m.1 then m.2 else acc) a
        ((fun label => (label, wrap dtype (label + ml))) <$> labels)
  = if bool_decide (v ∈ labels) then wrap dtype (v + ml) else a.
Proof.
  induction labels as [|l labels IH]; intros a; cbn [foldl fmap list_fmap].
  - rewrite bool_decide_eq_false_2 by apply not_elem_of_nil. reflexivity.
  - rewrite IH. cbn [fst snd].
    destruct (bool_decide_reflect (v ∈ labels)) as [Hin|Hnin].
    + rewrite bool_decide_eq_true_2 by (right; exact Hin). reflexivity.
    + destruct (Z.eqb_spec v l) as [->|Hne].
      * rewrite bool_decide_eq_true_2 by left. reflexivity.
      * rewrite bool_decide_eq_false_2; [reflexivity|].
        intros Hin. apply elem_of_cons in Hin. destruct Hin; contradiction.
Qed.

Lemma confidence_tile_cells (dtype : int_dtype) (ts ml : Z) (tile : raster Z) :
  (confidence_tile dtype ts ml tile).1 = map2d (adjust dtype ts ml tile) tile.
Proof.
  unfold confidence_tile. cbn [fst].
  fold (center_labels ts tile).
  rewrite np_where_map2d_self.
  set (clean := fun v : Z => if bool_decide (v ∈ center_labels ts tile) then v else 0).
  set (cleaned := map2d clean tile).
  rewrite (relabel_fold cleaned _ (fun _ => 0)).
  unfold cleaned.
  assert (Hcomp : forall (f : Z -> Z), map2d f (map2d clean tile)
                                       = map2d (fun v => f (clean v)) tile).
  { intros f. unfold map2d. rewrite <- list_fmap_compose.
    apply list_fmap_ext. intros i row _. cbn. rewrite <- list_fmap_compose.
    reflexivity. }
  rewrite Hcomp. apply map2d_ext_in. intros v Hv.
  rewrite relabel_value. unfold adjust, clean.
  assert (Hnz : forall l, l ∈ center_labels ts tile -> l <> 0).
  { intros l Hl. unfold center_labels in Hl.
    apply list_elem_of_filter in Hl. tauto. }
  destruct (bool_decide_reflect (v ∈ center_labels ts tile)) as [Hin|Hnin].
  - rewrite bool_decide_eq_true_2; [reflexivity|].
    apply list_elem_of_filter. split; [apply Hnz, Hin|].
    apply elem_of_np_unique, elem_of_ravel_map2d.
    exists v. split; [|exact Hv].
    rewrite bool_decide_eq_true_2 by exact Hin. reflexivity.
  - rewrite bool_decide_eq_false_2; [reflexivity|].
    intros Hin. apply list_elem_of_filter in Hin. tauto.
Qed.

Lemma center_labels_nonzero (ts : Z) (tile : raster Z) (l : Z) :
  l ∈ center_labels ts tile -> l <> 0.
Proof.
  unfold center_labels. intros Hl. apply list_elem_of_filter in Hl. tauto.
Qed.

(** The running maximum after a tile: unchanged when no instance
    survives, the largest adjusted label otherwise. *)
Lemma confidence_tile_offset (dtype : int_dtype) (ts ml : Z) (tile : raster Z) :
  (confidence_tile dtype ts ml tile).2
  = if bool_decide (Exists (fun v => v ∈ center_labels ts tile) (ravel tile))
    then np_max (ravel (map2d (adjust dtype ts ml tile) tile))
    else ml.
Proof.
  pose proof (confidence_tile_cells dtype ts ml tile) as Hcells.
  unfold confidence_tile in *. cbn [fst snd] in *. rewrite Hcells. clear Hcells.
  fold (center_labels ts tile). rewrite np_where_map2d_self.
  set (clean := fun v : Z => if bool_decide (v ∈ center_labels ts tile) then v else 0).
  set (kept := filter (fun l : Z => l ≠ 0) (np_unique (ravel (map2d clean tile)))).
  assert (Hkept : forall l, l ∈ kept <-> l ∈ ravel tile /\ l ∈ center_labels ts tile).
  { intros l. unfold kept.
    rewrite list_elem_of_filter, elem_of_np_unique, elem_of_ravel_map2d. split.
    - intros (Hnz & v & -> & Hv). unfold clean in *.
      destruct (bool_decide_reflect (v ∈ center_labels ts tile)); [tauto|congruence].
    - intros (Hl & Hc). split; [eapply center_labels_nonzero, Hc|].
      exists l. split; [|exact Hl]. unfold clean.
      rewrite bool_decide_eq_true_2 by exact Hc. reflexivity. }
  destruct (bool_decide_reflect (kept ≠ [])) as [Hne|He].
  - rewrite bool_decide_eq_true_2; [reflexivity|].
    destruct kept as [|l rest] eqn:Hk; [congruence|].
    apply Exists_exists. exists l. apply Hkept. left.
  - rewrite bool_decide_eq_false_2; [reflexivity|].
    intros Hex. apply Exists_exists in Hex. destruct Hex as (v & Hv).
    apply Hkept in Hv.
    destruct kept; [apply elem_of_nil in Hv; contradiction|].
    apply He. discriminate.
Qed.

Lemma Forall_zip_fst {A B} (P : A -> Prop) (l : list A) (k : list B) :
  Forall P l -> Forall (fun t => P t.1) (zip l k).
Proof.
  intros H. revert k. induction H as [|x l Hx Hl IH]; intros k; [constructor|].
  destruct k as [|y k]; cbn; constructor; [exact Hx | apply IH].
Qed.

(** C4 fails on the code.  [SegFlow(tile_size=2, stride=2)] on a 1 x 1
    image has four tile positions.  Of four predicted tiles of type
    [uint16] (labels 0 to 65535), the first holds the instances 1 and
    65000 and the second the instance 537.  The second tile is
    relabelled by the offset 65000, and 537 + 65000 is 1 in [uint16]:
    label 1 then occurs in the first and in the second confidence tile,
    and the running offset falls from 65000 to 1. *)
Theorem confidence_labels_shared_after_wrap :
  exists self pos ti tj,
    wrap_self = Ok self
    /\ positions self = Some pos
    /\ Forall (Forall (Forall (fun v => 0 <= v <= dtype_max uint16))) wrap_tiles
    /\ _calculate_high_confidence_tiles uint16 2 pos wrap_tiles !! 0%nat = Some ti
    /\ _calculate_high_confidence_tiles uint16 2 pos wrap_tiles !! 1%nat = Some tj
    /\ ti = [[1; 65000]; [0; 0]] /\ tj = [[1; 0]; [0; 0]]
    /\ 1 ∈ ravel ti /\ 1 ∈ ravel tj
    /\ running_offsets uint16 2 pos wrap_tiles = [65000; 1; 1; 1].
Proof.
  eexists _, [(0, 0); (0, 2); (2, 0); (2, 2)], [[1; 65000]; [0; 0]], [[1; 0]; [0; 0]].
  split; [vm_compute; reflexivity|].
  split; [reflexivity|].
  split; [repeat (constructor; [repeat (constructor; [repeat (constructor; [cbn; lia|])|])|]);
          constructor|].
  split; [vm_compute; reflexivity|].
  split; [vm_compute; reflexivity|].
  split; [reflexivity|]. split; [reflexivity|].
  split; [cbn; left|]. split; [cbn; left|].
  vm_compute. reflexivity.
Qed.

(** ** Overlap density map *)

Lemma wrap32_small (z : Z) : - 2 ^ 31 <= z < 2 ^ 31 -> wrap32 z = z.
Proof.
  intros Hz. unfold wrap32. rewrite Z.mod_small; lia.
Qed.

Section Overlaps.
Variables (ts : Z) (h w : nat).

(** One tile adds 1 at every pixel it claims and changes nothing else. *)
Lemma overlaps_tile_step (full : raster Z) (t : raster Z * (Z * Z))
    (c : nat -> nat -> Z) :
  rect h w full ->
  well_placed ts (h, w) t ->
  (forall i j, (i < h)%nat -> (j < w)%nat ->
     at2 full i j = Some (c i j) /\ 0 <= c i j < 2 ^ 31 - 1) ->
  exists full',
    overlaps_tile ts full t = Ok full'
    /\ rect h w full'
    /\ forall i j, (i < h)%nat -> (j < w)%nat ->
         at2 full' i j
         = Some (c i j + if claims ts t i j then 1 else 0).
Proof.
  destruct t as [tile [y x]]. intros Hr [Ht Hb] Hc. cbn in Ht, Hb.
  unfold overlaps_tile.
  set (region := slice2 y (y + ts) x (x + ts) full).
  assert (Hreg : rect (Z.to_nat ts) (Z.to_nat ts) region)
    by (apply (rect_region ts h w); assumption).
  rewrite (same_shape_rect _ _ tile region Ht Hreg).
  set (nz := map2d (fun v => 0 <? v) tile).
  set (om := zip2d andb nz (map2d (fun v => 0 <? v) region)).
  assert (Hnz : rect (Z.to_nat ts) (Z.to_nat ts) nz) by (apply rect_map2d, Ht).
  assert (Hom : rect (Z.to_nat ts) (Z.to_nat ts) om).
  { apply rect_zip2d; [exact Hnz | apply rect_map2d, Hreg]. }
  set (new1 := np_where om (map2d (fun v => wrap32 (v + 1)) region) region).
  assert (Hnew1 : rect (Z.to_nat ts) (Z.to_nat ts) new1).
  { apply rect_np_where; [exact Hom | apply rect_map2d, Hreg | exact Hreg]. }
  set (full1 := set_slice2 y (y + ts) x (x + ts) full new1).
  assert (Hfull1 : rect h w full1) by (apply rect_set_region; assumption).
  set (region1 := slice2 y (y + ts) x (x + ts) full1).
  assert (Hreg1 : rect (Z.to_nat ts) (Z.to_nat ts) region1)
    by (apply (rect_region ts h w); assumption).
  set (new2 := np_where (zip2d (fun o n => negb o && n) om nz)
                        (map2d (fun _ => 1) region1) region1).
  assert (Hnew2 : rect (Z.to_nat ts) (Z.to_nat ts) new2).
  { apply rect_np_where; [|apply rect_map2d, Hreg1 | exact Hreg1].
    apply rect_zip2d; assumption. }
  eexists. split; [reflexivity|]. split; [apply rect_set_region; assumption|].
  intros i j Hi Hj. destruct (Hc i j Hi Hj) as [Hv Hrange].
  rewrite (at2_set_region ts h w) by assumption.
  unfold claims. cbn [fst snd].
  destruct (bool_decide_reflect (covers ts (y, x) i j)) as [Hcov|Hout]; cbn [andb].
  - pose proof Hb as (Hts & Hy & _ & Hx & _). cbn in Hy, Hx.
    destruct (covers_cell_lt ts y x i j Hy Hx Hcov) as [Hi' Hj'].
    destruct (at2_is_Some _ _ tile _ _ Ht Hi' Hj') as [tv Htv].
    unfold tile_cell. cbn [fst snd]. rewrite Htv.
    assert (Hr1 : at2 region (i - Z.to_nat y) (j - Z.to_nat x) = Some (c i j)).
    { unfold region. rewrite (at2_region ts h w) by assumption.
      exact Hv. }
    assert (Hr2 : at2 region1 (i - Z.to_nat y) (j - Z.to_nat x)
                  = Some (if (0 <? tv) && (0 <? c i j) then wrap32 (c i j + 1) else c i j)).
    { unfold region1. rewrite (at2_region ts h w) by assumption.
      unfold full1. rewrite (at2_set_region ts h w) by assumption.
      rewrite bool_decide_eq_true_2 by exact Hcov.
      unfold new1. rewrite at2_np_where. unfold om. rewrite at2_zip2d.
      unfold nz. rewrite !at2_map2d, Htv, Hr1. reflexivity. }
    unfold new2. rewrite at2_np_where, at2_zip2d. unfold om at 1.
    rewrite at2_zip2d. unfold nz. rewrite !at2_map2d, Htv, Hr1, Hr2. cbn.
    f_equal.
    destruct (Z.ltb_spec 0 tv); destruct (Z.ltb_spec 0 (c i j)); cbn;
      try rewrite wrap32_small; lia.
  - unfold full1. rewrite (at2_set_region ts h w) by assumption.
    rewrite bool_decide_eq_false_2 by exact Hout.
    rewrite Hv. f_equal. lia.
Qed.

Lemma claim_count_cons (t : raster Z * (Z * Z)) rest (i j : nat) :
  claim_count ts (t :: rest) i j
  = (if claims ts t i j then 1 else 0) + claim_count ts rest i j.
Proof.
  unfold claim_count, len. rewrite filter_cons.
  destruct (claims ts t i j) eqn:Hc.
  - rewrite decide_True by reflexivity. cbn [length]. lia.
  - rewrite decide_False by discriminate. lia.
Qed.

Lemma claim_count_bounds (tiles : list (raster Z * (Z * Z))) (i j : nat) :
  0 <= claim_count ts tiles i j <= len tiles.
Proof.
  unfold claim_count, len.
  pose proof (length_filter (fun t => claims ts t i j = true) tiles). lia.
Qed.

(** The loop adds to every pixel the number of tiles that claim it. *)
Lemma overlaps_loop (tiles : list (raster Z * (Z * Z))) :
  forall (full : raster Z) (c : nat -> nat -> Z),
  rect h w full ->
  Forall (well_placed ts (h, w)) tiles ->
  (forall i j, (i < h)%nat -> (j < w)%nat ->
     at2 full i j = Some (c i j) /\ 0 <= c i j /\ c i j + len tiles < 2 ^ 31) ->
  exists full',
    foldM (overlaps_tile ts) full tiles = Ok full'
    /\ rect h w full'
    /\ forall i j, (i < h)%nat -> (j < w)%nat ->
         at2 full' i j = Some (c i j + claim_count ts tiles i j).
Proof.
  induction tiles as [|t rest IH]; intros full c Hr Hwp Hc.
  - exists full. split; [reflexivity|]. split; [exact Hr|].
    intros i j Hi Hj. destruct (Hc i j Hi Hj) as [-> _].
    unfold claim_count, len. cbn. f_equal. lia.
  - inversion Hwp as [|? ? Ht Hrest]; subst.
    assert (Hlen : len (t :: rest) = len rest + 1) by (unfold len; cbn; lia).
    destruct (overlaps_tile_step full t c Hr Ht) as (full1 & Hstep & Hr1 & Hc1).
    { intros i j Hi Hj. destruct (Hc i j Hi Hj) as (Hv & H0 & Hlt).
      split; [exact Hv|]. unfold len in *. lia. }
    destruct (IH full1 (fun i j => c i j + if claims ts t i j then 1 else 0) Hr1 Hrest)
      as (full' & Hloop & Hr' & Hc').
    { intros i j Hi Hj. destruct (Hc i j Hi Hj) as (Hv & H0 & Hlt).
      split; [apply Hc1; assumption|].
      destruct (claims ts t i j); lia. }
    exists full'. split; [|split; [exact Hr'|]].
    + cbn [foldM]. rewrite Hstep. exact Hloop.
    + intros i j Hi Hj. rewrite (Hc' i j Hi Hj), claim_count_cons. f_equal. lia.
Qed.

End Overlaps.

Lemma claim_count_pos (ts : Z) (tiles : list (raster Z * (Z * Z))) (i j : nat) :
  1 <= claim_count ts tiles i j
  <-> exists t, t ∈ tiles /\ claims ts t i j = true.
Proof.
  unfold claim_count, len. split.
  - intros Hc.
    destruct (filter (fun t => claims ts t i j = true) tiles) as [|t rest] eqn:Hf;
      [cbn in Hc; lia|].
    assert (Ht : t ∈ filter (fun t => claims ts t i j = true) tiles)
      by (rewrite Hf; left).
    apply list_elem_of_filter in Ht. destruct Ht as [Hc' Hin].
    exists t. split; assumption.
  - intros (t & Hin & Hc).
    assert (Ht : t ∈ filter (fun t => claims ts t i j = true) tiles)
      by (apply list_elem_of_filter; split; assumption).
    destruct (filter (fun t => claims ts t i j = true) tiles);
      [apply elem_of_nil in Ht; contradiction | cbn; lia].
Qed.

(** C6: on tiles of the tile shape placed within the padded extent
    (fewer than 2^31 of them, the range of the [int32] raster),
    [_calculate_overlaps] returns a raster of the padded shape whose
    value at every pixel is the number of tiles that cover the pixel
    with a positive (non-background) label; so the value is at least 1
    exactly on the union of the tiles' footprints, and 0 where no tile
    claims the pixel. *)
Theorem overlap_mask_counts_claims (ts : Z) (shape : nat * nat)
    (positions : list (Z * Z)) (tiles : list (raster Z)) :
  Forall (well_placed ts shape) (zip tiles positions) ->
  len (zip tiles positions) < 2 ^ 31 ->
  exists full,
    _calculate_overlaps ts shape positions tiles = Ok full
    /\ rect shape.1 shape.2 full
    /\ forall i j, (i < shape.1)%nat -> (j < shape.2)%nat ->
         exists v,
           at2 full i j = Some v
           /\ v = claim_count ts (zip tiles positions) i j
           /\ (1 <= v <->
                exists t, t ∈ zip tiles positions /\ claims ts t i j = true)
           /\ ((forall t, t ∈ zip tiles positions -> claims ts t i j = false) ->
                v = 0).
Proof.
  destruct shape as [h w]. intros Hwp Hlen. unfold _calculate_overlaps.
  cbn [fst snd].
  destruct (overlaps_loop ts h w (zip tiles positions) (np_zeros 0 h w)
              (fun _ _ => 0)) as (full & Hrun & Hr & Hat).
  - apply rect_np_zeros.
  - exact Hwp.
  - intros i j Hi Hj. split; [apply at2_np_zeros; assumption | lia].
  - exists full. split; [exact Hrun|]. split; [exact Hr|].
    intros i j Hi Hj. eexists. split; [apply Hat; assumption|].
    split; [reflexivity|]. cbn. split; [apply claim_count_pos|].
    intros Hnone.
    pose proof (claim_count_bounds ts (zip tiles positions) i j) as [H0 _].
    destruct (Z.eq_dec (claim_count ts (zip tiles positions) i j) 0) as [|Hne];
      [assumption|].
    assert (Hpos : 1 <= claim_count ts (zip tiles positions) i j) by lia.
    apply claim_count_pos in Hpos. destruct Hpos as (t & Hin & Hc).
    rewrite (Hnone t Hin) in Hc. discriminate.
Qed.

(** The theorem on two tiles one column apart: the pixel they share
    counts 2. *)
Lemma overlap_mask_counts_claims_witness :
  exists full,
    _calculate_overlaps 2 (2%nat, 3%nat) [(0, 0); (0, 1)]
      [[[1; 1]; [0; 1]]; [[2; 2]; [2; 0]]] = Ok full
    /\ at2 full 0 1 = Some 2.
Proof.
  destruct (overlap_mask_counts_claims 2 (2%nat, 3%nat) [(0, 0); (0, 1)]
              [[[1; 1]; [0; 1]]; [[2; 2]; [2; 0]]])
    as (full & Hrun & _ & Hat).
  - solve_placed.
  - reflexivity.
  - exists full. split; [exact Hrun|].
    destruct (Hat 0%nat 1%nat) as (v & Hv & -> & _); [cbn; lia..|].
    exact Hv.
Defined.

(** ** Per-instance coverage scorer *)

Section Scorer.
Variables (w1 w2 : Q) (mp : Z) (h w : nat) (tile otile : raster Z).
Hypothesis Htile : rect h w tile.
Hypothesis Hotile : rect h w otile.

(** The body of the loop on one label: the pixel count is compared
    with the threshold and the entry is the coverage score. *)
Lemma score_label_spec (cov : gmap Z Q) (label : Z) :
  score_label w1 w2 mp tile otile cov label
  = if mp <=? pixel_count tile label
    then <[label := coverage_score w1 w2 tile otile label]> cov
    else cov.
Proof.
  unfold score_label, coverage_score, pixel_count, density_sum, len.
  rewrite ravel_map2d, length_filter_mask.
  rewrite (ravel_zip2d _ h w tile otile Htile Hotile).
  rewrite np_sum_select, length_select
    by (rewrite (length_ravel h w tile Htile), (length_ravel h w otile Hotile);
        reflexivity).
  reflexivity.
Qed.

Lemma score_labels_lookup (labels : list Z) (l : Z) :
  forall acc : gmap Z Q,
  foldl (score_label w1 w2 mp tile otile) acc labels !! l
  = if bool_decide (l ∈ labels /\ mp <= pixel_count tile l)
    then Some (coverage_score w1 w2 tile otile l)
    else acc !! l.
Proof.
  induction labels as [|x labels IH]; intros acc; cbn [foldl].
  - rewrite bool_decide_eq_false_2; [reflexivity|].
    intros [Hin _]. apply elem_of_nil in Hin. exact Hin.
  - rewrite IH, score_label_spec.
    destruct (bool_decide_reflect (l ∈ labels /\ mp <= pixel_count tile l))
      as [[Hin Hge]|Hnot].
    + rewrite bool_decide_eq_true_2; [reflexivity|]. split; [right|]; assumption.
    + destruct (decide (l = x)) as [->|Hne].
      * destruct (Z.leb_spec mp (pixel_count tile x)) as [Hge|Hlt].
        -- rewrite lookup_insert_eq.
           rewrite bool_decide_eq_true_2; [reflexivity|]. split; [left | exact Hge].
        -- rewrite bool_decide_eq_false_2; [reflexivity|]. intros [_ Hge]. lia.
      * assert (Hacc : (if mp <=? pixel_count tile x
                        then <[x := coverage_score w1 w2 tile otile x]> acc
                        else acc) !! l = acc !! l).
        { destruct (mp <=? pixel_count tile x); [|reflexivity].
          apply lookup_insert_ne. congruence. }
        rewrite Hacc. rewrite bool_decide_eq_false_2; [reflexivity|].
        intros [Hin Hge]. apply Hnot. split; [|exact Hge].
        apply elem_of_cons in Hin. destruct Hin; [contradiction | assumption].
Qed.

(** The coverage dictionary of a tile, entry by entry. *)
Lemma tile_coverage_spec :
  exists cov,
    tile_coverage w1 w2 mp (tile, otile) = Ok cov
    /\ forall l,
         cov !! l
         = if bool_decide ((l <> 0 /\ l ∈ ravel tile) /\ mp <= pixel_count tile l)
           then Some (coverage_score w1 w2 tile otile l)
           else None.
Proof.
  unfold tile_coverage. rewrite (same_shape_rect h w tile otile Htile Hotile).
  eexists. split; [reflexivity|]. intros l.
  rewrite score_labels_lookup, lookup_empty.
  assert (Hiff : (l ∈ filter (fun l : Z => l ≠ 0) (np_unique (ravel tile))
                  /\ mp <= pixel_count tile l)
                 <-> ((l <> 0 /\ l ∈ ravel tile) /\ mp <= pixel_count tile l)).
  { rewrite list_elem_of_filter, elem_of_np_unique. reflexivity. }
  rewrite (bool_decide_ext _ _ Hiff). reflexivity.
Qed.

End Scorer.

(** C5: over confidence tiles of the tile shape and a density raster,
    [_calculate_tile_overlaps] returns one mapping per pair of a tile
    and its aligned density sub-raster (the region of the density
    raster at the tile's grid position); for a non-background label of
    the tile the mapping has an entry exactly when the label's pixel
    count is at least [min_pixels], the entry is [average_weight] times
    the mean density plus [sum_weight] times the summed density over
    the label's pixels, and a label with fewer pixels has no entry. *)
Theorem coverage_entry_iff_min_pixels (self : SegFlow) (h w : nat)
    (full_overlap_mask : raster Z) (tiles : list (raster Z)) :
  0 <= tile_size self -> 0 < stride self ->
  rect h w full_overlap_mask ->
  Forall (rect (Z.to_nat (tile_size self)) (Z.to_nat (tile_size self))) tiles ->
  exists extracted covs,
    _extract_tiles full_overlap_mask (tile_size self) (stride self) = Ok extracted
    /\ _calculate_tile_overlaps self full_overlap_mask tiles = Ok covs
    /\ forall k tile density pos,
         tiles !! k = Some tile -> extracted !! k = Some (density, pos) ->
         density = slice2 pos.1 (pos.1 + tile_size self)
                          pos.2 (pos.2 + tile_size self) full_overlap_mask
         /\ exists cov,
              covs !! k = Some cov
              /\ forall l, l <> 0 -> l ∈ ravel tile ->
                   (is_Some (cov !! l) <-> min_pixels self <= pixel_count tile l)
                   /\ (min_pixels self <= pixel_count tile l ->
                       cov !! l = Some (coverage_score (average_weight self)
                                          (sum_weight self) tile density l))
                   /\ (pixel_count tile l < min_pixels self -> cov !! l = None).
Proof.
  intros Hts Hst Hfull Htiles.
  destruct (extract_tiles_rect full_overlap_mask h w _ _ Hfull Hts Hst)
    as (extracted & Hex & Hrects).
  set (T := Z.to_nat (tile_size self)) in *.
  assert (Hpairs : forall k tile density,
             tiles !! k = Some tile -> extracted.*1 !! k = Some density ->
             rect T T tile /\ rect T T density
             /\ zip tiles extracted.*1 !! k = Some (tile, density)).
  { intros k tile density Hk Hd. split; [|split].
    - exact (proj1 (Forall_lookup _ _) Htiles k tile Hk).
    - rewrite list_lookup_fmap in Hd.
      destruct (extracted !! k) as [t|] eqn:Ht; [|discriminate].
      injection Hd as <-.
      exact (proj1 (proj1 (Forall_lookup _ _) Hrects k t Ht)).
    - rewrite lookup_zip_with, Hk. cbn. rewrite Hd. reflexivity. }
  destruct (mapM_Ok (tile_coverage (average_weight self) (sum_weight self)
                                   (min_pixels self))
                    (zip tiles extracted.*1)) as (covs & Hcovs & _ & Hlook).
  { apply Forall_lookup. intros k [tile density] Hk.
    rewrite lookup_zip_with in Hk.
    destruct (tiles !! k) as [tile'|] eqn:Htk; cbn in Hk; [|discriminate].
    destruct (extracted.*1 !! k) as [density'|] eqn:Hdk; cbn in Hk; [|discriminate].
    injection Hk as <- <-.
    destruct (Hpairs k tile' density' Htk Hdk) as (Hrt & Hrd & _).
    destruct (tile_coverage_spec (average_weight self) (sum_weight self)
                (min_pixels self) T T tile' density' Hrt Hrd) as (cov & Hcov & _).
    exists cov. exact Hcov. }
  exists extracted, covs. split; [exact Hex|]. split.
  { unfold _calculate_tile_overlaps. rewrite Hex. exact Hcovs. }
  intros k tile density pos Hk Hdp.
  assert (Hd : extracted.*1 !! k = Some density).
  { rewrite list_lookup_fmap, Hdp. reflexivity. }
  split.
  { destruct (proj1 (Forall_lookup _ _) Hrects k _ Hdp) as (_ & _ & Heq).
    exact Heq. }
  destruct (Hpairs k tile density Hk Hd) as (Hrt & Hrd & Hzip).
  destruct (Hlook k (tile, density) Hzip) as (cov & Hck & Hcov).
  exists cov. split; [exact Hck|].
  destruct (tile_coverage_spec (average_weight self) (sum_weight self)
              (min_pixels self) T T tile density Hrt Hrd) as (cov' & Hcov' & Hent).
  rewrite Hcov in Hcov'. injection Hcov' as <-.
  intros l Hnz Hin. rewrite (Hent l).
  destruct (bool_decide_reflect
              ((l <> 0 /\ l ∈ ravel tile) /\ min_pixels self <= pixel_count tile l))
    as [[_ Hge]|Hnot].
  - split; [split; [intros _; exact Hge | eauto]|].
    split; [reflexivity | lia].
  - assert (Hlt : pixel_count tile l < min_pixels self).
    { destruct (Z.lt_ge_cases (pixel_count tile l) (min_pixels self)) as [|Hge];
        [assumption|]. exfalso. apply Hnot. repeat split; assumption. }
    split; [split; [intros [? Hs]; discriminate | lia]|].
    split; [lia | reflexivity].
Qed.

(** The theorem on two tiles over a density raster: instance 2 of the
    second tile has 4 pixels, fewer than the threshold 5, and no entry. *)
Lemma coverage_entry_iff_min_pixels_witness :
  exists covs,
    _calculate_tile_overlaps (__init__ 3 1 1 0 1)
      (replicate 3 [1; 2; 2; 1]) [full_tile 1; [[2; 2; 2]; [2; 0; 0]; [0; 0; 0]]]
    = Ok covs
    /\ exists cov, covs !! 1%nat = Some cov /\ cov !! 2 = None.
Proof.
  destruct (coverage_entry_iff_min_pixels (__init__ 3 1 1 0 1) 3 4
              (replicate 3 [1; 2; 2; 1])
              [full_tile 1; [[2; 2; 2]; [2; 0; 0]; [0; 0; 0]]])
    as (extracted & covs & Hex & Hcovs & Hent).
  - cbn. lia.
  - cbn. lia.
  - solve_rect.
  - repeat (constructor; [solve_rect|]); constructor.
  - exists covs. split; [exact Hcovs|].
    vm_compute in Hex. injection Hex as <-.
    destruct (Hent 1%nat [[2; 2; 2]; [2; 0; 0]; [0; 0; 0]]
                [[2; 2; 1]; [2; 2; 1]; [2; 2; 1]] (0, 1) eq_refl eq_refl)
      as (_ & cov & Hcov & Hl).
    exists cov. split; [exact Hcov|].
    destruct (Hl 2) as (_ & _ & Hnone); [lia | cbn; left |].
    apply Hnone. vm_compute. reflexivity.
Defined.

(** ** Recombiner *)

(** [float32] on a few numbers: 0.1 and 8500/900 round to 24 bits, 2 ^ 24
    + 1 rounds down to the even neighbour 2 ^ 24 and 2 ^ 24 + 3 up to
    2 ^ 24 + 4, half of the least subnormal rounds to 0, and 2 ^ 128
    overflows. *)
Lemma float32_examples :
  float32 (1 # 10) = (13421773 # 134217728)%Q
  /\ float32 (8500 # 900) = (4951609 # 524288)%Q
  /\ float32 16777217 = 16777216%Q
  /\ float32 16777219 = 16777220%Q
  /\ float32 (Qpower 2 (-150)) = 0%Q
  /\ float32 (Qpower 2 128 - Qpower 2 103) = Qred (Qpower 2 128)
  /\ float32 (Qpower 2 200) = Qred (Qpower 2 128).
Proof. repeat split; vm_compute; reflexivity. Qed.

Lemma tile_score_map_spec (tile : raster Z) (cov : gmap Z Q) (h w : nat) :
  rect h w tile ->
  rect h w (tile_score_map tile cov)
  /\ forall i j, at2 (tile_score_map tile cov) i j = score_of cov <$> at2 tile i j.
Proof.
  intros Ht. unfold tile_score_map.
  apply (map_fold_weak_ind
           (fun (r : raster Q) (m : gmap Z Q) =>
              rect h w r /\ forall i j, at2 r i j = score_of m <$> at2 tile i j)).
  - split; [apply rect_map2d, Ht|]. intros i j. rewrite at2_map2d.
    destruct (at2 tile i j); reflexivity.
  - intros label score m r Hnone [Hr Hat]. split.
    + apply rect_np_where; [apply rect_map2d, Ht | apply rect_map2d, Ht | exact Hr].
    + intros i j. rewrite at2_np_where, !at2_map2d, Hat.
      destruct (at2 tile i j) as [v|]; cbn; [|reflexivity].
      f_equal. unfold score_of. destruct (Z.eqb_spec v label) as [->|Hne].
      * rewrite lookup_insert_eq. reflexivity.
      * rewrite lookup_insert_ne by congruence. reflexivity.
Qed.

Section Recombiner.
Variables (ts : Z) (h w : nat).

(** What one tile does to one pixel. *)
Lemma ingest_tile_step (m : Mosaic) (t : raster Z * (Z * Z) * gmap Z Q) :
  mosaic_rect h w m ->
  well_placed ts (h, w) t.1 ->
  exists m',
    ingest_tile ts m t = Ok m'
    /\ mosaic_rect h w m'
    /\ forall i j l s,
         at2 (full_segmentation_mask m) i j = Some l ->
         at2 (full_score_map m) i j = Some s ->
         if bool_decide (covers ts t.1.2 i j) then
           exists tv,
             tile_cell t.1.1 t.1.2 i j = Some tv
             /\ tile_cell (tile_score_map t.1.1 t.2) t.1.2 i j = Some (score_of t.2 tv)
             /\ at2 (full_segmentation_mask m') i j
                = Some (if Qgtb (score_of t.2 tv) s && (0 <? tv) then wrap32 tv else l)
             /\ at2 (full_score_map m') i j
                = Some (if Qgtb (score_of t.2 tv) s && (0 <? tv) then score_of t.2 tv else s)
         else
           at2 (full_segmentation_mask m') i j = Some l
           /\ at2 (full_score_map m') i j = Some s.
Proof.
  destruct t as [[tile [y x]] cov]. destruct m as [mask score].
  intros [Hm Hs] [Ht Hb]. cbn in Hm, Hs, Ht, Hb. cbn [fst snd].
  unfold ingest_tile. cbn [full_segmentation_mask full_score_map].
  set (mregion := slice2 y (y + ts) x (x + ts) mask).
  set (sregion := slice2 y (y + ts) x (x + ts) score).
  assert (Hmr : rect (Z.to_nat ts) (Z.to_nat ts) mregion)
    by (apply (rect_region ts h w); assumption).
  assert (Hsr : rect (Z.to_nat ts) (Z.to_nat ts) sregion)
    by (apply (rect_region ts h w); assumption).
  rewrite (same_shape_rect _ _ tile mregion Ht Hmr).
  rewrite (same_shape_rect _ _ tile sregion Ht Hsr). cbn [andb].
  destruct (tile_score_map_spec tile cov _ _ Ht) as [Htsm Hat].
  set (tsm := tile_score_map tile cov) in *.
  set (ow := overwrite_mask tile tsm sregion).
  assert (How : rect (Z.to_nat ts) (Z.to_nat ts) ow).
  { unfold ow, overwrite_mask. apply rect_zip2d; [|apply rect_map2d, Ht].
    apply rect_zip2d; assumption. }
  assert (Hnm : rect (Z.to_nat ts) (Z.to_nat ts)
                  (np_where ow (map2d wrap32 tile) mregion)).
  { apply rect_np_where; [exact How | apply rect_map2d, Ht | exact Hmr]. }
  assert (Hns : rect (Z.to_nat ts) (Z.to_nat ts) (np_where ow tsm sregion)).
  { apply rect_np_where; assumption. }
  eexists. split; [reflexivity|]. split.
  { split; cbn; apply rect_set_region; assumption. }
  intros i j l s Hl Hsc. cbn [full_segmentation_mask full_score_map].
  rewrite !(at2_set_region ts h w) by assumption.
  destruct (bool_decide_reflect (covers ts (y, x) i j)) as [Hcov|Hout];
    [|split; assumption].
  pose proof Hb as (Hts & Hy & _ & Hx & _). cbn in Hy, Hx.
  destruct (covers_cell_lt ts y x i j Hy Hx Hcov) as [Hi' Hj'].
  destruct (at2_is_Some _ _ tile _ _ Ht Hi' Hj') as [tv Htv].
  exists tv. unfold tile_cell. cbn [fst snd].
  assert (Hsv : at2 tsm (i - Z.to_nat y) (j - Z.to_nat x) = Some (score_of cov tv)).
  { rewrite Hat, Htv. reflexivity. }
  assert (Hmv : at2 mregion (i - Z.to_nat y) (j - Z.to_nat x) = Some l).
  { unfold mregion. rewrite (at2_region ts h w) by assumption. exact Hl. }
  assert (Hrv : at2 sregion (i - Z.to_nat y) (j - Z.to_nat x) = Some s).
  { unfold sregion. rewrite (at2_region ts h w) by assumption. exact Hsc. }
  assert (Howv : at2 ow (i - Z.to_nat y) (j - Z.to_nat x)
                 = Some (Qgtb (score_of cov tv) s && (0 <? tv))).
  { unfold ow, overwrite_mask. rewrite !at2_zip2d, at2_map2d, Hsv, Hrv, Htv.
    reflexivity. }
  repeat split; try assumption.
  - rewrite at2_np_where, Howv, at2_map2d, Htv, Hmv. reflexivity.
  - rewrite at2_np_where, Howv, Hsv, Hrv. reflexivity.
Qed.

Lemma Qgtb_true (a b : Q) : Qgtb a b = true <-> (b < a)%Q.
Proof.
  unfold Qgtb. rewrite negb_true_iff, <- not_true_iff_false, Qle_bool_iff.
  split; [apply Qnot_le_lt | apply Qlt_not_le].
Qed.

Lemma Qgtb_false (a b : Q) : Qgtb a b = false <-> (a <= b)%Q.
Proof.
  unfold Qgtb. rewrite negb_false_iff. apply Qle_bool_iff.
Qed.

(** The loop runs to its end on well-placed tiles. *)
Lemma recombine_runs (tiles : list (raster Z * (Z * Z) * gmap Z Q)) :
  forall m,
  mosaic_rect h w m ->
  Forall (placed ts (h, w)) tiles ->
  exists m', recombine ts m tiles = Ok m' /\ mosaic_rect h w m'.
Proof.
  induction tiles as [|t rest IH]; intros m Hm Hwp.
  - exists m. split; [reflexivity | exact Hm].
  - inversion Hwp as [|? ? Ht Hrest]; subst.
    destruct (ingest_tile_step m t Hm Ht) as (m1 & Hstep & Hm1 & _).
    destruct (IH m1 Hm1 Hrest) as (m' & Hrun & Hm').
    exists m'. split; [|exact Hm'].
    unfold recombine in *. cbn [foldM]. rewrite Hstep. exact Hrun.
Qed.

Lemma mosaic_rect_empty : mosaic_rect h w (empty_mosaic (h, w)).
Proof. split; apply rect_np_zeros. Qed.

End Recombiner.

Section RecombinerRuns.
Variables (ts : Z) (h w : nat).

Lemma mosaic_cells (m : Mosaic) (i j : nat) (s : Q) :
  mosaic_rect h w m -> at2 (full_score_map m) i j = Some s ->
  exists l, at2 (full_segmentation_mask m) i j = Some l.
Proof.
  intros [Hm Hs] Hat.
  destruct (at2_Some_lt h w _ i j s Hs Hat) as [Hi Hj].
  exact (at2_is_Some h w _ i j Hm Hi Hj).
Qed.

(** A tile never lowers the score recorded at a pixel. *)
Lemma ingest_tile_score_mono (m m' : Mosaic) t (i j : nat) (s : Q) :
  mosaic_rect h w m -> placed ts (h, w) t ->
  ingest_tile ts m t = Ok m' ->
  at2 (full_score_map m) i j = Some s ->
  exists s', at2 (full_score_map m') i j = Some s' /\ (s <= s')%Q.
Proof.
  intros Hm Ht Hstep Hs.
  destruct (mosaic_cells m i j s Hm Hs) as [l Hl].
  destruct (ingest_tile_step ts h w m t Hm Ht) as (m1 & Hstep1 & _ & Hpix).
  rewrite Hstep in Hstep1. injection Hstep1 as <-.
  specialize (Hpix i j l s Hl Hs).
  destruct (bool_decide (covers ts t.1.2 i j)).
  - destruct Hpix as (tv & _ & _ & _ & Hs').
    eexists. split; [exact Hs'|].
    destruct (Qgtb (score_of t.2 tv) s) eqn:Hgt; cbn [andb].
    + destruct (0 <? tv); [|apply Qle_refl].
      apply Qlt_le_weak, Qgtb_true, Hgt.
    + apply Qle_refl.
  - destruct Hpix as [_ Hs']. exists s. split; [exact Hs' | apply Qle_refl].
Qed.

Lemma recombine_score_mono (tiles : list (raster Z * (Z * Z) * gmap Z Q)) :
  forall (m m' : Mosaic) (i j : nat) (s : Q),
  mosaic_rect h w m -> Forall (placed ts (h, w)) tiles ->
  recombine ts m tiles = Ok m' ->
  at2 (full_score_map m) i j = Some s ->
  exists s', at2 (full_score_map m') i j = Some s' /\ (s <= s')%Q.
Proof.
  induction tiles as [|t rest IH]; intros m m' i j s Hm Hwp Hrun Hs.
  - injection Hrun as <-. exists s. split; [exact Hs | apply Qle_refl].
  - inversion Hwp as [|? ? Ht Hrest]; subst.
    destruct (ingest_tile_step ts h w m t Hm Ht) as (m1 & Hstep & Hm1 & _).
    unfold recombine in Hrun. cbn [foldM] in Hrun. rewrite Hstep in Hrun.
    destruct (ingest_tile_score_mono m m1 t i j s Hm Ht Hstep Hs) as (s1 & Hs1 & Hle1).
    destruct (IH m1 m' i j s1 Hm1 Hrest Hrun Hs1) as (s' & Hs' & Hle').
    exists s'. split; [exact Hs'|]. eapply Qle_trans; eassumption.
Qed.

(** After a tile that claims a pixel, the recorded score is at least
    the tile's. *)
Lemma ingest_tile_score_lower_bound (m m' : Mosaic) t (i j : nat) (tv : Z) :
  mosaic_rect h w m -> placed ts (h, w) t ->
  ingest_tile ts m t = Ok m' ->
  covers ts t.1.2 i j ->
  tile_cell t.1.1 t.1.2 i j = Some tv -> 0 < tv ->
  exists s', at2 (full_score_map m') i j = Some s' /\ (score_of t.2 tv <= s')%Q.
Proof.
  intros Hm Ht Hstep Hcov Htv Hpos.
  pose proof Ht as [Hrt Hb].
  destruct Hb as (Hts & Hy & Hy1 & Hx & Hx1). destruct Hcov as [Hci Hcj].
  destruct Hm as [Hmask Hscore].
  destruct (at2_is_Some h w _ i j Hmask) as [l Hl]; [cbn in *; lia..|].
  destruct (at2_is_Some h w _ i j Hscore) as [s Hs]; [cbn in *; lia..|].
  destruct (ingest_tile_step ts h w m t (conj Hmask Hscore) Ht) as (m1 & Hstep1 & _ & Hpix).
  rewrite Hstep in Hstep1. injection Hstep1 as <-.
  specialize (Hpix i j l s Hl Hs).
  rewrite bool_decide_eq_true_2 in Hpix by (split; assumption).
  destruct Hpix as (tv' & Htv' & _ & _ & Hs').
  rewrite Htv in Htv'. injection Htv' as <-.
  eexists. split; [exact Hs'|].
  replace (0 <? tv) with true by (symmetry; apply Z.ltb_lt, Hpos).
  destruct (Qgtb (score_of t.2 tv) s) eqn:Hgt; cbn [andb].
  - apply Qle_refl.
  - apply Qgtb_false, Hgt.
Qed.

End RecombinerRuns.

(** C2: in a run of the recombiner over well-placed tiles, let [m] be
    the mosaic before a tile and [m'] the mosaic after it.  At a pixel
    the tile covers with a broadcast score equal to the score recorded
    in [m], the label and the score of [m'] are those of [m].  At every
    pixel, either label and score are unchanged, or the tile covers the
    pixel with a positive label and a strictly greater score, and [m']
    holds the tile's label and score. *)
Theorem tie_keeps_recorded_claim (ts : Z) (h w : nat)
    (pre : list (raster Z * (Z * Z) * gmap Z Q))
    (tile : raster Z) (pos : Z * Z) (cov : gmap Z Q) :
  Forall (placed ts (h, w)) (pre ++ [(tile, pos, cov)]) ->
  exists m m',
    recombine ts (empty_mosaic (h, w)) pre = Ok m
    /\ recombine ts (empty_mosaic (h, w)) (pre ++ [(tile, pos, cov)]) = Ok m'
    /\ forall i j l s,
         at2 (full_segmentation_mask m) i j = Some l ->
         at2 (full_score_map m) i j = Some s ->
         (forall sc,
            covers ts pos i j ->
            tile_cell (tile_score_map tile cov) pos i j = Some sc ->
            (sc == s)%Q ->
            at2 (full_segmentation_mask m') i j = Some l
            /\ at2 (full_score_map m') i j = Some s)
         /\ ((at2 (full_segmentation_mask m') i j = Some l
              /\ at2 (full_score_map m') i j = Some s)
             \/ (covers ts pos i j
                 /\ exists tv sc,
                      tile_cell tile pos i j = Some tv
                      /\ tile_cell (tile_score_map tile cov) pos i j = Some sc
                      /\ (s < sc)%Q /\ 0 < tv
                      /\ at2 (full_segmentation_mask m') i j = Some (wrap32 tv)
                      /\ at2 (full_score_map m') i j = Some sc)).
Proof.
  intros Hwp. apply Forall_app in Hwp. destruct Hwp as [Hpre Ht].
  inversion Ht as [|? ? Ht' _]; subst.
  destruct (recombine_runs ts h w pre (empty_mosaic (h, w)) (mosaic_rect_empty h w) Hpre)
    as (m & Hrun & Hm).
  destruct (ingest_tile_step ts h w m (tile, pos, cov) Hm Ht')
    as (m' & Hstep & _ & Hpix).
  cbn [fst snd] in Hpix.
  exists m, m'. split; [exact Hrun|]. split.
  { unfold recombine in *. rewrite foldM_app, Hrun. cbn [rbind foldM].
    rewrite Hstep. reflexivity. }
  intros i j l s Hl Hs. specialize (Hpix i j l s Hl Hs).
  destruct (bool_decide_reflect (covers ts pos i j)) as [Hcov|Hout].
  - destruct Hpix as (tv & Htv & Hsc & Hl' & Hs'). split.
    + intros sc _ Hsc' Heq. rewrite Hsc in Hsc'. injection Hsc' as <-.
      assert (Hgt : Qgtb (score_of cov tv) s = false).
      { apply Qgtb_false. rewrite Heq. apply Qle_refl. }
      rewrite Hgt in Hl', Hs'. split; assumption.
    + destruct (Qgtb (score_of cov tv) s) eqn:Hgt; cbn [andb] in Hl', Hs';
        [|left; split; assumption].
      destruct (Z.ltb_spec 0 tv) as [Hpos|Hneg]; [|left; split; assumption].
      right. split; [exact Hcov|]. exists tv, (score_of cov tv).
      repeat split; try assumption. apply Qgtb_true, Hgt.
  - split; [intros sc Hcov; contradiction | left; exact Hpix].
Qed.

(** The theorem on two tiles of equal score one column apart: on the
    shared pixel the first tile's label stays. *)
Lemma tie_keeps_recorded_claim_witness :
  exists m m',
    recombine 2 (empty_mosaic (2%nat, 3%nat)) [tile_a] = Ok m
    /\ recombine 2 (empty_mosaic (2%nat, 3%nat)) ([tile_a] ++ [tile_b]) = Ok m'
    /\ at2 (full_segmentation_mask m) 0 1 = Some 1
    /\ at2 (full_segmentation_mask m') 0 1 = Some 1.
Proof.
  destruct (tie_keeps_recorded_claim 2 2 3 [tile_a]
              [[2; 2]; [2; 2]] (0, 1) {[ 2 := 2%Q ]})
    as (m & m' & Hm & Hm' & Hpix).
  - solve_placed.
  - exists m, m'. split; [exact Hm|]. split; [exact Hm'|].
    assert (Hmv : m = {| full_segmentation_mask := [[1; 1; 0]; [1; 1; 0]];
                         full_score_map := [[2; 2; 0]; [2; 2; 0]]%Q |}).
    { vm_compute in Hm. injection Hm as <-. reflexivity. }
    subst m. split; [reflexivity|].
    destruct (Hpix 0%nat 1%nat 1 2%Q eq_refl eq_refl) as [Htie _].
    apply (Htie 2%Q); [unfold covers; cbn; lia | reflexivity | reflexivity].
Defined.

(** C3 fails: four tiles of type [int32], each filled by one instance,
    all cover the image's pixel with the same coverage score; the
    mosaic holds there the label of the first tile, and the stitched
    output is that label, not the label of a later tile. *)
Lemma tie_later_tile_does_not_overwrite :
  exists self conf full cov m,
    tie_self = Ok self
    /\ positions self = Some [(0, 0); (0, 1); (1, 0); (1, 1)]
    /\ conf = _calculate_high_confidence_tiles int32 3
                [(0, 0); (0, 1); (1, 0); (1, 1)] (replicate 4 (full_tile 1))
    /\ conf = [full_tile 1; full_tile 2; full_tile 3; full_tile 4]
    /\ _calculate_overlaps 3 (4%nat, 4%nat) [(0, 0); (0, 1); (1, 0); (1, 1)] conf
       = Ok full
    /\ _calculate_tile_overlaps self full conf = Ok cov
    /\ cov = [{[ 1 := (8500 # 900)%Q ]}; {[ 2 := (8500 # 900)%Q ]};
              {[ 3 := (8500 # 900)%Q ]}; {[ 4 := (8500 # 900)%Q ]}]
    /\ recombine 3 (empty_mosaic (4%nat, 4%nat))
         (zip (zip conf [(0, 0); (0, 1); (1, 0); (1, 1)]) cov) = Ok m
    /\ full_segmentation_mask m
       = [[1; 1; 1; 2]; [1; 1; 1; 2]; [1; 1; 1; 2]; [3; 3; 3; 4]]
    /\ at2 (full_segmentation_mask m) 1 1 = Some 1
    /\ ingest_tile_segmentation self int32 (replicate 4 (full_tile 1)) = Ok [[1]].
Proof.
  do 5 eexists.
  split; [vm_compute; reflexivity|].
  split; [reflexivity|].
  split; [reflexivity|].
  split; [vm_compute; reflexivity|].
  split; [vm_compute; reflexivity|].
  split; [vm_compute; reflexivity|].
  split; [reflexivity|].
  split; [vm_compute; reflexivity|].
  split; [reflexivity|].
  split; [reflexivity|].
  vm_compute. reflexivity.
Qed.

(** C3, amended: in a run over well-placed tiles, if an earlier tile
    claims a pixel (covers it with a positive label) and a later tile
    covers the same pixel with an equal broadcast score, the later tile
    does not overwrite the pixel: label and score of the mosaic there
    are after the later tile what they were before it. *)
Theorem tie_later_tile_never_overwrites (ts : Z) (h w : nat)
    (pre mid : list (raster Z * (Z * Z) * gmap Z Q))
    (tileA tileB : raster Z) (posA posB : Z * Z) (covA covB : gmap Z Q)
    (i j : nat) (vA : Z) (sA sB : Q) :
  Forall (placed ts (h, w))
         ((pre ++ (tileA, posA, covA) :: mid) ++ [(tileB, posB, covB)]) ->
  covers ts posA i j ->
  tile_cell tileA posA i j = Some vA -> 0 < vA ->
  tile_cell (tile_score_map tileA covA) posA i j = Some sA ->
  covers ts posB i j ->
  tile_cell (tile_score_map tileB covB) posB i j = Some sB ->
  (sA == sB)%Q ->
  exists m m',
    recombine ts (empty_mosaic (h, w)) (pre ++ (tileA, posA, covA) :: mid) = Ok m
    /\ recombine ts (empty_mosaic (h, w))
         ((pre ++ (tileA, posA, covA) :: mid) ++ [(tileB, posB, covB)]) = Ok m'
    /\ is_Some (at2 (full_segmentation_mask m) i j)
    /\ at2 (full_segmentation_mask m') i j = at2 (full_segmentation_mask m) i j
    /\ at2 (full_score_map m') i j = at2 (full_score_map m) i j.
Proof.
  intros Hwp HcA HvA HposA HsA HcB HsB Heq.
  set (tA := (tileA, posA, covA)) in *. set (tB := (tileB, posB, covB)) in *.
  apply Forall_app in Hwp. destruct Hwp as [Hfirst HwB].
  inversion HwB as [|? ? HtB _]; subst.
  apply Forall_app in Hfirst. destruct Hfirst as [Hpre HAm].
  inversion HAm as [|? ? HtA Hmid]; subst.
  destruct (recombine_runs ts h w pre (empty_mosaic (h, w))
              (mosaic_rect_empty h w) Hpre) as (m0 & Hrun0 & Hm0).
  destruct (ingest_tile_step ts h w m0 tA Hm0 HtA) as (m1 & HstepA & Hm1 & HpixA).
  destruct (recombine_runs ts h w mid m1 Hm1 Hmid) as (m & Hrun & Hm).
  destruct (ingest_tile_step ts h w m tB Hm HtB) as (m' & HstepB & _ & HpixB).
  exists m, m'.
  assert (Hto_m : recombine ts (empty_mosaic (h, w)) (pre ++ tA :: mid) = Ok m).
  { unfold recombine in *. rewrite foldM_app, Hrun0. cbn [rbind foldM].
    rewrite HstepA. exact Hrun. }
  split; [exact Hto_m|]. split.
  { unfold recombine in *. rewrite foldM_app, Hto_m. cbn [rbind foldM].
    rewrite HstepB. reflexivity. }
  (* the score recorded after the earlier tile, and before the later one *)
  destruct (ingest_tile_score_lower_bound ts h w m0 m1 tA i j vA
              Hm0 HtA HstepA HcA HvA HposA) as (s1 & Hs1 & Hle1).
  destruct (recombine_score_mono ts h w mid m1 m i j s1 Hm1 Hmid Hrun Hs1)
    as (s & Hs & Hle).
  destruct (mosaic_cells h w m i j s Hm Hs) as [l Hl].
  split; [eauto|].
  specialize (HpixB i j l s Hl Hs). cbn [fst snd tB] in HpixB.
  rewrite bool_decide_eq_true_2 in HpixB by exact HcB.
  destruct HpixB as (tv & _ & HsB' & Hl' & Hs').
  rewrite HsB in HsB'. injection HsB' as HsBv.
  (* the earlier tile's score *)
  assert (HsAv : sA = score_of covA vA).
  { destruct HtA as [HrA _]. cbn [fst snd tA] in HrA.
    destruct (tile_score_map_spec tileA covA _ _ HrA) as [_ Hat].
    unfold tile_cell in HsA, HvA. rewrite Hat, HvA in HsA.
    injection HsA as <-. reflexivity. }
  assert (Hgt : Qgtb (score_of covB tv) s = false).
  { apply Qgtb_false. rewrite <- HsBv, <- Heq, HsAv.
    eapply Qle_trans; eassumption. }
  rewrite Hgt in Hl', Hs'. cbn [andb] in Hl', Hs'.
  rewrite Hl, Hs. split; assumption.
Qed.

(** The theorem on the same two tiles. *)
Lemma tie_later_tile_never_overwrites_witness :
  exists m m',
    recombine 2 (empty_mosaic (2%nat, 3%nat)) ([] ++ tile_a :: []) = Ok m
    /\ recombine 2 (empty_mosaic (2%nat, 3%nat))
         (([] ++ tile_a :: []) ++ [tile_b]) = Ok m'
    /\ at2 (full_segmentation_mask m') 0 1 = at2 (full_segmentation_mask m) 0 1.
Proof.
  destruct (tie_later_tile_never_overwrites 2 2 3 [] []
              [[1; 1]; [1; 1]] [[2; 2]; [2; 2]] (0, 0) (0, 1)
              {[ 1 := 2%Q ]} {[ 2 := 2%Q ]} 0 1 1 2%Q 2%Q)
    as (m & m' & Hm & Hm' & _ & Hl & _).
  - solve_placed.
  - unfold covers; cbn; lia.
  - reflexivity.
  - lia.
  - reflexivity.
  - unfold covers; cbn; lia.
  - reflexivity.
  - reflexivity.
  - exists m, m'. repeat split; assumption.
Defined.

(** ** Cropper *)

Lemma py_slice_neg_stop {A} (l : list A) (a b : Z) :
  0 < b <= len l -> py_slice a (- b) l = py_slice a (len l - b) l.
Proof.
  intros Hb.
  assert (Hidx : slice_index (len l) (- b) = slice_index (len l) (len l - b)).
  { unfold slice_index.
    destruct (Z.ltb_spec (- b) 0); destruct (Z.ltb_spec (len l - b) 0); lia. }
  unfold py_slice. rewrite Hidx. reflexivity.
Qed.

Lemma py_slice_from_eq {A} (l : list A) (a : Z) :
  0 <= a <= len l -> py_slice_from a l = py_slice a (len l) l.
Proof.
  intros Ha. unfold py_slice_from, py_slice.
  rewrite !slice_index_in by (unfold len in *; lia).
  rewrite take_ge; [reflexivity|]. rewrite length_drop. unfold len. lia.
Qed.

Lemma Forall_py_slice {A} (P : A -> Prop) (l : list A) (a b : Z) :
  Forall P l -> Forall P (py_slice a b l).
Proof. intros H. unfold py_slice. apply Forall_take, Forall_drop, H. Qed.

(** With non-negative pads that fit and a positive right pad, the crop
    is the central region, of the pre-pad size. *)
Lemma crop_padded_central {A} (self : SegFlow) (p : Padding) (shape : nat * nat)
    (h w : nat) (m : raster A) :
  image_padded self = Some shape -> padding self = Some p ->
  rect h w m ->
  0 <= pad_top p -> 0 <= pad_bottom p -> 0 <= pad_left p -> 0 < pad_right p ->
  pad_top p + pad_bottom p <= Z.of_nat h ->
  pad_left p + pad_right p <= Z.of_nat w ->
  _crop_padded self m
  = Ok (slice2 (pad_top p) (Z.of_nat h - pad_bottom p)
               (pad_left p) (Z.of_nat w - pad_right p) m).
Proof.
  intros Hip Hp Hr Ht Hb Hl Hrt Hh Hw. pose proof Hr as [Hlen Hrows].
  unfold _crop_padded. rewrite Hip, Hp.
  destruct (Z.eqb_spec (pad_right p) 0) as [|_]; [lia|].
  assert (Hcols : forall rows : raster A,
             Forall (fun row => length row = w) rows ->
             py_slice (pad_left p) (- pad_right p) <$> rows
             = py_slice (pad_left p) (Z.of_nat w - pad_right p) <$> rows).
  { intros rows Hrs. apply list_fmap_ext. intros i row Hi.
    pose proof (proj1 (Forall_lookup _ _) Hrs i row Hi) as Hrl. cbv beta in Hrl.
    rewrite py_slice_neg_stop by (unfold len; lia). unfold len. rewrite Hrl.
    reflexivity. }
  f_equal. unfold slice2.
  destruct (Z.eqb_spec (pad_bottom p) 0) as [Hz|Hnz].
  - rewrite Hz, Z.sub_0_r.
    rewrite py_slice_from_eq by (unfold len; lia).
    unfold len. rewrite Hlen. apply Hcols, Forall_py_slice, Hrows.
  - rewrite (py_slice_neg_stop m) by (unfold len; lia).
    unfold len. rewrite Hlen. apply Hcols, Forall_py_slice, Hrows.
Qed.

(** C9, at a right pad of 0.  After [pad_image] with [tile_size = 0]
    and [stride = 1] the four pads are 0 and the crop of a 2 x 2 raster
    has no column; with pads (1, 1, 1, 0) the crop of a 3 x 3 raster
    is one empty row, not its cells [5; 6]. *)
Theorem crop_padded_zero_right_pad :
  padding (pad_image (__init__ 0 1 (7 # 10) (3 # 10) 5) 2 2)
    = Some (mkPadding 0 0 0 0)
  /\ _crop_padded (pad_image (__init__ 0 1 (7 # 10) (3 # 10) 5) 2 2)
       [[1; 2]; [3; 4]] = Ok [[]; []]
  /\ _crop_padded (with_padding (3%nat, 3%nat) (mkPadding 1 1 1 0))
       [[1; 2; 3]; [4; 5; 6]; [7; 8; 9]] = Ok [[]].
Proof. repeat split; reflexivity. Qed.

(** ** Continuous-tile blending *)

Lemma rect_hann_window (hanning : list Q) (window : raster Q) :
  hann_window hanning = Ok window ->
  rect (length hanning) (length hanning) window.
Proof.
  unfold hann_window. destruct (bool_decide _); [discriminate|].
  destruct (Qeq_bool _ _); [discriminate|]. intros [= <-].
  apply rect_map2d. unfold np_outer. split.
  - apply length_fmap.
  - apply Forall_fmap, Forall_forall. intros a _. cbn. apply length_fmap.
Qed.

Lemma Forall_zip_both {A B} (P : A -> Prop) (R : B -> Prop)
    (l : list A) (k : list B) :
  Forall P l -> Forall R k -> Forall (fun t => P t.1 /\ R t.2) (zip l k).
Proof.
  intros Hl. revert k. induction Hl as [|x l Hx Hl IH]; intros k Hk; [constructor|].
  destruct Hk as [|y k Hy Hk]; cbn; constructor; [split; assumption | apply IH, Hk].
Qed.

Section Blend.
Variables (ts : Z) (h w : nat) (window : raster Q) (c : Q).
Hypothesis Hwin : rect (Z.to_nat ts) (Z.to_nat ts) window.

(** One constant tile keeps the accumulated image at [c] times the
    accumulated weight. *)
Lemma blend_tile_step (acc : raster Q * raster Q) (pos : Z * Z) :
  rect h w acc.1 -> rect h w acc.2 ->
  in_bounds ts (h, w) pos ->
  blend_inv c acc ->
  exists acc',
    blend_tile ts window acc (np_zeros c (Z.to_nat ts) (Z.to_nat ts), pos) = Ok acc'
    /\ rect h w acc'.1 /\ rect h w acc'.2 /\ blend_inv c acc'.
Proof.
  destruct acc as [rec wm]. destruct pos as [y x]. cbn [fst snd].
  intros Hrec Hwm Hb Hinv. unfold blend_tile.
  set (tile := np_zeros c (Z.to_nat ts) (Z.to_nat ts)).
  assert (Htile : rect (Z.to_nat ts) (Z.to_nat ts) tile) by apply rect_np_zeros.
  set (iregion := slice2 y (y + ts) x (x + ts) rec).
  set (wregion := slice2 y (y + ts) x (x + ts) wm).
  assert (Hir : rect (Z.to_nat ts) (Z.to_nat ts) iregion)
    by (apply (rect_region ts h w); assumption).
  assert (Hwr : rect (Z.to_nat ts) (Z.to_nat ts) wregion)
    by (apply (rect_region ts h w); assumption).
  rewrite (same_shape_rect _ _ window tile Hwin Htile).
  rewrite (same_shape_rect _ _ window iregion Hwin Hir).
  rewrite (same_shape_rect _ _ window wregion Hwin Hwr). cbn [andb].
  assert (Hni : rect (Z.to_nat ts) (Z.to_nat ts)
                  (zip2d Qplus iregion (zip2d Qmult tile window))).
  { apply rect_zip2d; [exact Hir|]. apply rect_zip2d; assumption. }
  assert (Hnw : rect (Z.to_nat ts) (Z.to_nat ts) (zip2d Qplus wregion window)).
  { apply rect_zip2d; assumption. }
  eexists. split; [reflexivity|]. cbn [fst snd].
  split; [apply rect_set_region; assumption|].
  split; [apply rect_set_region; assumption|].
  intros i j r wv. cbn [fst snd].
  rewrite !(at2_set_region ts h w) by assumption.
  destruct (bool_decide_reflect (covers ts (y, x) i j)) as [Hcov|Hout];
    [|apply Hinv].
  pose proof Hb as (Hts & Hy & _ & Hx & _). cbn in Hy, Hx.
  destruct (covers_cell_lt ts y x i j Hy Hx Hcov) as [Hi' Hj'].
  rewrite !at2_zip2d. unfold iregion, wregion.
  rewrite !(at2_region ts h w) by assumption.
  unfold tile.
  rewrite (at2_np_zeros c _ _ (i - Z.to_nat y) (j - Z.to_nat x) Hi' Hj').
  destruct (at2 rec i j) as [r0|] eqn:Hr0; cbn; [|discriminate].
  destruct (at2 wm i j) as [wv0|] eqn:Hw0; cbn;
    [|destruct (at2 window _ _); discriminate].
  destruct (at2 window (i - Z.to_nat y) (j - Z.to_nat x)) as [wn|]; cbn;
    [|discriminate].
  intros [= <-] [= <-].
  rewrite (Hinv i j r0 wv0 Hr0 Hw0). ring.
Qed.

(** The accumulation loop over constant tiles. *)
Lemma blend_loop_constant (tiles : list (raster Q * (Z * Z))) :
  forall acc,
  rect h w acc.1 -> rect h w acc.2 -> blend_inv c acc ->
  Forall (fun t => t.1 = np_zeros c (Z.to_nat ts) (Z.to_nat ts)
                   /\ in_bounds ts (h, w) t.2) tiles ->
  exists acc',
    foldM (blend_tile ts window) acc tiles = Ok acc'
    /\ rect h w acc'.1 /\ rect h w acc'.2 /\ blend_inv c acc'.
Proof.
  induction tiles as [|[tile pos] rest IH]; intros acc Hrec Hwm Hinv Htiles.
  - exists acc. split; [reflexivity|].
    split; [exact Hrec|]. split; [exact Hwm | exact Hinv].
  - inversion Htiles as [|? ? [Htile Hb] Hrest]; subst. cbn [fst snd] in *. subst tile.
    destruct (blend_tile_step acc pos Hrec Hwm Hb Hinv)
      as (acc1 & Hstep & Hrec1 & Hwm1 & Hinv1).
    destruct (IH acc1 Hrec1 Hwm1 Hinv1 Hrest) as (acc' & Hrun & Hres).
    exists acc'. split; [|exact Hres]. cbn [foldM]. rewrite Hstep. exact Hrun.
Qed.

End Blend.

(** The quotient: [c] where the accumulated weight is not zero, 0 where
    it is. *)
Lemma normalize_constant (c : Q) (rec wm : raster Q) (i j : nat) (wv : Q) :
  blend_inv c (rec, wm) ->
  at2 wm i j = Some wv ->
  forall v, at2 (normalize rec wm) i j = Some v ->
    ((wv == 0)%Q -> (v == 0)%Q) /\ (~ (wv == 0)%Q -> (v == c)%Q).
Proof.
  intros Hinv Hwv v. unfold normalize. rewrite at2_zip2d, at2_map2d, Hwv.
  destruct (at2 rec i j) as [r|] eqn:Hr; cbn; [|discriminate].
  intros [= <-]. pose proof (Hinv i j r wv Hr Hwv) as Heq. cbn in Heq.
  destruct (Qeq_bool wv 0) eqn:Hz.
  - apply Qeq_bool_iff in Hz. split; [|intros Hnz; contradiction].
    intros _. rewrite Heq, Hz. unfold Qdiv. ring.
  - apply Qeq_bool_neq in Hz. split; [intros Hzero; contradiction|].
    intros _. rewrite Heq. apply Qdiv_mult_l. exact Hz.
Qed.

Lemma at2_np_zeros_inv {A} (z v : A) (h w i j : nat) :
  at2 (np_zeros z h w) i j = Some v -> v = z.
Proof.
  intros Hv.
  destruct (at2_Some_lt h w _ i j v (rect_np_zeros z h w) Hv) as [Hi Hj].
  rewrite at2_np_zeros in Hv by assumption. congruence.
Qed.

(** C8, amended: stitching constant tiles of value [c] through
    [combine_continuous_tiles] returns a raster of the pre-pad size
    whose value at a pixel is (in exact arithmetic) [c] where the
    accumulated window weight is not zero, and 0 where it is zero. *)
Theorem blend_constant_image (self : SegFlow) (hanning : list Q)
    (window : raster Q) (tiles : list (raster Q)) (c : Q) (h w : nat)
    (p : Padding) (pos : list (Z * Z)) :
  image_padded self = Some (h, w) ->
  positions self = Some pos ->
  padding self = Some p ->
  pads_fit p (h, w) ->
  len hanning = tile_size self ->
  hann_window hanning = Ok window ->
  tiles <> [] ->
  Forall (in_bounds (tile_size self) (h, w)) pos ->
  Forall (fun tile => tile = np_zeros c (Z.to_nat (tile_size self))
                                        (Z.to_nat (tile_size self))) tiles ->
  exists acc out,
    blend_loop (tile_size self) window (h, w) (zip tiles pos) = Ok acc
    /\ combine_continuous_tiles self hanning tiles = Ok out
    /\ rect (Z.to_nat (Z.of_nat h - pad_bottom p - pad_top p))
            (Z.to_nat (Z.of_nat w - pad_right p - pad_left p)) out
    /\ forall i j,
         (i < Z.to_nat (Z.of_nat h - pad_bottom p - pad_top p))%nat ->
         (j < Z.to_nat (Z.of_nat w - pad_right p - pad_left p))%nat ->
         exists v wv,
           at2 out i j = Some v
           /\ at2 acc.2 (Z.to_nat (pad_top p) + i) (Z.to_nat (pad_left p) + j)
              = Some wv
           /\ ((wv == 0)%Q -> (v == 0)%Q)
           /\ (~ (wv == 0)%Q -> (v == c)%Q).
Proof.
  intros Hip Hpos Hp (Ht & Hb & Hl & Hr & Hh & Hw) Hlen Hwindow Hne Hin Htiles.
  cbn [fst snd] in Hh, Hw.
  set (ts := tile_size self) in *.
  assert (Hwin : rect (Z.to_nat ts) (Z.to_nat ts) window).
  { replace (Z.to_nat ts) with (length hanning) by (unfold len in Hlen; lia).
    apply rect_hann_window, Hwindow. }
  destruct (blend_loop_constant ts h w window c Hwin
              (zip tiles pos) (np_zeros 0%Q h w, np_zeros 0%Q h w))
    as ([rec wm] & Hrun & Hrec & Hwm & Hinv).
  - apply rect_np_zeros.
  - apply rect_np_zeros.
  - intros i j r wv Hr0 Hw0. cbn [fst snd] in Hr0, Hw0.
    apply at2_np_zeros_inv in Hr0, Hw0. subst. ring.
  - exact (Forall_zip_both
             (fun tile => tile = np_zeros c (Z.to_nat ts) (Z.to_nat ts))
             (in_bounds ts (h, w)) tiles pos Htiles Hin).
  - cbn [fst snd] in Hrec, Hwm.
    assert (Hnorm : rect h w (normalize rec wm)).
    { unfold normalize. apply rect_zip2d; [exact Hrec | apply rect_map2d, Hwm]. }
    exists (rec, wm). eexists. split; [exact Hrun|]. split.
    { unfold combine_continuous_tiles. rewrite Hip.
      rewrite bool_decide_eq_false_2 by exact Hne.
      rewrite Hwindow. cbn [rbind]. rewrite Hpos.
      fold ts. unfold blend_loop. cbn [fst snd]. rewrite Hrun. cbn [rbind fst snd].
      apply (crop_padded_central self p (h, w) h w); assumption. }
    split.
    { apply (rect_slice2 h w); [exact Hnorm | lia..]. }
    intros i j Hi Hj. cbn [fst snd].
    rewrite (at2_slice2 h w) by (try exact Hnorm; lia).
    destruct (at2_is_Some h w (normalize rec wm)
                (Z.to_nat (pad_top p) + i) (Z.to_nat (pad_left p) + j) Hnorm)
      as [v Hv]; [lia..|].
    destruct (at2_is_Some h w wm
                (Z.to_nat (pad_top p) + i) (Z.to_nat (pad_left p) + j) Hwm)
      as [wv Hwv]; [lia..|].
    exists v, wv. split; [exact Hv|]. split; [exact Hwv|].
    exact (normalize_constant c rec wm _ _ wv Hinv Hwv v Hv).
Qed.

(** The theorem on nine constant tiles of a 7 x 7 padded image. *)
Lemma blend_constant_image_witness :
  exists out,
    combine_continuous_tiles blend_self [0; 1; 0]%Q
      (replicate 9 (np_zeros 5%Q 3 3)) = Ok out
    /\ rect 3 3 out.
Proof.
  destruct (blend_constant_image blend_self [0; 1; 0]%Q
              [[0; 0; 0]; [0; 1; 0]; [0; 0; 0]]%Q
              (replicate 9 (np_zeros 5%Q 3 3)) 5%Q 7 7 (mkPadding 2 2 2 2)
              [(0, 0); (0, 2); (0, 4); (2, 0); (2, 2); (2, 4);
               (4, 0); (4, 2); (4, 4)])
    as (acc & out & _ & Hout & Hrect & _).
  - reflexivity.
  - reflexivity.
  - reflexivity.
  - unfold pads_fit; cbn; lia.
  - reflexivity.
  - vm_compute. reflexivity.
  - discriminate.
  - repeat (constructor; [solve_in_bounds|]); constructor.
  - repeat (constructor; [reflexivity|]); constructor.
  - exists out. split; [exact Hout | exact Hrect].
Defined.

(** C8 fails where the accumulated weight is zero: with [tile_size = 3]
    and [stride = 2] neighbouring tiles overlap by one row, on which
    the window [np.hanning(3) = [0, 1, 0]] is 0 in both; a 3 x 3 image
    of constant value 5 is stitched to 5 at its centre and 0 elsewhere. *)
Lemma blend_constant_zero_weight :
  extract_tiles (pad_image (__init__ 3 2 (7 # 10) (3 # 10) 5) 3 3) = Ok blend_self
  /\ exists out,
       combine_continuous_tiles blend_self [0; 1; 0]%Q
         (replicate 9 (np_zeros 5%Q 3 3)) = Ok out
       /\ map2d Qred out = [[0; 0; 0]; [0; 5; 0]; [0; 0; 0]]%Q
       /\ exists v, at2 out 0 0 = Some v /\ ~ (v == 5)%Q.
Proof.
  split; [vm_compute; reflexivity|].
  eexists. split; [vm_compute; reflexivity|].
  split; [vm_compute; reflexivity|].
  eexists. split; [reflexivity|]. intros H. vm_compute in H. discriminate.
Qed.

(** ** The [area] property *)

Module AreaProps.
Import SegmentationImage.

(** Neither operand of the comparison is bound in the scope of the
    loop body: the first one loaded raises. *)
Lemma curr_area_expr_raises (self : t) (region : Z) :
  curr_area_expr (area_scope self region) = Err (NameError "labeled_image").
Proof. reflexivity. Qed.

Lemma regionprops_positive (a : raster Z) (r : Z) :
  r ∈ regionprops a <-> 0 < r /\ r ∈ ravel a.
Proof.
  unfold regionprops. rewrite list_elem_of_filter, elem_of_np_unique. reflexivity.
Qed.

(** The loop raises at its first region. *)
Lemma calculate_area_raises (self : t) (l : Z) :
  _area_cache self = None ->
  0 < l -> l ∈ ravel (data self) ->
  _calculate_area self = Err (NameError "labeled_image").
Proof.
  intros Hcache Hpos Hin. unfold _calculate_area. rewrite Hcache.
  assert (Hl : l ∈ regionprops (data self)) by (apply regionprops_positive; auto).
  destruct (regionprops (data self)) as [|r rest] eqn:Hreg.
  - apply elem_of_nil in Hl. contradiction.
  - assert (Hr : 0 < r).
    { apply (regionprops_positive (data self)). rewrite Hreg. left. }
    cbn [foldM]. rewrite bool_decide_eq_true_2 by lia.
    rewrite curr_area_expr_raises. reflexivity.
Qed.

(** C10: reading [area] of a freshly built [SegmentationImage] that
    holds an instance label (a positive one, the labels [regionprops]
    reports) raises [NameError] on [labeled_image]; no mapping is
    returned. *)
Theorem area_raises_NameError (input_array : raster Z) (l : Z) :
  0 < l -> l ∈ ravel input_array ->
  area (__new__ input_array) = Err (NameError "labeled_image").
Proof.
  intros Hpos Hin. unfold area. cbn [_area_cache __new__].
  rewrite (calculate_area_raises (__new__ input_array) l); auto.
Qed.

(** The theorem on a 2 x 2 image with label 3. *)
Lemma area_raises_NameError_witness :
  area (__new__ [[0; 3]; [3; 0]]) = Err (NameError "labeled_image").
Proof.
  apply (area_raises_NameError [[0; 3]; [3; 0]] 3).
  - lia.
  - cbn. set_solver.
Defined.

(** Without an instance label the loop body never runs and the empty
    mapping is returned and cached. *)
Lemma area_of_background :
  match area (__new__ [[0; 0]; [0; 0]]) with
  | Ok (_, Some m) => m = ∅
  | _ => False
  end.
Proof. vm_compute. reflexivity. Qed.

End AreaProps.

(** * Further properties *)

(** ** Batched prediction *)

(** A slice that starts inside the list and may end past it. *)
Lemma py_slice_from_inside {A} (l : list A) (a n : Z) :
  0 <= a <= len l -> 0 <= n ->
  py_slice a (a + n) l = take (Z.to_nat n) (drop (Z.to_nat a) l).
Proof.
  intros Ha Hn. unfold py_slice, slice_index. unfold len in *.
  destruct (Z.ltb_spec a 0); [lia|].
  destruct (Z.ltb_spec (a + n) 0); [lia|].
  replace (Z.max 0 (Z.min (Z.of_nat (length l)) a)) with a by lia.
  destruct (Z.le_gt_cases (a + n) (Z.of_nat (length l))) as [Hin|Hout].
  - replace (Z.max 0 (Z.min (Z.of_nat (length l)) (a + n))) with (a + n) by lia.
    f_equal. lia.
  - replace (Z.max 0 (Z.min (Z.of_nat (length l)) (a + n)))
      with (Z.of_nat (length l)) by lia.
    rewrite !take_ge; [reflexivity | rewrite length_drop; lia..].
Qed.

Lemma py_range_0 (stop step : Z) :
  py_range 0 stop step
  = (fun k : nat => Z.of_nat k * step)
      <$> seq 0 (Z.to_nat (range_len 0 stop step)).
Proof. unfold py_range. apply list_fmap_ext. intros i k _. lia. Qed.

(** The first [k] batches make up the first [k * batch_size] tiles. *)
Lemma batches_prefix {T} (tiles : list T) (bs : Z) (k : nat) :
  0 < bs -> Z.of_nat k * bs < len tiles + bs ->
  mjoin ((fun i => py_slice i (i + bs) tiles)
           <$> ((fun j : nat => Z.of_nat j * bs) <$> seq 0 k))
  = take (Z.to_nat (Z.of_nat k * bs)) tiles.
Proof.
  intros Hbs. induction k as [|k IH]; intros Hk; [reflexivity|].
  rewrite seq_S, !fmap_app, join_app, IH by lia. cbn [fmap list_fmap mjoin list_join].
  rewrite app_nil_r, py_slice_from_inside by (unfold len in *; lia).
  rewrite take_take_drop. f_equal. lia.
Qed.

Lemma range_len_pos (n bs : Z) :
  0 < bs -> 0 <= n ->
  let k := range_len 0 n bs in
  0 <= k /\ n <= k * bs /\ k * bs < n + bs.
Proof.
  intros Hbs Hn. unfold range_len. cbn zeta.
  rewrite (proj2 (Z.ltb_lt 0 bs) Hbs).
  destruct (Z.ltb_spec 0 n) as [Hpos|Hz]; [|lia].
  pose proof (Z.mul_div_le (n - 0 - 1) bs Hbs).
  pose proof (Z.mul_succ_div_gt (n - 0 - 1) bs Hbs).
  assert (0 <= (n - 0 - 1) / bs) by (apply Z.div_pos; lia).
  nia.
Qed.

Lemma batches_join {T} (tiles : list T) (bs : Z) :
  0 < bs -> mjoin (batches tiles bs) = tiles.
Proof.
  intros Hbs. unfold batches. rewrite py_range_0.
  pose proof (range_len_pos (len tiles) bs Hbs ltac:(unfold len; lia))
    as (Hk0 & Hk1 & Hk2). cbn zeta in *.
  rewrite batches_prefix by (rewrite ?Z2Nat.id; lia).
  apply take_ge. unfold len in *. rewrite Z2Nat.id by lia. lia.
Qed.

Lemma batches_sizes {T} (tiles : list T) (bs : Z) :
  0 < bs -> Forall (fun b => 1 <= len b <= bs) (batches tiles bs).
Proof.
  intros Hbs. unfold batches. apply Forall_fmap, Forall_forall. intros i Hi. cbn.
  rewrite py_range_0 in Hi. apply list_elem_of_fmap in Hi.
  destruct Hi as (j & -> & Hj). apply elem_of_seq in Hj.
  pose proof (range_len_pos (len tiles) bs Hbs ltac:(unfold len; lia))
    as (Hk0 & Hk1 & Hk2). cbn zeta in *.
  assert (Hlt : Z.of_nat j * bs < len tiles) by nia.
  rewrite py_slice_from_inside by (unfold len in *; lia).
  unfold len in *. rewrite length_take, length_drop. lia.
Qed.

Lemma join_fmap_fmap {A B} (f : A -> B) (ls : list (list A)) :
  mjoin (fmap (fmap f) ls) = f <$> mjoin ls.
Proof.
  induction ls as [|l ls IH]; [reflexivity|].
  cbn [fmap list_fmap mjoin list_join]. rewrite fmap_app. f_equal. exact IH.
Qed.

(** X1.  With a positive batch size every tile goes to the predictor once,
    in order, in batches of 1 to [batch_size] tiles; a predictor that
    works tile by tile gives the result of predicting all at once. *)
Theorem run_segmentation_batches {T P} (tiles : list T)
    (predict : list T -> list P) (batch_size : Z) :
  0 < batch_size ->
  run_segmentation tiles predict batch_size
  = Ok (mjoin (predict <$> batches tiles batch_size))
  /\ mjoin (batches tiles batch_size) = tiles
  /\ Forall (fun b => 1 <= len b <= batch_size) (batches tiles batch_size)
  /\ forall f : T -> P,
       (forall b, predict b = f <$> b) ->
       run_segmentation tiles predict batch_size = Ok (f <$> tiles).
Proof.
  intros Hbs.
  assert (Hrun : run_segmentation tiles predict batch_size
                 = Ok (mjoin (predict <$> batches tiles batch_size))).
  { unfold run_segmentation. destruct (Z.eqb_spec batch_size 0); [lia|reflexivity]. }
  split; [exact Hrun|]. split; [apply batches_join, Hbs|].
  split; [apply batches_sizes, Hbs|].
  intros f Hf. rewrite Hrun. f_equal.
  rewrite (list_fmap_ext predict (fmap f) (batches tiles batch_size))
    by (intros; apply Hf).
  rewrite join_fmap_fmap, batches_join by exact Hbs. reflexivity.
Qed.

Lemma run_segmentation_batches_witness :
  run_segmentation [1; 2; 3; 4; 5] (fmap Z.succ) 2 = Ok [2; 3; 4; 5; 6]
  /\ batches [1; 2; 3; 4; 5] 2 = [[1; 2]; [3; 4]; [5]].
Proof.
  split; [|reflexivity].
  destruct (run_segmentation_batches [1; 2; 3; 4; 5] (fmap Z.succ) 2)
    as (_ & _ & _ & Hmap); [lia|].
  apply (Hmap Z.succ). reflexivity.
Defined.

(** X2.  A negative batch size runs no batch: the result is empty, whatever
    the tiles. *)
Theorem run_segmentation_negative_batch {T P} (tiles : list T)
    (predict : list T -> list P) (batch_size : Z) :
  batch_size < 0 -> run_segmentation tiles predict batch_size = Ok [].
Proof.
  intros Hbs. unfold run_segmentation, batches, py_range, range_len.
  destruct (Z.eqb_spec batch_size 0); [lia|].
  destruct (Z.ltb_spec 0 batch_size); [lia|].
  destruct (Z.ltb_spec (len tiles) 0); [unfold len in *; lia|].
  reflexivity.
Qed.

Lemma run_segmentation_negative_batch_witness :
  run_segmentation [1; 2; 3] (fmap Z.succ) (-2) = Ok [].
Proof. apply run_segmentation_negative_batch. lia. Defined.

(** ** Rasters, cell by cell *)

Lemma raster_ext {A} (h w : nat) (a b : raster A) :
  rect h w a -> rect h w b ->
  (forall i j, (i < h)%nat -> (j < w)%nat -> at2 a i j = at2 b i j) ->
  a = b.
Proof.
  intros Ha Hb Hcells. apply list_eq. intros i.
  destruct (decide (i < h)%nat) as [Hi|Hi].
  - destruct (rect_lookup_lt h w a i Ha Hi) as (ra & Hra & Hla).
    destruct (rect_lookup_lt h w b i Hb Hi) as (rb & Hrb & Hlb).
    rewrite Hra, Hrb. f_equal. apply list_eq. intros j.
    destruct (decide (j < w)%nat) as [Hj|Hj].
    + specialize (Hcells i j Hi Hj). unfold at2 in Hcells.
      rewrite Hra, Hrb in Hcells. exact Hcells.
    + rewrite !lookup_ge_None_2 by lia. reflexivity.
  - destruct Ha as [Hla _], Hb as [Hlb _].
    rewrite !lookup_ge_None_2 by lia. reflexivity.
Qed.

(** ** The stride grid *)

Lemma elem_of_py_range_iff (stop step y : Z) :
  0 < step ->
  y ∈ py_range 0 stop step <-> exists k, 0 <= k /\ y = k * step /\ y < stop.
Proof.
  intros Hstep. unfold py_range, range_len.
  rewrite (proj2 (Z.ltb_lt 0 step) Hstep). split.
  - intros Hy. apply list_elem_of_fmap in Hy. destruct Hy as (k & -> & Hk).
    apply elem_of_seq in Hk. exists (Z.of_nat k).
    split; [lia|]. split; [lia|].
    destruct (Z.ltb_spec 0 stop) as [Hpos|Hneg]; [|cbn in Hk; lia].
    pose proof (Z.mul_div_le (stop - 0 - 1) step Hstep).
    assert (0 <= (stop - 0 - 1) / step) by (apply Z.div_pos; lia). nia.
  - intros (k & Hk & -> & Hlt). apply list_elem_of_fmap.
    exists (Z.to_nat k). split; [lia|]. apply elem_of_seq.
    destruct (Z.ltb_spec 0 stop) as [Hpos|Hneg]; [|nia].
    assert (k <= (stop - 0 - 1) / step) by (apply Z.div_le_lower_bound; lia).
    lia.
Qed.

(** A pixel before [n - (n - tile_size) mod stride] lies in a tile of
    the grid. *)
Lemma grid_starts_reach (n ts st i : Z) :
  0 < st <= ts -> ts <= n -> 0 <= i < n - (n - ts) mod st ->
  exists y, y ∈ grid_starts n ts st /\ y <= i < y + ts.
Proof.
  intros Hst Hn Hi. unfold grid_starts.
  pose proof (Z.mod_pos_bound (n - ts) st ltac:(lia)) as Hr.
  pose proof (Z.div_mod (n - ts) st ltac:(lia)) as Hdm.
  assert (HK : 0 <= (n - ts) / st) by (apply Z.div_pos; lia).
  pose proof (Z.div_mod i st ltac:(lia)) as Hidm.
  pose proof (Z.mod_pos_bound i st ltac:(lia)) as Him.
  assert (0 <= i / st) by (apply Z.div_pos; lia).
  destruct (Z.le_gt_cases (i / st) ((n - ts) / st)) as [Hle|Hgt].
  - assert (i / st * st <= (n - ts) / st * st)
      by (apply Z.mul_le_mono_nonneg_r; lia).
    exists (i / st * st). split; [|lia].
    apply elem_of_py_range_iff; [lia|]. exists (i / st).
    split; [lia|]. split; [reflexivity | lia].
  - assert (((n - ts) / st + 1) * st <= i / st * st)
      by (apply Z.mul_le_mono_nonneg_r; lia).
    exists ((n - ts) / st * st). split; [|lia].
    apply elem_of_py_range_iff; [lia|]. exists ((n - ts) / st).
    split; [lia|]. split; [reflexivity | lia].
Qed.

(** X3.  Along an axis of [n] pixels, with a stride that is at most the tile
    size, the tiles of the grid cover exactly the pixels before
    [n - (n - tile_size) mod stride]: all but the last
    [(n - tile_size) mod stride]. *)
Theorem grid_starts_cover (n ts st i : Z) :
  0 < st <= ts -> ts <= n ->
  (exists y, y ∈ grid_starts n ts st /\ y <= i < y + ts)
  <-> 0 <= i < n - (n - ts) mod st.
Proof.
  intros Hst Hn. split; [|apply grid_starts_reach; assumption].
  intros (y & Hy & Hi). unfold grid_starts in Hy.
  apply elem_of_py_range_iff in Hy; [|lia].
  destruct Hy as (k & Hk & -> & Hlt).
  pose proof (Z.div_mod (n - ts) st ltac:(lia)) as Hdm.
  assert (k <= (n - ts) / st) by (apply Z.div_le_lower_bound; lia).
  nia.
Qed.

Lemma grid_starts_cover_witness :
  (exists y, y ∈ grid_starts 30 13 9 /\ y <= 21 < y + 13)
  /\ ~ (exists y, y ∈ grid_starts 30 13 9 /\ y <= 22 < y + 13).
Proof.
  split.
  - apply (grid_starts_cover 30 13 9 21); [lia | lia |].
    change ((30 - 13) mod 9) with 8. lia.
  - intros H. apply (grid_starts_cover 30 13 9 22) in H; [|lia|lia].
    change ((30 - 13) mod 9) with 8 in H. lia.
Defined.

Lemma length_py_range_0 (stop step : Z) :
  0 < step -> 0 < stop ->
  len (py_range 0 stop step) = (stop - 1) / step + 1.
Proof.
  intros Hstep Hstop. unfold py_range, len, range_len.
  rewrite length_fmap, length_seq.
  rewrite (proj2 (Z.ltb_lt 0 step) Hstep), (proj2 (Z.ltb_lt 0 stop) Hstop).
  assert (0 <= (stop - 0 - 1) / step) by (apply Z.div_pos; lia).
  rewrite Z2Nat.id by lia. f_equal. f_equal. lia.
Qed.

Lemma length_bind_const {A B} (f : A -> list B) (l : list A) (n : nat) :
  (forall x, length (f x) = n) -> length (l ≫= f) = (length l * n)%nat.
Proof.
  intros Hf. induction l as [|x l IH]; [reflexivity|].
  cbn. rewrite length_app, Hf, IH. lia.
Qed.

(** X4.  On an image at least as large as a tile, [_extract_tiles] returns
    one tile for every pair of grid offsets; each has the tile shape,
    starts at multiples of the stride, lies within the image, and its
    cell (i, j) is the image's cell at (y + i, x + j). *)
Theorem extract_tiles_grid {A} (image : raster A) (h w : nat) (ts st : Z) :
  rect h w image -> 0 < st -> 0 < ts <= Z.of_nat h -> ts <= Z.of_nat w ->
  exists extracted,
    _extract_tiles image ts st = Ok extracted
    /\ len extracted
       = ((Z.of_nat h - ts) / st + 1) * ((Z.of_nat w - ts) / st + 1)
    /\ Forall (fun t =>
                 rect (Z.to_nat ts) (Z.to_nat ts) t.1
                 /\ in_bounds ts (h, w) t.2
                 /\ t.2.1 mod st = 0 /\ t.2.2 mod st = 0
                 /\ forall i j, (i < Z.to_nat ts)%nat -> (j < Z.to_nat ts)%nat ->
                      at2 t.1 i j
                      = at2 image (Z.to_nat t.2.1 + i) (Z.to_nat t.2.2 + j))
              extracted.
Proof.
  intros Hr Hst Hts Hw. unfold _extract_tiles.
  destruct (Z.eqb_spec st 0) as [|_]; [lia|].
  assert (Hh : len image = Z.of_nat h) by (destruct Hr as [<- _]; reflexivity).
  assert (Hwd : width image = w) by (apply (rect_width h w); [exact Hr | lia]).
  rewrite Hh, Hwd.
  eexists. split; [reflexivity|]. split.
  - unfold len.
    rewrite (length_bind_const _ _
               (length (grid_starts (Z.of_nat w) ts st))).
    + rewrite Nat2Z.inj_mul. unfold grid_starts.
      fold (len (py_range 0 (Z.of_nat h - ts + 1) st)).
      fold (len (py_range 0 (Z.of_nat w - ts + 1) st)).
      rewrite !length_py_range_0 by lia.
      replace (Z.of_nat h - ts + 1 - 1) with (Z.of_nat h - ts) by lia.
      replace (Z.of_nat w - ts + 1 - 1) with (Z.of_nat w - ts) by lia.
      reflexivity.
    + intros y. rewrite (length_bind_const _ _ 1%nat) by reflexivity. lia.
  - apply Forall_forall. intros t Ht.
    apply list_elem_of_bind in Ht. destruct Ht as (y & Ht & Hy).
    apply list_elem_of_bind in Ht. destruct Ht as (x & Ht & Hx).
    apply list_elem_of_singleton in Ht. subst t. cbn [fst snd].
    unfold grid_starts in Hy, Hx.
    apply elem_of_py_range_iff in Hy; [|exact Hst].
    apply elem_of_py_range_iff in Hx; [|exact Hst].
    destruct Hy as (ky & Hky & -> & Hylt). destruct Hx as (kx & Hkx & -> & Hxlt).
    assert (Hb : in_bounds ts (h, w) (ky * st, kx * st))
      by (unfold in_bounds; cbn; nia).
    split; [apply (rect_region ts h w); [exact Hr | exact Hb]|].
    split; [exact Hb|].
    split; [apply Z_mod_mult|]. split; [apply Z_mod_mult|].
    intros i j Hi Hj.
    apply (at2_slice2 h w); [exact Hr | nia | nia | nia | nia | lia | lia].
Qed.

Lemma extract_tiles_grid_witness :
  exists extracted,
    _extract_tiles [[1; 2; 3]; [4; 5; 6]; [7; 8; 9]] 2 1 = Ok extracted
    /\ len extracted = 4.
Proof.
  destruct (extract_tiles_grid [[1; 2; 3]; [4; 5; 6]; [7; 8; 9]] 3 3 2 1)
    as (extracted & Hx & Hlen & _);
    [split; [reflexivity | repeat constructor] | lia | lia | lia |].
  exists extracted. split; [exact Hx | exact Hlen].
Defined.

(** ** The pad amounts *)

(** The split of the total pad of an axis. *)
Lemma pad_total_split (ts st S : Z) :
  0 < ts -> 0 < st ->
  let total := pad_total ts st S in
  ts <= total < ts + st
  /\ 0 <= total / 2 <= total - total / 2
  /\ total - total / 2 <= total / 2 + 1
  /\ 0 < total - total / 2.
Proof.
  intros Hts Hst. cbn zeta. unfold pad_total.
  pose proof (Z.mod_pos_bound (ts - (S - ts) mod st) st Hst) as Hm.
  set (total := ts + (ts - (S - ts) mod st) mod st) in *.
  pose proof (Z.div_mod total 2 ltac:(lia)) as Hdm.
  pose proof (Z.mod_pos_bound total 2 ltac:(lia)) as H2.
  lia.
Qed.

(** X5.  With a positive tile size and stride, [pad_image] pads every side
    by a non-negative amount, the bottom and the right by at least one
    pixel and by at most one more than the top and the left; the two
    pads of an axis add up to at least the tile size and less than the
    tile size plus the stride. *)
Theorem pad_image_pads (self : SegFlow) (height width : Z) :
  0 < tile_size self -> 0 < stride self ->
  exists p,
    padding (pad_image self height width) = Some p
    /\ 0 <= pad_top p <= pad_bottom p /\ pad_bottom p <= pad_top p + 1
    /\ 0 < pad_bottom p
    /\ 0 <= pad_left p <= pad_right p /\ pad_right p <= pad_left p + 1
    /\ 0 < pad_right p
    /\ tile_size self <= pad_top p + pad_bottom p < tile_size self + stride self
    /\ tile_size self <= pad_left p + pad_right p < tile_size self + stride self.
Proof.
  intros Hts Hst. eexists. split; [reflexivity|]. cbn [pad_top pad_bottom pad_left pad_right].
  pose proof (pad_total_split (tile_size self) (stride self) height Hts Hst) as Hh.
  pose proof (pad_total_split (tile_size self) (stride self) width Hts Hst) as Hw.
  cbn zeta in Hh, Hw. lia.
Qed.

Lemma pad_image_pads_witness :
  exists p,
    padding (pad_image (__init__ 512 256 (7 # 10) (3 # 10) 5) 1000 700) = Some p
    /\ 0 < pad_bottom p /\ 0 < pad_right p.
Proof.
  destruct (pad_image_pads (__init__ 512 256 (7 # 10) (3 # 10) 5) 1000 700)
    as (p & Hp & _ & _ & Hb & _ & _ & Hr & _); [cbn; lia | cbn; lia |].
  exists p. split; [exact Hp|]. split; [exact Hb | exact Hr].
Defined.

(** ** Coverage of the image by the tiles *)

Lemma elem_of_extract_positions {A} (image : raster A) (ts st y x : Z) extracted :
  _extract_tiles image ts st = Ok extracted ->
  y ∈ grid_starts (len image) ts st ->
  x ∈ grid_starts (Z.of_nat (width image)) ts st ->
  (y, x) ∈ extracted.*2.
Proof.
  unfold _extract_tiles. destruct (st =? 0); [discriminate|]. intros [= <-] Hy Hx.
  apply list_elem_of_fmap.
  exists (slice2 y (y + ts) x (x + ts) image, (y, x)). split; [reflexivity|].
  apply list_elem_of_bind. exists y. split; [|exact Hy].
  apply list_elem_of_bind. exists x. split; [|exact Hx].
  apply list_elem_of_singleton. reflexivity.
Qed.

(** X6.  After [pad_image] and [extract_tiles] on an image of at least one
    row and one column, with a stride of at most half the tile size
    (rounded up), every pixel of the image lies in a tile: for each
    pixel of the padded image within the image's area some position of
    the grid covers it. *)
Theorem pad_image_tiles_cover_image (self : SegFlow) (height width : Z) :
  positions self = None ->
  0 < stride self -> 2 * stride self <= tile_size self + 1 ->
  0 < height -> 0 < width ->
  exists self' pos p,
    extract_tiles (pad_image self height width) = Ok self'
    /\ positions self' = Some pos
    /\ padding self' = Some p
    /\ forall i j : nat,
         pad_top p <= Z.of_nat i < pad_top p + height ->
         pad_left p <= Z.of_nat j < pad_left p + width ->
         Exists (fun q => covers (tile_size self) q i j) pos.
Proof.
  intros Hpos Hst H2 Hh Hw.
  assert (Hts : 0 < tile_size self) by lia.
  pose proof (pad_total_split (tile_size self) (stride self) height Hts Hst) as Hph.
  pose proof (pad_total_split (tile_size self) (stride self) width Hts Hst) as Hpw.
  pose proof (pad_total_residue (tile_size self) (stride self) height Hst) as Hrh.
  pose proof (pad_total_residue (tile_size self) (stride self) width Hst) as Hrw.
  cbn zeta in Hph, Hpw.
  set (th := pad_total (tile_size self) (stride self) height) in *.
  set (tw := pad_total (tile_size self) (stride self) width) in *.
  unfold extract_tiles.
  change (positions (pad_image self height width)) with (positions self).
  rewrite Hpos.
  cbn [image_padded pad_image fst snd tile_size stride].
  fold th tw.
  set (H := Z.to_nat (th / 2 + height + (th - th / 2))).
  set (W := Z.to_nat (tw / 2 + width + (tw - tw / 2))).
  destruct (_extract_tiles (np_zeros 0 H W) (tile_size self) (stride self))
    as [extracted|e] eqn:Hx.
  2:{ unfold _extract_tiles in Hx. destruct (Z.eqb_spec (stride self) 0); [lia|discriminate]. }
  cbn [rbind].
  eexists _, _, _. split; [reflexivity|]. cbn [positions padding].
  split; [reflexivity|]. split; [reflexivity|].
  cbn [pad_top pad_left]. fold th tw. intros i j Hi Hj.
  pose proof (rect_np_zeros 0 H W) as Hrz.
  assert (HH : (0 < H)%nat) by (unfold H; lia).
  assert (Hlen : len (np_zeros 0 H W) = Z.of_nat H)
    by (destruct Hrz as [Hl _]; unfold len; rewrite Hl; reflexivity).
  assert (Hwid : NumPy.width (np_zeros 0 H W) = W)
    by (apply (rect_width H W); assumption).
  pose proof (Z.mod_pos_bound (2 * tile_size self) (stride self) Hst) as Hr2.
  destruct (grid_starts_reach (Z.of_nat H) (tile_size self) (stride self) (Z.of_nat i))
    as (y & Hy & Hyi).
  { lia. } { unfold H. lia. }
  { unfold H. rewrite Z2Nat.id by lia.
    replace (th / 2 + height + (th - th / 2) - tile_size self)
      with (th + height - tile_size self) by lia.
    rewrite Hrh. lia. }
  destruct (grid_starts_reach (Z.of_nat W) (tile_size self) (stride self) (Z.of_nat j))
    as (x & Hxg & Hxj).
  { lia. } { unfold W. lia. }
  { unfold W. rewrite Z2Nat.id by lia.
    replace (tw / 2 + width + (tw - tw / 2) - tile_size self)
      with (tw + width - tile_size self) by lia.
    rewrite Hrw. lia. }
  apply Exists_exists. exists (y, x). split.
  - apply (elem_of_extract_positions _ _ _ _ _ _ Hx).
    + rewrite Hlen. exact Hy.
    + rewrite Hwid. exact Hxg.
  - unfold covers. cbn [fst snd]. lia.
Qed.

Lemma pad_image_tiles_cover_image_witness :
  exists self' pos,
    extract_tiles (pad_image (__init__ 4 2 (7 # 10) (3 # 10) 5) 5 3) = Ok self'
    /\ positions self' = Some pos
    /\ Exists (fun q => covers 4 q 6 4) pos.
Proof.
  destruct (pad_image_tiles_cover_image (__init__ 4 2 (7 # 10) (3 # 10) 5) 5 3)
    as (self' & pos & p & Hx & Hpos & Hp & Hcov);
    [reflexivity | cbn; lia | cbn; lia | lia | lia |].
  exists self', pos. split; [exact Hx|]. split; [exact Hpos|].
  vm_compute in Hx. injection Hx as <-. injection Hp as <-.
  apply (Hcov 6%nat 4%nat); cbn; lia.
Defined.

(** ** Padding and cropping *)

Section Pad.
Context {A : Type}.
Variables (border : nat -> nat -> A) (top bottom left right : Z).
Variables (h w : nat) (image padded : raster A).
Hypothesis Hr : rect h w image.
Hypothesis Hh : (0 < h)%nat.
Hypothesis Hpads : 0 <= top /\ 0 <= bottom /\ 0 <= left /\ 0 <= right.
Hypothesis Hpad : np_pad border top bottom left right image = Ok padded.

Lemma np_pad_eq :
  padded
  = fmap (fun i => fmap (border i) (seq 0 (Z.to_nat left + w + Z.to_nat right)))
         (seq 0 (Z.to_nat top))
    ++ imap (fun i row =>
               fmap (border (Z.to_nat top + i)%nat) (seq 0 (Z.to_nat left))
               ++ row
               ++ fmap (border (Z.to_nat top + i)%nat)
                       (seq (Z.to_nat left + w)%nat (Z.to_nat right)))
            image
    ++ fmap (fun i => fmap (border i) (seq 0 (Z.to_nat left + w + Z.to_nat right)))
            (seq (Z.to_nat top + h)%nat (Z.to_nat bottom)).
Proof.
  unfold np_pad in Hpad.
  destruct (Z.ltb_spec top 0); [lia|]. destruct (Z.ltb_spec bottom 0); [lia|].
  destruct (Z.ltb_spec left 0); [lia|]. destruct (Z.ltb_spec right 0); [lia|].
  cbn [orb] in Hpad. injection Hpad as <-.
  rewrite (rect_width h w image Hr Hh). destruct Hr as [-> _]. reflexivity.
Qed.

(** The padded array has the image's shape plus the pads. *)
Lemma rect_np_pad :
  rect (Z.to_nat top + h + Z.to_nat bottom) (Z.to_nat left + w + Z.to_nat right)
       padded.
Proof.
  rewrite np_pad_eq. pose proof Hr as [Hlen Hrows]. split.
  - rewrite !length_app, !length_fmap, length_imap, !length_seq. lia.
  - apply Forall_app. split; [|apply Forall_app; split].
    + apply Forall_fmap, Forall_forall. intros i _. cbn.
      rewrite length_fmap, length_seq. reflexivity.
    + apply Forall_lookup. intros i row Hi. rewrite list_lookup_imap in Hi.
      destruct (image !! i) as [r|] eqn:Hri; [|discriminate].
      injection Hi as <-.
      rewrite !length_app, !length_fmap, !length_seq.
      rewrite (rect_row h w image i r Hr Hri). lia.
    + apply Forall_fmap, Forall_forall. intros i _. cbn.
      rewrite length_fmap, length_seq. reflexivity.
Qed.

(** The image sits in the padded array at offset (top, left). *)
Lemma at2_np_pad_inside (i j : nat) :
  (i < h)%nat -> (j < w)%nat ->
  at2 padded (Z.to_nat top + i) (Z.to_nat left + j) = at2 image i j.
Proof.
  intros Hi Hj. rewrite np_pad_eq. unfold at2.
  destruct (rect_lookup_lt h w image i Hr Hi) as (row & Hrow & Hlen).
  rewrite lookup_app_r by (rewrite length_fmap, length_seq; lia).
  rewrite length_fmap, length_seq.
  replace (Z.to_nat top + i - Z.to_nat top)%nat with i by lia.
  rewrite lookup_app_l by (rewrite length_imap; destruct Hr as [-> _]; exact Hi).
  rewrite list_lookup_imap, Hrow. cbn.
  rewrite lookup_app_r by (rewrite length_fmap, length_seq; lia).
  rewrite length_fmap, length_seq.
  replace (Z.to_nat left + j - Z.to_nat left)%nat with j by lia.
  apply lookup_app_l. lia.
Qed.

(** Outside the image the padded array holds what the mode puts there. *)
Lemma at2_np_pad_border (i j : nat) :
  (i < Z.to_nat top + h + Z.to_nat bottom)%nat ->
  (j < Z.to_nat left + w + Z.to_nat right)%nat ->
  ~ ((Z.to_nat top <= i < Z.to_nat top + h)%nat
     /\ (Z.to_nat left <= j < Z.to_nat left + w)%nat) ->
  at2 padded i j = Some (border i j).
Proof.
  intros Hi Hj Hout. rewrite np_pad_eq. unfold at2.
  pose proof Hr as [Hlen Hrows].
  destruct (decide (i < Z.to_nat top)%nat) as [Ht|Ht].
  - rewrite lookup_app_l by (rewrite length_fmap, length_seq; lia).
    rewrite list_lookup_fmap, lookup_seq_lt by lia. cbn.
    rewrite list_lookup_fmap, lookup_seq_lt by lia. reflexivity.
  - rewrite lookup_app_r by (rewrite length_fmap, length_seq; lia).
    rewrite length_fmap, length_seq.
    destruct (decide (i < Z.to_nat top + h)%nat) as [Hm|Hm].
    + rewrite lookup_app_l by (rewrite length_imap; lia).
      rewrite list_lookup_imap.
      destruct (rect_lookup_lt h w image (i - Z.to_nat top) Hr ltac:(lia))
        as (row & Hrow & Hrl).
      rewrite Hrow. cbn.
      replace (Z.to_nat top + (i - Z.to_nat top))%nat with i by lia.
      destruct (decide (j < Z.to_nat left)%nat) as [Hjl|Hjl].
      * rewrite lookup_app_l by (rewrite length_fmap, length_seq; lia).
        rewrite list_lookup_fmap, lookup_seq_lt by lia. reflexivity.
      * rewrite lookup_app_r by (rewrite length_fmap, length_seq; lia).
        rewrite length_fmap, length_seq.
        rewrite lookup_app_r by lia.
        rewrite list_lookup_fmap, lookup_seq_lt by lia. cbn.
        do 2 f_equal. lia.
    + rewrite lookup_app_r by (rewrite length_imap; lia).
      rewrite length_imap.
      rewrite list_lookup_fmap, lookup_seq_lt by lia. cbn.
      rewrite list_lookup_fmap, lookup_seq_lt by lia. cbn.
      do 2 f_equal. lia.
Qed.

End Pad.

(** X7.  With non-negative pads that fit and a positive right pad, the crop
    has the pre-pad shape and its cell (i, j) is the padded array's cell
    at (pad_top + i, pad_left + j). *)
Theorem crop_padded_cells {A} (self : SegFlow) (p : Padding) (h w : nat)
    (m : raster A) :
  image_padded self = Some (h, w) -> padding self = Some p ->
  rect h w m -> pads_fit p (h, w) ->
  exists cropped,
    _crop_padded self m = Ok cropped
    /\ rect (h - Z.to_nat (pad_top p) - Z.to_nat (pad_bottom p))
            (w - Z.to_nat (pad_left p) - Z.to_nat (pad_right p)) cropped
    /\ forall i j,
         (i < h - Z.to_nat (pad_top p) - Z.to_nat (pad_bottom p))%nat ->
         (j < w - Z.to_nat (pad_left p) - Z.to_nat (pad_right p))%nat ->
         at2 cropped i j
         = at2 m (Z.to_nat (pad_top p) + i) (Z.to_nat (pad_left p) + j).
Proof.
  intros Hip Hp Hr (Ht & Hb & Hl & Hrt & Hfh & Hfw). cbn [fst snd] in Hfh, Hfw.
  eexists. split.
  { apply (crop_padded_central self p (h, w) h w m); assumption || lia. }
  split.
  - replace (h - Z.to_nat (pad_top p) - Z.to_nat (pad_bottom p))%nat
      with (Z.to_nat (Z.of_nat h - pad_bottom p - pad_top p)) by lia.
    replace (w - Z.to_nat (pad_left p) - Z.to_nat (pad_right p))%nat
      with (Z.to_nat (Z.of_nat w - pad_right p - pad_left p)) by lia.
    apply (rect_slice2 h w); [exact Hr | lia..].
  - intros i j Hi Hj. apply (at2_slice2 h w); [exact Hr | lia..].
Qed.

Lemma crop_padded_cells_witness :
  exists cropped,
    _crop_padded (with_padding (3%nat, 4%nat) (mkPadding 1 1 1 2))
      [[1; 2; 3; 4]; [5; 6; 7; 8]; [9; 10; 11; 12]] = Ok cropped
    /\ at2 cropped 0 0 = Some 6.
Proof.
  destruct (crop_padded_cells (with_padding (3%nat, 4%nat) (mkPadding 1 1 1 2))
              (mkPadding 1 1 1 2) 3 4
              [[1; 2; 3; 4]; [5; 6; 7; 8]; [9; 10; 11; 12]])
    as (cropped & Hc & _ & Hcells);
    [reflexivity | reflexivity | split; [reflexivity | repeat constructor]
    | unfold pads_fit; cbn; lia |].
  exists cropped. split; [exact Hc|].
  rewrite Hcells by (cbn; lia). reflexivity.
Defined.

(** X8.  Padding, then cropping gives the image back: for a positive tile
    size and stride and an image with pixels, [pad_image] makes a padded
    array of the shape it records, with the image at (pad_top,
    pad_left), and [_crop_padded] of that array is the image, whatever
    the padding mode put around it. *)
Theorem crop_pad_round_trip {A} (self : SegFlow) (border : nat -> nat -> A)
    (image : raster A) (h w : nat) :
  rect h w image -> (0 < h)%nat -> (0 < w)%nat ->
  0 < tile_size self -> 0 < stride self ->
  exists padded H W,
    padded_content self border image = Ok padded
    /\ image_padded (pad_image self (Z.of_nat h) (Z.of_nat w)) = Some (H, W)
    /\ rect H W padded
    /\ _crop_padded (pad_image self (Z.of_nat h) (Z.of_nat w)) padded = Ok image.
Proof.
  intros Hr Hh Hw Hts Hst.
  pose proof (pad_total_split (tile_size self) (stride self) (Z.of_nat h) Hts Hst) as Hph.
  pose proof (pad_total_split (tile_size self) (stride self) (Z.of_nat w) Hts Hst) as Hpw.
  cbn zeta in Hph, Hpw.
  assert (Hlen : len image = Z.of_nat h) by (destruct Hr as [<- _]; reflexivity).
  assert (Hwid : width image = w) by (apply (rect_width h w); assumption).
  unfold padded_content. rewrite Hlen, Hwid.
  set (th := pad_total (tile_size self) (stride self) (Z.of_nat h)) in *.
  set (tw := pad_total (tile_size self) (stride self) (Z.of_nat w)) in *.
  destruct (Z.eqb_spec (Z.of_nat h) 0) as [|_]; [lia|].
  destruct (Z.eqb_spec (Z.of_nat w) 0) as [|_]; [lia|].
  rewrite andb_false_r. cbn [andb].
  destruct (np_pad border (th / 2) (th - th / 2) (tw / 2) (tw - tw / 2) image)
    as [padded|e] eqn:Hpad.
  2:{ unfold np_pad in Hpad.
      destruct (Z.ltb_spec (th / 2) 0); [lia|].
      destruct (Z.ltb_spec (th - th / 2) 0); [lia|].
      destruct (Z.ltb_spec (tw / 2) 0); [lia|].
      destruct (Z.ltb_spec (tw - tw / 2) 0); [lia|]. discriminate. }
  assert (Hpads : 0 <= th / 2 /\ 0 <= th - th / 2 /\ 0 <= tw / 2 /\ 0 <= tw - tw / 2)
    by lia.
  pose proof (rect_np_pad border _ _ _ _ h w image padded Hr Hh Hpads Hpad) as Hrp.
  exists padded. eexists _, _. split; [reflexivity|].
  split; [reflexivity|]. fold th tw.
  replace (Z.to_nat (th / 2 + Z.of_nat h + (th - th / 2)))
    with (Z.to_nat (th / 2) + h + Z.to_nat (th - th / 2))%nat by lia.
  replace (Z.to_nat (tw / 2 + Z.of_nat w + (tw - tw / 2)))
    with (Z.to_nat (tw / 2) + w + Z.to_nat (tw - tw / 2))%nat by lia.
  split; [exact Hrp|].
  set (HH := (Z.to_nat (th / 2) + h + Z.to_nat (th - th / 2))%nat) in *.
  set (WW := (Z.to_nat (tw / 2) + w + Z.to_nat (tw - tw / 2))%nat) in *.
  rewrite (crop_padded_central (pad_image self (Z.of_nat h) (Z.of_nat w))
             (mkPadding (th / 2) (th - th / 2) (tw / 2) (tw - tw / 2))
             (Z.to_nat (th / 2 + Z.of_nat h + (th - th / 2)),
              Z.to_nat (tw / 2 + Z.of_nat w + (tw - tw / 2)))
             _ _ padded eq_refl eq_refl Hrp);
    cbn [pad_top pad_bottom pad_left pad_right]; try (unfold HH, WW; lia).
  f_equal. apply (raster_ext h w); [|exact Hr|].
  - replace h with (Z.to_nat (Z.of_nat HH - (th - th / 2) - th / 2)) at 1
      by (unfold HH; lia).
    replace w with (Z.to_nat (Z.of_nat WW - (tw - tw / 2) - tw / 2)) at 1
      by (unfold WW; lia).
    apply (rect_slice2 HH WW padded); [exact Hrp | unfold HH, WW; lia..].
  - intros i j Hi Hj.
    rewrite (at2_slice2 HH WW padded _ _ _ _ i j Hrp) by (unfold HH, WW; lia).
    apply (at2_np_pad_inside border _ _ _ _ h w image padded Hr Hh Hpads Hpad);
      assumption.
Qed.

Lemma crop_pad_round_trip_witness :
  exists padded,
    padded_content (__init__ 2 1 (7 # 10) (3 # 10) 5) (fun _ _ => 0)
      [[1; 2]; [3; 4]] = Ok padded
    /\ _crop_padded (pad_image (__init__ 2 1 (7 # 10) (3 # 10) 5) 2 2) padded
       = Ok [[1; 2]; [3; 4]].
Proof.
  destruct (crop_pad_round_trip (__init__ 2 1 (7 # 10) (3 # 10) 5) (fun _ _ => 0)
              [[1; 2]; [3; 4]] 2 2)
    as (padded & H & W & Hp & _ & _ & Hc);
    [split; [reflexivity | repeat constructor] | lia | lia | cbn; lia | cbn; lia |].
  exists padded. split; [exact Hp | exact Hc].
Defined.

(** ** The winner of a pixel *)

Section Winner.
Variables (ts : Z) (h w : nat).

Lemma best_claim_nonneg done (i j : nat) (l : Z) (s : Q) :
  best_claim ts done i j l s -> (0 <= s)%Q.
Proof.
  intros [[[_ ->]|(t & tv & score & _ & _ & _ & _ & _ & Hs)] _].
  - apply Qle_refl.
  - apply Qlt_le_weak, Hs.
Qed.

(** A positive score on a cell is the float32 of an entry. *)
Lemma score_of_pos (cov : gmap Z Q) (tv : Z) :
  (0 < score_of cov tv)%Q ->
  exists score, cov !! tv = Some score /\ score_of cov tv = float32 score.
Proof.
  unfold score_of. destruct (cov !! tv) as [s|]; [eauto|].
  intros H. exfalso. exact (Qlt_irrefl 0 H).
Qed.

(** One tile keeps the invariant. *)
Lemma ingest_tile_best_claim (m m' : Mosaic) done t (i j : nat) (l : Z) (s : Q) :
  mosaic_rect h w m -> placed ts (h, w) t ->
  ingest_tile ts m t = Ok m' ->
  at2 (full_segmentation_mask m) i j = Some l ->
  at2 (full_score_map m) i j = Some s ->
  best_claim ts done i j l s ->
  exists l' s',
    at2 (full_segmentation_mask m') i j = Some l'
    /\ at2 (full_score_map m') i j = Some s'
    /\ best_claim ts (done ++ [t]) i j l' s'.
Proof.
  intros Hm Ht Hstep Hl Hs Hinv.
  pose proof (best_claim_nonneg _ _ _ _ _ Hinv) as Hs0.
  destruct Hinv as [Hprov Hmax].
  destruct (ingest_tile_step ts h w m t Hm Ht) as (m1 & Hstep1 & _ & Hcells).
  rewrite Hstep in Hstep1. injection Hstep1 as <-.
  specialize (Hcells i j l s Hl Hs).
  assert (Hprov' : (l = 0 /\ s = 0%Q)
            \/ exists t0 tv score, t0 ∈ done ++ [t] /\ claims_label ts t0 i j tv
                 /\ l = wrap32 tv /\ t0.2 !! tv = Some score /\ s = float32 score
                 /\ (0 < s)%Q).
  { destruct Hprov as [H0|(t0 & tv & score & Hin & Hrest)]; [left; exact H0|].
    right. exists t0, tv, score.
    split; [apply elem_of_app; left; exact Hin | exact Hrest]. }
  destruct (bool_decide_reflect (covers ts t.1.2 i j)) as [Hcov|Hout].
  - destruct Hcells as (tv & Htv & _ & Hl' & Hs').
    destruct (Qgtb (score_of t.2 tv) s && (0 <? tv)) eqn:Hb.
    + apply andb_true_iff in Hb. destruct Hb as [Hgt Hpos].
      apply Qgtb_true in Hgt. apply Z.ltb_lt in Hpos.
      exists (wrap32 tv), (score_of t.2 tv).
      split; [exact Hl'|]. split; [exact Hs'|]. split.
      * assert (H0 : (0 < score_of t.2 tv)%Q) by (eapply Qle_lt_trans; eassumption).
        destruct (score_of_pos _ _ H0) as (score & Hentry & Hscore).
        right. exists t, tv, score.
        split; [apply elem_of_app; right; apply list_elem_of_singleton; reflexivity|].
        split; [split; [exact Hcov | split; [exact Htv | exact Hpos]]|].
        split; [reflexivity|]. split; [exact Hentry|].
        split; [exact Hscore | exact H0].
      * intros t0 tv0 Hin Hc. apply elem_of_app in Hin. destruct Hin as [Hin|Hin].
        -- eapply Qle_trans; [apply (Hmax t0 tv0 Hin Hc)|]. apply Qlt_le_weak, Hgt.
        -- apply list_elem_of_singleton in Hin. subst t0.
           destruct Hc as (_ & Htv0 & _). rewrite Htv in Htv0.
           injection Htv0 as <-. apply Qle_refl.
    + exists l, s. split; [exact Hl'|]. split; [exact Hs'|].
      split; [exact Hprov'|].
      intros t0 tv0 Hin Hc. apply elem_of_app in Hin. destruct Hin as [Hin|Hin].
      * apply (Hmax t0 tv0 Hin Hc).
      * apply list_elem_of_singleton in Hin. subst t0.
        destruct Hc as (_ & Htv0 & Hpos). rewrite Htv in Htv0.
        injection Htv0 as <-.
        apply andb_false_iff in Hb. destruct Hb as [Hb|Hb].
        -- apply Qgtb_false, Hb.
        -- apply Z.ltb_ge in Hb. lia.
  - destruct Hcells as [Hl' Hs'].
    exists l, s. split; [exact Hl'|]. split; [exact Hs'|].
    split; [exact Hprov'|].
    intros t0 tv0 Hin Hc. apply elem_of_app in Hin. destruct Hin as [Hin|Hin].
    + apply (Hmax t0 tv0 Hin Hc).
    + apply list_elem_of_singleton in Hin. subst t0.
      destruct Hc as (Hcov & _). contradiction.
Qed.

(** The loop keeps it, from any mosaic. *)
Lemma recombine_best_claim (tiles : list (raster Z * (Z * Z) * gmap Z Q)) :
  forall (m m' : Mosaic) done (i j : nat) (l : Z) (s : Q),
  mosaic_rect h w m -> Forall (placed ts (h, w)) tiles ->
  recombine ts m tiles = Ok m' ->
  at2 (full_segmentation_mask m) i j = Some l ->
  at2 (full_score_map m) i j = Some s ->
  best_claim ts done i j l s ->
  exists l' s',
    at2 (full_segmentation_mask m') i j = Some l'
    /\ at2 (full_score_map m') i j = Some s'
    /\ best_claim ts (done ++ tiles) i j l' s'.
Proof.
  induction tiles as [|t rest IH]; intros m m' done i j l s Hm Hwp Hrun Hl Hs Hinv.
  - injection Hrun as <-. exists l, s. rewrite app_nil_r. auto.
  - inversion Hwp as [|? ? Ht Hrest]; subst.
    destruct (ingest_tile_step ts h w m t Hm Ht) as (m1 & Hstep & Hm1 & _).
    unfold recombine in Hrun. cbn [foldM] in Hrun. rewrite Hstep in Hrun.
    destruct (ingest_tile_best_claim m m1 done t i j l s Hm Ht Hstep Hl Hs Hinv)
      as (l1 & s1 & Hl1 & Hs1 & Hinv1).
    destruct (IH m1 m' (done ++ [t]) i j l1 s1 Hm1 Hrest Hrun Hl1 Hs1 Hinv1)
      as (l' & s' & Hl' & Hs' & Hinv').
    exists l', s'. rewrite <- app_assoc in Hinv'. auto.
Qed.

End Winner.

(** X9.  The recombination loop, pixel by pixel.  From the empty mosaic and
    tiles of the tile shape placed within the padded image, the loop
    runs to the end, and every pixel is either unclaimed (label 0,
    score 0) or holds the label of a tile that claims it and, as its
    score, the entry of that label in the tile's coverage dictionary
    rounded to float32, which is positive; no tile that claims the
    pixel has a higher float32 score than the one recorded (scores are
    compared as they are stored: two entries that round to one float32
    tie, and the earlier tile keeps the pixel). *)
Theorem recombine_best_score_wins (ts : Z) (h w : nat)
    (tiles : list (raster Z * (Z * Z) * gmap Z Q)) :
  Forall (placed ts (h, w)) tiles ->
  exists m,
    recombine ts (empty_mosaic (h, w)) tiles = Ok m
    /\ mosaic_rect h w m
    /\ forall i j, (i < h)%nat -> (j < w)%nat ->
         exists l s,
           at2 (full_segmentation_mask m) i j = Some l
           /\ at2 (full_score_map m) i j = Some s
           /\ ((l = 0 /\ s = 0%Q)
               \/ exists t tv score,
                    t ∈ tiles /\ covers ts t.1.2 i j
                    /\ tile_cell t.1.1 t.1.2 i j = Some tv /\ 0 < tv
                    /\ l = wrap32 tv /\ t.2 !! tv = Some score
                    /\ s = float32 score /\ (0 < s)%Q)
           /\ forall t tv,
                t ∈ tiles -> covers ts t.1.2 i j ->
                tile_cell t.1.1 t.1.2 i j = Some tv -> 0 < tv ->
                match t.2 !! tv with
                | Some score => (float32 score <= s)%Q
                | None => (0 <= s)%Q
                end.
Proof.
  intros Hwp.
  destruct (recombine_runs ts h w tiles (empty_mosaic (h, w))
              (mosaic_rect_empty h w) Hwp) as (m & Hrun & Hm).
  exists m. split; [exact Hrun|]. split; [exact Hm|].
  intros i j Hi Hj.
  destruct (recombine_best_claim ts h w tiles (empty_mosaic (h, w)) m [] i j 0 0%Q
              (mosaic_rect_empty h w) Hwp Hrun)
    as (l & s & Hl & Hs & [Hprov Hmax]).
  { apply at2_np_zeros; assumption. }
  { apply at2_np_zeros; assumption. }
  { split; [left; split; reflexivity|]. intros t tv Hin. inversion Hin. }
  exists l, s. split; [exact Hl|]. split; [exact Hs|]. split.
  - destruct Hprov as [H0|(t & tv & score & Hin & (Hc & Htv & Hpos) & Hrest)];
      [left; exact H0|].
    right. exists t, tv, score. cbn [app] in Hin. auto.
  - intros t tv Hin Hc Htv Hpos.
    pose proof (Hmax t tv Hin (conj Hc (conj Htv Hpos))) as Hle.
    unfold score_of in Hle. destruct (t.2 !! tv); exact Hle.
Qed.

(** The theorem on two tiles whose scores, 16777216 and 16777217, are
    one float32: on the pixel both claim the first tile's label stays,
    with the score 16777216. *)
Lemma recombine_best_score_wins_witness :
  exists m,
    recombine 2 (empty_mosaic (2%nat, 3%nat))
      [([[1; 1]; [1; 1]], (0, 0), {[ 1 := 16777216%Q ]});
       ([[2; 2]; [2; 2]], (0, 1), {[ 2 := 16777217%Q ]})] = Ok m
    /\ at2 (full_segmentation_mask m) 0 1 = Some 1
    /\ at2 (full_score_map m) 0 1 = Some 16777216%Q
    /\ exists l s,
         at2 (full_segmentation_mask m) 0 2 = Some l
         /\ at2 (full_score_map m) 0 2 = Some s
         /\ (float32 16777217 <= s)%Q.
Proof.
  destruct (recombine_best_score_wins 2 2 3
              [([[1; 1]; [1; 1]], (0, 0), {[ 1 := 16777216%Q ]});
               ([[2; 2]; [2; 2]], (0, 1), {[ 2 := 16777217%Q ]})])
    as (m & Hrun & _ & Hcells); [solve_placed|].
  exists m. split; [exact Hrun|].
  assert (Hm : at2 (full_segmentation_mask m) 0 1 = Some 1
               /\ at2 (full_score_map m) 0 1 = Some 16777216%Q).
  { vm_compute in Hrun. injection Hrun as <-. split; reflexivity. }
  split; [apply Hm|]. split; [apply Hm|].
  destruct (Hcells 0%nat 2%nat) as (l & s & Hl & Hs & _ & Hmax); [lia | lia |].
  exists l, s. split; [exact Hl|]. split; [exact Hs|].
  assert (Hc : covers 2 (0, 1) 0 2) by (unfold covers; cbn; lia).
  exact (Hmax ([[2; 2]; [2; 2]], (0, 1), {[ 2 := 16777217%Q ]}) 2
           ltac:(right; left) Hc eq_refl ltac:(lia)).
Defined.

(** ** Confidence reduction, instance by instance *)

Lemma elem_of_ravel_at2 {A} (m : raster A) (v : A) :
  v ∈ ravel m <-> exists i j, at2 m i j = Some v.
Proof.
  unfold ravel, at2. rewrite list_elem_of_join. split.
  - intros (row & Hv & Hrow).
    apply list_elem_of_lookup in Hrow. destruct Hrow as [i Hi].
    apply list_elem_of_lookup in Hv. destruct Hv as [j Hj].
    exists i, j. rewrite Hi. exact Hj.
  - intros (i & j & Hij). destruct (m !! i) as [row|] eqn:Hi; [|discriminate].
    exists row. split; [apply (list_elem_of_lookup_2 _ j), Hij
                       | apply (list_elem_of_lookup_2 _ i), Hi].
Qed.



Lemma length_confidence_loop (dtype : int_dtype) (ts : Z)
    (tiles : list (raster Z * (Z * Z))) :
  forall ml, length (confidence_loop dtype ts ml tiles) = length tiles.
Proof.
  induction tiles as [|[t0 p0] rest IH]; intros ml; cbn; [reflexivity|].
  f_equal. apply IH.
Qed.

(** Arithmetic in a type is exact on results the type holds. *)
Lemma wrap_small (dtype : int_dtype) (z : Z) :
  dtype_min dtype <= z <= dtype_max dtype -> wrap dtype z = z.
Proof.
  intros Hz. unfold wrap. rewrite Z.mod_small; lia.
Qed.

Lemma dtype_min_max (dtype : int_dtype) :
  dtype_min dtype <= 0 < dtype_max dtype.
Proof. destruct dtype; cbn; lia. Qed.



(** *** Labels the type holds *)

Lemma np_max_elem (x : Z) (r : list Z) : np_max (x :: r) ∈ x :: r.
Proof.
  cbn. induction r as [|y r IH]; cbn; [left|].
  destruct (Z.max_spec y (foldr Z.max x r)) as [[_ ->]|[_ ->]].
  - apply elem_of_cons in IH. destruct IH as [->|IH]; [left | right; right; exact IH].
  - right. left.
Qed.

Lemma np_max_nonneg (l : list Z) : Forall (fun v => 0 <= v) l -> 0 <= np_max l.
Proof.
  intros Hnn. destruct l as [|x r]; [cbn; lia|].
  exact (proj1 (Forall_forall _ _) Hnn _ (np_max_elem x r)).
Qed.

Lemma np_sum_nonneg (l : list Z) : Forall (fun v => 0 <= v) l -> 0 <= np_sum l.
Proof.
  induction 1 as [|x l Hx _ IH]; [cbn; lia|]. rewrite np_sum_cons. lia.
Qed.

(** Every label a tile keeps lies above the running maximum before the
    tile and at most at the running maximum after it, when the type
    holds the sum of the running maximum and the largest label of the
    tile. *)
Lemma confidence_tile_bounds (dtype : int_dtype) (ts ml : Z) (tile : raster Z) :
  Forall (fun v => 0 <= v) (ravel tile) ->
  0 <= ml -> ml + np_max (ravel tile) <= dtype_max dtype ->
  ml <= (confidence_tile dtype ts ml tile).2 <= ml + np_max (ravel tile)
  /\ forall v, v ∈ ravel (confidence_tile dtype ts ml tile).1 ->
       v = 0 \/ ml < v <= (confidence_tile dtype ts ml tile).2.
Proof.
  intros Hnn Hml Hfit. rewrite confidence_tile_offset, confidence_tile_cells.
  pose proof (np_max_nonneg _ Hnn) as HM.
  pose proof (dtype_min_max dtype) as Hd.
  assert (Hpos : forall u, u ∈ ravel tile -> u ∈ center_labels ts tile ->
                   0 < u <= np_max (ravel tile)).
  { intros u Hu Hc. pose proof (center_labels_nonzero ts tile u Hc).
    pose proof (proj1 (Forall_forall _ _) Hnn u Hu) as Hu0. cbv beta in Hu0.
    pose proof (np_max_ge _ _ Hu). lia. }
  assert (Hadj : forall u, u ∈ ravel tile ->
                   (u ∈ center_labels ts tile /\ adjust dtype ts ml tile u = u + ml)
                   \/ ((u ∉ center_labels ts tile)
                       /\ adjust dtype ts ml tile u = 0)).
  { intros u Hu. unfold adjust.
    destruct (bool_decide_reflect (u ∈ center_labels ts tile)) as [Hc|Hc];
      [left | right; auto].
    split; [exact Hc|]. pose proof (Hpos u Hu Hc). apply wrap_small. lia. }
  assert (Hall : forall v, v ∈ ravel (map2d (adjust dtype ts ml tile) tile) ->
                   v = 0 \/ ml < v <= ml + np_max (ravel tile)).
  { intros v Hv. apply elem_of_ravel_map2d in Hv. destruct Hv as (u & -> & Hu).
    destruct (Hadj u Hu) as [[Hc ->]|[_ ->]]; [|left; reflexivity].
    right. pose proof (Hpos u Hu Hc). lia. }
  destruct (bool_decide_reflect
              (Exists (fun v => v ∈ center_labels ts tile) (ravel tile)))
    as [Hex|Hnone].
  - apply Exists_exists in Hex. destruct Hex as (u & Hu & Hc).
    assert (Hin : u + ml ∈ ravel (map2d (adjust dtype ts ml tile) tile)).
    { apply elem_of_ravel_map2d. exists u. split; [|exact Hu].
      destruct (Hadj u Hu) as [[_ ->]|[Hn _]]; [reflexivity | contradiction]. }
    pose proof (np_max_ge _ _ Hin) as Hmax. pose proof (Hpos u Hu Hc).
    assert (Hup : np_max (ravel (map2d (adjust dtype ts ml tile) tile))
                  <= ml + np_max (ravel tile)).
    { destruct (ravel (map2d (adjust dtype ts ml tile) tile)) as [|x r] eqn:Hl;
        [apply elem_of_nil in Hin; contradiction|].
      destruct (Hall _ (np_max_elem x r)); lia. }
    split; [lia|].
    intros v Hv. pose proof (np_max_ge _ _ Hv) as Hle.
    destruct (Hall v Hv); [left; assumption | right; lia].
  - split; [lia|].
    intros v Hv. apply elem_of_ravel_map2d in Hv. destruct Hv as (u' & -> & Hu').
    destruct (Hadj u' Hu') as [[Hc' _]|[_ ->]]; [|left; reflexivity].
    exfalso. apply Hnone, Exists_exists. exists u'. split; assumption.
Qed.

(** Along the loop, when the type holds the sum of the largest labels
    of the tiles: the offset a tile starts from is the running maximum
    after the tile before, the running maximum never decreases, and
    the labels of each tile lie between the maximum before it and the
    one after. *)
Lemma confidence_loop_bounds (dtype : int_dtype) (ts : Z)
    (tiles : list (raster Z * (Z * Z))) :
  forall (ml : Z) (k : nat) (a : raster Z) (o : Z),
  Forall (fun t => Forall (fun v => 0 <= v) (ravel t.1)) tiles ->
  0 <= ml ->
  ml + np_sum ((fun t => np_max (ravel t.1)) <$> tiles) <= dtype_max dtype ->
  confidence_loop dtype ts ml tiles !! k = Some (a, o) ->
  exists lo,
    (ml :: (confidence_loop dtype ts ml tiles).*2) !! k = Some lo
    /\ ml <= lo /\ lo <= o
    /\ (forall v, v ∈ ravel a -> v = 0 \/ lo < v <= o)
    /\ (forall j a' o', (k < j)%nat ->
          confidence_loop dtype ts ml tiles !! j = Some (a', o') ->
          forall v, v ∈ ravel a' -> v = 0 \/ o < v).
Proof.
  induction tiles as [|[tile pos] rest IH]; intros ml k a o Hnn Hml Hfit Hk;
    [discriminate|].
  inversion Hnn as [|? ? Ht Hrest]; subst. cbn [fst] in Ht.
  cbn [fmap list_fmap fst] in Hfit. rewrite np_sum_cons in Hfit.
  assert (Hsum : 0 <= np_sum ((fun t => np_max (ravel t.1)) <$> rest)).
  { apply np_sum_nonneg, Forall_fmap. eapply Forall_impl; [exact Hrest|].
    intros t Hnt. apply np_max_nonneg, Hnt. }
  pose proof (confidence_tile_bounds dtype ts ml tile Ht Hml ltac:(lia))
    as [[Hle Hup] Hlab].
  change (confidence_loop dtype ts ml ((tile, pos) :: rest))
    with (confidence_tile dtype ts ml tile
          :: confidence_loop dtype ts (confidence_tile dtype ts ml tile).2 rest) in *.
  destruct (confidence_tile dtype ts ml tile) as [a0 o0]. cbn [fst snd] in *.
  destruct k as [|k].
  - cbn in Hk. injection Hk as -> ->.
    exists ml. split; [reflexivity|]. split; [lia|]. split; [exact Hle|].
    split; [exact Hlab|].
    intros j a' o' Hj Hnext. destruct j as [|j]; [lia|]. cbn in Hnext.
    destruct (IH o j a' o' Hrest ltac:(lia) ltac:(lia) Hnext)
      as (lo & _ & H1 & H2 & H3 & _).
    intros v Hv. destruct (H3 v Hv); [left; assumption | right; lia].
  - cbn in Hk.
    destruct (IH o0 k a o Hrest ltac:(lia) ltac:(lia) Hk)
      as (lo & H0 & H1 & H2 & H3 & H5).
    exists lo. split; [exact H0|]. split; [lia|]. split; [exact H2|].
    split; [exact H3|].
    intros j a' o' Hj Hnext. destruct j as [|j]; [lia|]. cbn in Hnext.
    apply (H5 j a' o'); [lia | exact Hnext].
Qed.

Lemma np_sum_zip_fst {A B} (f : A -> Z) (l : list A) (k : list B) :
  Forall (fun x => 0 <= f x) l ->
  np_sum ((fun t : A * B => f t.1) <$> zip l k) <= np_sum (f <$> l).
Proof.
  intros H. revert k. induction H as [|x l Hx Hl IH]; intros k; [cbn; lia|].
  destruct k as [|y k]; cbn [zip_with fmap list_fmap fst].
  - pose proof (np_sum_nonneg (f <$> l) (proj2 (Forall_fmap _ _ _) Hl)).
    rewrite np_sum_cons. cbn. lia.
  - rewrite !np_sum_cons. specialize (IH k). cbn [fst]. lia.
Qed.

(** X26.  On label tiles (background 0, instance ids positive) of a type
    that holds the sum of the largest labels of the tiles,
    [_calculate_high_confidence_tiles] keeps the instance ids apart: no
    non-zero label occurs in two different confidence tiles.  There is
    one running offset per confidence tile; the offset a tile starts
    from (0 for the first tile, the offset after the tile before for
    the others) is at most the offset after it, and the non-zero labels
    of the tile lie above the first and at most at the second. *)
Theorem confidence_labels_unique_in_range (dtype : int_dtype) (ts : Z)
    (positions : list (Z * Z)) (tiles : list (raster Z)) :
  Forall (fun tile => Forall (fun v => 0 <= v) (ravel tile)) tiles ->
  np_sum ((fun tile => np_max (ravel tile)) <$> tiles) <= dtype_max dtype ->
  (forall i j ti tj l,
     i <> j ->
     _calculate_high_confidence_tiles dtype ts positions tiles !! i = Some ti ->
     _calculate_high_confidence_tiles dtype ts positions tiles !! j = Some tj ->
     l <> 0 -> l ∈ ravel ti -> l ∉ ravel tj)
  /\ length (running_offsets dtype ts positions tiles)
     = length (_calculate_high_confidence_tiles dtype ts positions tiles)
  /\ length (running_offsets dtype ts positions tiles)
     = Nat.min (length tiles) (length positions)
  /\ (forall i ti,
        _calculate_high_confidence_tiles dtype ts positions tiles !! i = Some ti ->
        exists a b,
          (0 :: running_offsets dtype ts positions tiles) !! i = Some a
          /\ running_offsets dtype ts positions tiles !! i = Some b
          /\ 0 <= a <= b
          /\ forall v, v ∈ ravel ti -> v = 0 \/ a < v <= b).
Proof.
  intros Hnn Hfit. unfold _calculate_high_confidence_tiles, running_offsets.
  pose proof (Forall_zip_fst _ tiles positions Hnn) as Hz.
  assert (Hfitz : 0 + np_sum ((fun t : raster Z * (Z * Z) => np_max (ravel t.1))
                                <$> zip tiles positions) <= dtype_max dtype).
  { pose proof (np_sum_zip_fst (fun tile => np_max (ravel tile)) tiles positions) as Hs.
    cbv beta in Hs. etransitivity; [|exact Hfit]. rewrite Z.add_0_l. apply Hs.
    eapply Forall_impl; [exact Hnn|]. intros t Ht. apply np_max_nonneg, Ht. }
  set (run := confidence_loop dtype ts 0 (zip tiles positions)) in *.
  assert (Hfst : forall k t, run.*1 !! k = Some t -> exists o, run !! k = Some (t, o)).
  { intros k t Hk. rewrite list_lookup_fmap in Hk.
    destruct (run !! k) as [[t' o]|]; [|discriminate].
    injection Hk as <-. eauto. }
  assert (Hlt : forall i j ti oi tj oj l,
             (i < j)%nat -> run !! i = Some (ti, oi) -> run !! j = Some (tj, oj) ->
             l <> 0 -> l ∈ ravel ti -> l ∈ ravel tj -> False).
  { intros i j ti oi tj oj l Hij Hi Hj Hl Hli Hlj.
    destruct (confidence_loop_bounds dtype ts _ 0 i ti oi Hz ltac:(lia) Hfitz Hi)
      as (lo & _ & _ & _ & Hin & Hlater).
    destruct (Hin l Hli) as [|[_ Hle]]; [contradiction|].
    destruct (Hlater j tj oj Hij Hj l Hlj) as [|Hgt]; [contradiction|]. lia. }
  split; [|split; [|split]].
  - intros i j ti tj l Hij Hi Hj Hl Hli Hlj.
    destruct (Hfst i ti Hi) as [oi Hi']. destruct (Hfst j tj Hj) as [oj Hj'].
    destruct (Nat.lt_total i j) as [Hlt'|[Heq|Hgt]]; [|contradiction|].
    + exact (Hlt i j ti oi tj oj l Hlt' Hi' Hj' Hl Hli Hlj).
    + exact (Hlt j i tj oj ti oi l Hgt Hj' Hi' Hl Hlj Hli).
  - rewrite !length_fmap. reflexivity.
  - unfold run. rewrite length_fmap, length_confidence_loop, length_zip_with.
    reflexivity.
  - intros i ti Hi. destruct (Hfst i ti Hi) as [b Hb].
    destruct (confidence_loop_bounds dtype ts _ 0 i ti b Hz ltac:(lia) Hfitz Hb)
      as (a & Ha & H0 & Hab & Hlab & _).
    exists a, b. split; [exact Ha|].
    split; [rewrite list_lookup_fmap, Hb; reflexivity|].
    split; [lia | exact Hlab].
Qed.

(** The theorem on two 2 x 2 tiles of type [uint16] that both use label
    1: the second tile's instance becomes 3, and 1 does not occur in
    it. *)
Lemma confidence_labels_unique_in_range_witness :
  (1 ∉ ravel [[3; 3]; [0; 0]])
  /\ _calculate_high_confidence_tiles uint16 2 [(0, 0); (0, 2)]
       [[[1; 0]; [0; 2]]; [[1; 1]; [0; 0]]]
     = [[[1; 0]; [0; 2]]; [[3; 3]; [0; 0]]]
  /\ running_offsets uint16 2 [(0, 0); (0, 2)]
       [[[1; 0]; [0; 2]]; [[1; 1]; [0; 0]]] = [2; 3].
Proof.
  split; [|split; reflexivity].
  assert (Hnn : Forall (fun tile : raster Z => Forall (fun v => 0 <= v) (ravel tile))
                  [[[1; 0]; [0; 2]]; [[1; 1]; [0; 0]]]).
  { repeat (constructor; [repeat (constructor; [lia|]); constructor|]); constructor. }
  destruct (confidence_labels_unique_in_range uint16 2 [(0, 0); (0, 2)]
              [[[1; 0]; [0; 2]]; [[1; 1]; [0; 0]]] Hnn ltac:(cbn; lia))
    as [Huniq _].
  apply (Huniq 0%nat 1%nat [[1; 0]; [0; 2]] [[3; 3]; [0; 0]] 1).
  - lia.
  - reflexivity.
  - reflexivity.
  - lia.
  - cbn. left.
Defined.

(** ** The density map and the order of the tiles *)

Lemma claim_count_Permutation (ts : Z) (l k : list (raster Z * (Z * Z)))
    (i j : nat) :
  l ≡ₚ k -> claim_count ts l i j = claim_count ts k i j.
Proof. intros Hp. unfold claim_count, len. rewrite Hp. reflexivity. Qed.

(** X11.  The density map does not depend on the order in which the tiles are
    processed: two runs on the same tiles at the same positions, in any
    two orders, give the same map. *)
Theorem calculate_overlaps_order_independent (ts : Z) (shape : nat * nat)
    (positions positions' : list (Z * Z)) (tiles tiles' : list (raster Z)) :
  Forall (well_placed ts shape) (zip tiles positions) ->
  len (zip tiles positions) < 2 ^ 31 ->
  zip tiles' positions' ≡ₚ zip tiles positions ->
  exists full,
    _calculate_overlaps ts shape positions tiles = Ok full
    /\ _calculate_overlaps ts shape positions' tiles' = Ok full.
Proof.
  destruct shape as [h w]. intros Hwp Hlen Hperm.
  assert (Hwp' : Forall (well_placed ts (h, w)) (zip tiles' positions'))
    by (rewrite Hperm; exact Hwp).
  assert (Hlen' : len (zip tiles' positions') < 2 ^ 31)
    by (unfold len in *; rewrite Hperm; exact Hlen).
  destruct (overlaps_loop ts h w (zip tiles positions) (np_zeros 0 h w) (fun _ _ => 0))
    as (full & Hrun & Hr & Hcells); [apply rect_np_zeros | exact Hwp | |].
  { intros i j Hi Hj. rewrite at2_np_zeros by assumption.
    split; [reflexivity|]. unfold len in *. lia. }
  destruct (overlaps_loop ts h w (zip tiles' positions') (np_zeros 0 h w) (fun _ _ => 0))
    as (full' & Hrun' & Hr' & Hcells'); [apply rect_np_zeros | exact Hwp' | |].
  { intros i j Hi Hj. rewrite at2_np_zeros by assumption.
    split; [reflexivity|]. unfold len in *. lia. }
  exists full. split; [exact Hrun|].
  unfold _calculate_overlaps. cbn [fst snd]. rewrite Hrun'. f_equal.
  apply (raster_ext h w); [exact Hr' | exact Hr|].
  intros i j Hi Hj. rewrite Hcells, Hcells' by assumption.
  rewrite (claim_count_Permutation ts _ _ i j Hperm). reflexivity.
Qed.

Lemma calculate_overlaps_order_independent_witness :
  _calculate_overlaps 2 (2%nat, 3%nat) [(0, 1); (0, 0)]
    [[[2; 2]; [2; 0]]; [[1; 1]; [0; 1]]]
  = _calculate_overlaps 2 (2%nat, 3%nat) [(0, 0); (0, 1)]
      [[[1; 1]; [0; 1]]; [[2; 2]; [2; 0]]].
Proof.
  destruct (calculate_overlaps_order_independent 2 (2%nat, 3%nat)
              [(0, 0); (0, 1)] [(0, 1); (0, 0)]
              [[[1; 1]; [0; 1]]; [[2; 2]; [2; 0]]]
              [[[2; 2]; [2; 0]]; [[1; 1]; [0; 1]]])
    as (full & H1 & H2); [solve_placed | reflexivity | apply perm_swap |].
  rewrite H1, H2. reflexivity.
Defined.

(** ** The label pipeline, end to end *)

Section OverlapShapes.
Variables (ts : Z) (h w : nat).

(** The shape of the density map, whatever the counts. *)
Lemma overlaps_tile_rect (full : raster Z) (t : raster Z * (Z * Z)) :
  rect h w full -> well_placed ts (h, w) t ->
  exists full', overlaps_tile ts full t = Ok full' /\ rect h w full'.
Proof.
  destruct t as [tile [y x]]. intros Hr [Ht Hb]. cbn in Ht, Hb.
  unfold overlaps_tile.
  set (region := slice2 y (y + ts) x (x + ts) full).
  assert (Hreg : rect (Z.to_nat ts) (Z.to_nat ts) region)
    by (apply (rect_region ts h w); assumption).
  rewrite (same_shape_rect _ _ tile region Ht Hreg).
  set (nz := map2d (fun v => 0 <? v) tile).
  set (om := zip2d andb nz (map2d (fun v => 0 <? v) region)).
  assert (Hnz : rect (Z.to_nat ts) (Z.to_nat ts) nz) by (apply rect_map2d, Ht).
  assert (Hom : rect (Z.to_nat ts) (Z.to_nat ts) om).
  { apply rect_zip2d; [exact Hnz | apply rect_map2d, Hreg]. }
  set (new1 := np_where om (map2d (fun v => wrap32 (v + 1)) region) region).
  assert (Hnew1 : rect (Z.to_nat ts) (Z.to_nat ts) new1).
  { apply rect_np_where; [exact Hom | apply rect_map2d, Hreg | exact Hreg]. }
  set (full1 := set_slice2 y (y + ts) x (x + ts) full new1).
  assert (Hfull1 : rect h w full1) by (apply rect_set_region; assumption).
  set (region1 := slice2 y (y + ts) x (x + ts) full1).
  assert (Hreg1 : rect (Z.to_nat ts) (Z.to_nat ts) region1)
    by (apply (rect_region ts h w); assumption).
  eexists. split; [reflexivity|]. apply rect_set_region; [assumption..|].
  apply rect_np_where; [|apply rect_map2d, Hreg1 | exact Hreg1].
  apply rect_zip2d; assumption.
Qed.

Lemma overlaps_loop_rect (tiles : list (raster Z * (Z * Z))) :
  forall full,
  rect h w full -> Forall (well_placed ts (h, w)) tiles ->
  exists full', foldM (overlaps_tile ts) full tiles = Ok full' /\ rect h w full'.
Proof.
  induction tiles as [|t rest IH]; intros full Hr Hwp.
  - exists full. split; [reflexivity | exact Hr].
  - inversion Hwp as [|? ? Ht Hrest]; subst.
    destruct (overlaps_tile_rect full t Hr Ht) as (full1 & Hstep & Hr1).
    destruct (IH full1 Hr1 Hrest) as (full' & Hrun & Hr').
    exists full'. split; [|exact Hr']. cbn [foldM]. rewrite Hstep. exact Hrun.
Qed.

End OverlapShapes.

Lemma confidence_loop_rect (dtype : int_dtype) (ts : Z) (a b : nat)
    (tiles : list (raster Z * (Z * Z))) :
  forall ml,
  Forall (fun t => rect a b t.1) tiles ->
  Forall (rect a b) (confidence_loop dtype ts ml tiles).*1.
Proof.
  induction tiles as [|[t0 p0] rest IH]; intros ml Hr; [constructor|].
  inversion Hr as [|? ? H0 Hrest]; subst. cbn [confidence_loop fmap list_fmap].
  constructor; [|apply IH, Hrest].
  rewrite confidence_tile_cells. apply rect_map2d, H0.
Qed.

(** The coverage dictionaries are computed for tiles of the tile shape. *)
Lemma tile_overlaps_runs (self : SegFlow) (h w : nat) (full : raster Z)
    (tiles : list (raster Z)) :
  0 <= tile_size self -> 0 < stride self -> rect h w full ->
  Forall (rect (Z.to_nat (tile_size self)) (Z.to_nat (tile_size self))) tiles ->
  exists covs, _calculate_tile_overlaps self full tiles = Ok covs.
Proof.
  intros Hts Hst Hr Htiles.
  destruct (extract_tiles_rect full h w (tile_size self) (stride self) Hr Hts Hst)
    as (extracted & Hex & Hrects).
  unfold _calculate_tile_overlaps. rewrite Hex. cbn [rbind].
  destruct (mapM_Ok (tile_coverage (average_weight self) (sum_weight self)
                                   (min_pixels self))
                    (zip tiles extracted.*1)) as (covs & Hcovs & _).
  { assert (Hd : Forall (rect (Z.to_nat (tile_size self)) (Z.to_nat (tile_size self)))
                        extracted.*1).
    { apply Forall_fmap. eapply Forall_impl; [exact Hrects|]. intros t Ht. apply Ht. }
    eapply Forall_impl; [apply (Forall_zip_both _ _ _ _ Htiles Hd)|].
    intros [tile density] [Hrt Hrd]. cbn [fst snd] in Hrt, Hrd.
    destruct (tile_coverage_spec (average_weight self) (sum_weight self)
                (min_pixels self) _ _ tile density Hrt Hrd) as (cov & Hcov & _).
    exists cov. exact Hcov. }
  exists covs. exact Hcovs.
Qed.

Lemma grid_starts_0 (n ts st : Z) : 0 < st -> ts <= n -> 0 ∈ grid_starts n ts st.
Proof.
  intros Hst Hn. unfold grid_starts. apply elem_of_py_range_iff; [exact Hst|].
  exists 0. lia.
Qed.

(** X12.  The whole label pipeline.  After [pad_image] on an image of [h] by
    [w] pixels and [extract_tiles], with a positive tile size and
    stride, [ingest_tile_segmentation] on predicted tiles of the tile
    shape, of any integer type, runs to the end and returns a mask of
    the shape of the image; each of its pixels is background or the
    label of a confidence-reduced tile that covers the pixel with that
    label. *)
Theorem ingest_tile_segmentation_image_shape (self0 : SegFlow) (h w : nat)
    (dtype : int_dtype) (tiles : list (raster Z)) :
  positions self0 = None ->
  0 < tile_size self0 -> 0 < stride self0 -> (0 < h)%nat -> (0 < w)%nat ->
  tiles <> [] ->
  Forall (rect (Z.to_nat (tile_size self0)) (Z.to_nat (tile_size self0))) tiles ->
  exists self pos p out,
    extract_tiles (pad_image self0 (Z.of_nat h) (Z.of_nat w)) = Ok self
    /\ positions self = Some pos /\ padding self = Some p
    /\ ingest_tile_segmentation self dtype tiles = Ok out
    /\ rect h w out
    /\ forall i j, (i < h)%nat -> (j < w)%nat ->
         exists l,
           at2 out i j = Some l
           /\ (l = 0
               \/ exists k tile q tv,
                    _calculate_high_confidence_tiles dtype (tile_size self0) pos tiles
                      !! k = Some tile
                    /\ pos !! k = Some q
                    /\ covers (tile_size self0) q
                         (Z.to_nat (pad_top p) + i) (Z.to_nat (pad_left p) + j)
                    /\ tile_cell tile q
                         (Z.to_nat (pad_top p) + i) (Z.to_nat (pad_left p) + j)
                       = Some tv
                    /\ 0 < tv /\ l = wrap32 tv).
Proof.
  intros Hpos Hts Hst Hh Hw Hne Htiles.
  set (ts := tile_size self0) in *. set (st := stride self0) in *.
  pose proof (pad_total_split ts st (Z.of_nat h) Hts Hst) as Hph.
  pose proof (pad_total_split ts st (Z.of_nat w) Hts Hst) as Hpw.
  cbn zeta in Hph, Hpw.
  set (th := pad_total ts st (Z.of_nat h)) in *.
  set (tw := pad_total ts st (Z.of_nat w)) in *.
  set (H := Z.to_nat (th / 2 + Z.of_nat h + (th - th / 2))).
  set (W := Z.to_nat (tw / 2 + Z.of_nat w + (tw - tw / 2))).
  set (p := mkPadding (th / 2) (th - th / 2) (tw / 2) (tw - tw / 2)).
  (* the positions *)
  destruct (extract_tiles_rect (np_zeros 0 H W) H W ts st (rect_np_zeros 0 H W)
              ltac:(lia) Hst) as (extracted & Hex & Hrects).
  set (pos := extracted.*2).
  assert (Hself : extract_tiles (pad_image self0 (Z.of_nat h) (Z.of_nat w))
                  = Ok {| tile_size := ts; stride := st;
                          average_weight := average_weight self0;
                          sum_weight := sum_weight self0;
                          min_pixels := min_pixels self0;
                          image_padded := Some (H, W);
                          padding := Some p;
                          positions := Some pos |}).
  { unfold extract_tiles.
    change (positions (pad_image self0 (Z.of_nat h) (Z.of_nat w)))
      with (positions self0).
    rewrite Hpos.
    change (image_padded (pad_image self0 (Z.of_nat h) (Z.of_nat w)))
      with (Some (H, W)).
    cbn [fst snd].
    change (tile_size (pad_image self0 (Z.of_nat h) (Z.of_nat w))) with ts.
    change (stride (pad_image self0 (Z.of_nat h) (Z.of_nat w))) with st.
    rewrite Hex. reflexivity. }
  set (self := {| tile_size := ts; stride := st;
                  average_weight := average_weight self0;
                  sum_weight := sum_weight self0;
                  min_pixels := min_pixels self0;
                  image_padded := Some (H, W);
                  padding := Some p;
                  positions := Some pos |}) in *.
  assert (Hbounds : Forall (in_bounds ts (H, W)) pos).
  { unfold pos. apply Forall_fmap. eapply Forall_impl; [exact Hrects|].
    intros t Ht. apply Ht. }
  assert (Hposne : pos <> []).
  { assert (Hin : (0, 0) ∈ pos).
    { apply (elem_of_extract_positions _ _ _ _ _ _ Hex).
      - apply grid_starts_0; [exact Hst|].
        pose proof (rect_np_zeros 0 H W) as [Hl _]. unfold len. rewrite Hl.
        unfold H. lia.
      - apply grid_starts_0; [exact Hst|].
        rewrite (rect_width H W _ (rect_np_zeros 0 H W)) by (unfold H; lia).
        unfold W. lia. }
    intros Hnil. rewrite Hnil in Hin. inversion Hin. }
  (* the confidence tiles *)
  set (conf := _calculate_high_confidence_tiles dtype ts pos tiles).
  assert (Hconf : Forall (rect (Z.to_nat ts) (Z.to_nat ts)) conf).
  { apply confidence_loop_rect, Forall_zip_fst, Htiles. }
  assert (Hconfne : conf <> []).
  { intros Hnil. apply (f_equal length) in Hnil.
    unfold conf, _calculate_high_confidence_tiles in Hnil.
    rewrite length_fmap, length_confidence_loop, length_zip_with in Hnil.
    destruct tiles; [congruence|]. destruct pos; [congruence|]. discriminate. }
  assert (Hplaced : Forall (well_placed ts (H, W)) (zip conf pos)).
  { eapply Forall_impl; [apply (Forall_zip_both _ _ _ _ Hconf Hbounds)|].
    intros t Ht. exact Ht. }
  (* the density map and the scores *)
  destruct (overlaps_loop_rect ts H W (zip conf pos) (np_zeros 0 H W)
              (rect_np_zeros 0 H W) Hplaced) as (full & Hfull & Hrfull).
  destruct (tile_overlaps_runs self H W full conf ltac:(cbn; lia) Hst Hrfull Hconf)
    as (covs & Hcovs).
  (* the mosaic *)
  assert (Hpl : Forall (placed ts (H, W)) (zip (zip conf pos) covs))
    by (apply Forall_zip_fst, Hplaced).
  destruct (recombine_runs ts H W _ (empty_mosaic (H, W)) (mosaic_rect_empty H W) Hpl)
    as (m & Hrun & Hm).
  (* the crop *)
  assert (Hcrop : _crop_padded self (full_segmentation_mask m)
                  = Ok (slice2 (th / 2) (Z.of_nat H - (th - th / 2))
                               (tw / 2) (Z.of_nat W - (tw - tw / 2))
                               (full_segmentation_mask m))).
  { apply (crop_padded_central self p (H, W) H W); try reflexivity;
      try (cbn; unfold H, W; lia). apply Hm. }
  set (out := slice2 (th / 2) (Z.of_nat H - (th - th / 2))
                     (tw / 2) (Z.of_nat W - (tw - tw / 2))
                     (full_segmentation_mask m)) in *.
  exists self, pos, p, out.
  split; [exact Hself|]. split; [reflexivity|]. split; [reflexivity|].
  split.
  { unfold ingest_tile_segmentation. cbn [positions image_padded tile_size self].
    fold conf. unfold _calculate_overlaps. cbn [fst snd]. rewrite Hfull. cbn [rbind].
    rewrite Hcovs. cbn [rbind].
    rewrite bool_decide_eq_false_2 by exact Hconfne.
    rewrite Hrun. cbn [rbind]. exact Hcrop. }
  assert (Hrout : rect h w out).
  { replace h with (Z.to_nat (Z.of_nat H - (th - th / 2) - th / 2)) at 1
      by (unfold H; lia).
    replace w with (Z.to_nat (Z.of_nat W - (tw - tw / 2) - tw / 2)) at 1
      by (unfold W; lia).
    apply (rect_slice2 H W); [apply Hm | unfold H, W; lia..]. }
  split; [exact Hrout|].
  intros i j Hi Hj. cbn [pad_top pad_left p].
  assert (Hat : at2 out i j
                = at2 (full_segmentation_mask m)
                      (Z.to_nat (th / 2) + i) (Z.to_nat (tw / 2) + j)).
  { apply (at2_slice2 H W); [apply Hm | unfold H, W; lia..]. }
  rewrite Hat.
  destruct (recombine_best_claim ts H W _ (empty_mosaic (H, W)) m []
              (Z.to_nat (th / 2) + i) (Z.to_nat (tw / 2) + j) 0 0%Q
              (mosaic_rect_empty H W) Hpl Hrun)
    as (l & s & Hl & _ & [Hprov _]).
  { apply (at2_np_zeros 0 H W); unfold H, W; lia. }
  { apply (at2_np_zeros 0%Q H W); unfold H, W; lia. }
  { split; [left; split; reflexivity|]. intros t tv Hin. inversion Hin. }
  exists l. split; [exact Hl|].
  destruct Hprov as [[-> _]|(t & tv & score & Hin & (Hc & Htv & Hpv) & -> & _)];
    [left; reflexivity|].
  right. cbn [app] in Hin. apply list_elem_of_lookup in Hin. destruct Hin as [k Hk].
  rewrite lookup_zip_with in Hk.
  destruct (zip conf pos !! k) as [[tile q]|] eqn:Hzk; cbn in Hk; [|discriminate].
  destruct (covs !! k) as [cov|]; cbn in Hk; [|discriminate].
  injection Hk as <-. cbn [fst snd] in Hc, Htv.
  rewrite lookup_zip_with in Hzk.
  destruct (conf !! k) as [tile'|] eqn:Hck; cbn in Hzk; [|discriminate].
  destruct (pos !! k) as [q'|] eqn:Hqk; cbn in Hzk; [|discriminate].
  injection Hzk as <- <-.
  exists k, tile', q', tv. auto 10.
Qed.

Lemma ingest_tile_segmentation_image_shape_witness :
  exists self out,
    extract_tiles (pad_image (__init__ 3 1 (7 # 10) (3 # 10) 5) 1 1) = Ok self
    /\ ingest_tile_segmentation self int32 (replicate 4 (full_tile 1)) = Ok out
    /\ rect 1 1 out.
Proof.
  destruct (ingest_tile_segmentation_image_shape
              (__init__ 3 1 (7 # 10) (3 # 10) 5) 1 1 int32
              (replicate 4 (full_tile 1)))
    as (self & pos & p & out & Hself & _ & _ & Hout & Hr & _);
    [reflexivity | cbn; lia | cbn; lia | lia | lia | discriminate | |].
  - repeat (constructor; [solve_rect|]). constructor.
  - exists self, out. split; [exact Hself|]. split; [exact Hout | exact Hr].
Defined.

(** ** Blending the tiles of one image *)

Section BlendImage.
Variables (ts : Z) (h w : nat) (window P : raster Q).
Hypothesis Hwin : rect (Z.to_nat ts) (Z.to_nat ts) window.
Hypothesis HP : rect h w P.

(** A tile cut from [P] at its position keeps the invariant. *)
Lemma blend_tile_image_step (acc : raster Q * raster Q) (pos : Z * Z) :
  rect h w acc.1 -> rect h w acc.2 ->
  in_bounds ts (h, w) pos ->
  blend_inv_image P acc ->
  exists acc',
    blend_tile ts window acc
      (slice2 pos.1 (pos.1 + ts) pos.2 (pos.2 + ts) P, pos) = Ok acc'
    /\ rect h w acc'.1 /\ rect h w acc'.2 /\ blend_inv_image P acc'.
Proof.
  destruct acc as [rec wm]. destruct pos as [y x]. cbn [fst snd].
  intros Hrec Hwm Hb Hinv. unfold blend_tile.
  set (tile := slice2 y (y + ts) x (x + ts) P).
  assert (Htile : rect (Z.to_nat ts) (Z.to_nat ts) tile)
    by (apply (rect_region ts h w); assumption).
  set (iregion := slice2 y (y + ts) x (x + ts) rec).
  set (wregion := slice2 y (y + ts) x (x + ts) wm).
  assert (Hir : rect (Z.to_nat ts) (Z.to_nat ts) iregion)
    by (apply (rect_region ts h w); assumption).
  assert (Hwr : rect (Z.to_nat ts) (Z.to_nat ts) wregion)
    by (apply (rect_region ts h w); assumption).
  rewrite (same_shape_rect _ _ window tile Hwin Htile).
  rewrite (same_shape_rect _ _ window iregion Hwin Hir).
  rewrite (same_shape_rect _ _ window wregion Hwin Hwr). cbn [andb].
  assert (Hni : rect (Z.to_nat ts) (Z.to_nat ts)
                  (zip2d Qplus iregion (zip2d Qmult tile window))).
  { apply rect_zip2d; [exact Hir|]. apply rect_zip2d; assumption. }
  assert (Hnw : rect (Z.to_nat ts) (Z.to_nat ts) (zip2d Qplus wregion window)).
  { apply rect_zip2d; assumption. }
  eexists. split; [reflexivity|]. cbn [fst snd].
  split; [apply rect_set_region; assumption|].
  split; [apply rect_set_region; assumption|].
  intros i j r wv pv. cbn [fst snd].
  rewrite !(at2_set_region ts h w) by assumption.
  destruct (bool_decide_reflect (covers ts (y, x) i j)) as [Hcov|Hout];
    [|apply Hinv].
  rewrite !at2_zip2d. unfold iregion, wregion, tile.
  rewrite !(at2_region ts h w) by assumption.
  destruct (at2 rec i j) as [r0|] eqn:Hr0; cbn; [|discriminate].
  destruct (at2 P i j) as [pv0|] eqn:Hp0; cbn; [|discriminate].
  destruct (at2 wm i j) as [wv0|] eqn:Hw0; cbn;
    [|destruct (at2 window _ _); discriminate].
  destruct (at2 window (i - Z.to_nat y) (j - Z.to_nat x)) as [wn|]; cbn;
    [|discriminate].
  intros [= <-] [= <-] [= <-].
  rewrite (Hinv i j r0 wv0 pv0 Hr0 Hw0 Hp0). ring.
Qed.

(** The accumulation loop over tiles cut from [P]. *)
Lemma blend_loop_image (tiles : list (raster Q * (Z * Z))) :
  forall acc,
  rect h w acc.1 -> rect h w acc.2 -> blend_inv_image P acc ->
  Forall (fun t => t.1 = slice2 t.2.1 (t.2.1 + ts) t.2.2 (t.2.2 + ts) P
                   /\ in_bounds ts (h, w) t.2) tiles ->
  exists acc',
    foldM (blend_tile ts window) acc tiles = Ok acc'
    /\ rect h w acc'.1 /\ rect h w acc'.2 /\ blend_inv_image P acc'.
Proof.
  induction tiles as [|[tile pos] rest IH]; intros acc Hrec Hwm Hinv Htiles.
  - exists acc. split; [reflexivity|].
    split; [exact Hrec|]. split; [exact Hwm | exact Hinv].
  - inversion Htiles as [|? ? [Htile Hb] Hrest]; subst. cbn [fst snd] in *. subst tile.
    destruct (blend_tile_image_step acc pos Hrec Hwm Hb Hinv)
      as (acc1 & Hstep & Hrec1 & Hwm1 & Hinv1).
    destruct (IH acc1 Hrec1 Hwm1 Hinv1 Hrest) as (acc' & Hrun & Hres).
    exists acc'. split; [|exact Hres]. cbn [foldM]. rewrite Hstep. exact Hrun.
Qed.

End BlendImage.

(** The quotient: the image where the accumulated weight is not zero,
    0 where it is. *)
Lemma normalize_extracted (P rec wm : raster Q) (i j : nat) (wv pv : Q) :
  blend_inv_image P (rec, wm) ->
  at2 wm i j = Some wv -> at2 P i j = Some pv ->
  forall v, at2 (normalize rec wm) i j = Some v ->
    ((wv == 0)%Q -> (v == 0)%Q) /\ (~ (wv == 0)%Q -> (v == pv)%Q).
Proof.
  intros Hinv Hwv Hpv v. unfold normalize. rewrite at2_zip2d, at2_map2d, Hwv.
  destruct (at2 rec i j) as [r|] eqn:Hr; cbn; [|discriminate].
  intros [= <-]. pose proof (Hinv i j r wv pv Hr Hwv Hpv) as Heq. cbn in Heq.
  destruct (Qeq_bool wv 0) eqn:Hz.
  - apply Qeq_bool_iff in Hz. split; [|intros Hnz; contradiction].
    intros _. rewrite Heq, Hz. unfold Qdiv. ring.
  - apply Qeq_bool_neq in Hz. split; [intros Hzero; contradiction|].
    intros _. rewrite Heq. apply Qdiv_mult_l. exact Hz.
Qed.

(** X13.  Blending gives back the image the tiles were cut from.  When the
    tiles are those [_extract_tiles] cuts from a padded image and the
    positions are theirs, [combine_continuous_tiles] returns a raster of
    the pre-pad size whose value at a pixel is (in exact arithmetic)
    that of the padded image at the pixel where the accumulated window
    weight is not zero, and 0 where it is zero. *)
Theorem blend_extracted_tiles (self : SegFlow) (hanning : list Q)
    (window padded : raster Q) (h w : nat) (p : Padding)
    (extracted : list (raster Q * (Z * Z))) :
  image_padded self = Some (h, w) ->
  padding self = Some p ->
  pads_fit p (h, w) ->
  0 < stride self ->
  len hanning = tile_size self ->
  hann_window hanning = Ok window ->
  rect h w padded ->
  _extract_tiles padded (tile_size self) (stride self) = Ok extracted ->
  extracted <> [] ->
  positions self = Some extracted.*2 ->
  exists acc out,
    blend_loop (tile_size self) window (h, w) extracted = Ok acc
    /\ combine_continuous_tiles self hanning extracted.*1 = Ok out
    /\ rect (Z.to_nat (Z.of_nat h - pad_bottom p - pad_top p))
            (Z.to_nat (Z.of_nat w - pad_right p - pad_left p)) out
    /\ forall i j,
         (i < Z.to_nat (Z.of_nat h - pad_bottom p - pad_top p))%nat ->
         (j < Z.to_nat (Z.of_nat w - pad_right p - pad_left p))%nat ->
         exists v wv pv,
           at2 out i j = Some v
           /\ at2 acc.2 (Z.to_nat (pad_top p) + i) (Z.to_nat (pad_left p) + j)
              = Some wv
           /\ at2 padded (Z.to_nat (pad_top p) + i) (Z.to_nat (pad_left p) + j)
              = Some pv
           /\ ((wv == 0)%Q -> (v == 0)%Q)
           /\ (~ (wv == 0)%Q -> (v == pv)%Q).
Proof.
  intros Hip Hp (Ht & Hb & Hl & Hr & Hh & Hw) Hst Hlen Hwindow HP Hex Hne Hpos.
  cbn [fst snd] in Hh, Hw.
  set (ts := tile_size self) in *.
  assert (Hts : 0 <= ts) by (unfold len in Hlen; lia).
  assert (Hwin : rect (Z.to_nat ts) (Z.to_nat ts) window).
  { replace (Z.to_nat ts) with (length hanning) by (unfold len in Hlen; lia).
    apply rect_hann_window, Hwindow. }
  destruct (extract_tiles_rect padded h w ts (stride self) HP Hts Hst)
    as (extracted' & Hex' & Hrects).
  rewrite Hex in Hex'. injection Hex' as <-.
  assert (Hzip : zip extracted.*1 extracted.*2 = extracted) by apply zip_fst_snd.
  destruct (blend_loop_image ts h w window padded Hwin HP
              extracted (np_zeros 0%Q h w, np_zeros 0%Q h w))
    as ([rec wm] & Hrun & Hrec & Hwm & Hinv).
  - apply rect_np_zeros.
  - apply rect_np_zeros.
  - intros i j r wv pv Hr0 Hw0 _. cbn [fst snd] in Hr0, Hw0.
    apply at2_np_zeros_inv in Hr0, Hw0. subst. ring.
  - eapply Forall_impl; [exact Hrects|]. intros t (_ & Hbt & Heq). auto.
  - cbn [fst snd] in Hrec, Hwm.
    assert (Hnorm : rect h w (normalize rec wm)).
    { unfold normalize. apply rect_zip2d; [exact Hrec | apply rect_map2d, Hwm]. }
    exists (rec, wm). eexists. split; [exact Hrun|]. split.
    { unfold combine_continuous_tiles. rewrite Hip.
      rewrite bool_decide_eq_false_2
        by (intros Hnil; apply fmap_nil_inv in Hnil; contradiction).
      rewrite Hwindow. cbn [rbind]. rewrite Hpos, Hzip.
      fold ts. unfold blend_loop. cbn [fst snd]. rewrite Hrun. cbn [rbind fst snd].
      apply (crop_padded_central self p (h, w) h w); assumption. }
    split.
    { apply (rect_slice2 h w); [exact Hnorm | lia..]. }
    intros i j Hi Hj. cbn [fst snd].
    rewrite (at2_slice2 h w) by (try exact Hnorm; lia).
    destruct (at2_is_Some h w (normalize rec wm)
                (Z.to_nat (pad_top p) + i) (Z.to_nat (pad_left p) + j) Hnorm)
      as [v Hv]; [lia..|].
    destruct (at2_is_Some h w wm
                (Z.to_nat (pad_top p) + i) (Z.to_nat (pad_left p) + j) Hwm)
      as [wv Hwv]; [lia..|].
    destruct (at2_is_Some h w padded
                (Z.to_nat (pad_top p) + i) (Z.to_nat (pad_left p) + j) HP)
      as [pv Hpv]; [lia..|].
    exists v, wv, pv. split; [exact Hv|]. split; [exact Hwv|]. split; [exact Hpv|].
    exact (normalize_extracted padded rec wm _ _ wv pv Hinv Hwv Hpv v Hv).
Qed.

Lemma blend_extracted_tiles_witness :
  exists extracted out,
    _extract_tiles ramp 3 2 = Ok extracted
    /\ combine_continuous_tiles blend_self [0; 1; 0]%Q extracted.*1 = Ok out
    /\ rect 3 3 out.
Proof.
  destruct (_extract_tiles ramp 3 2) as [extracted|] eqn:Hex; [|discriminate].
  destruct (blend_extracted_tiles blend_self [0; 1; 0]%Q
              [[0; 0; 0]; [0; 1; 0]; [0; 0; 0]]%Q ramp 7 7 (mkPadding 2 2 2 2)
              extracted)
    as (acc & out & _ & Hout & Hrect & _).
  - reflexivity.
  - reflexivity.
  - unfold pads_fit; cbn; lia.
  - cbn; lia.
  - reflexivity.
  - vm_compute. reflexivity.
  - split; [reflexivity | repeat constructor].
  - exact Hex.
  - vm_compute in Hex. injection Hex as <-. discriminate.
  - vm_compute in Hex. injection Hex as <-. reflexivity.
  - exists extracted, out. split; [reflexivity|]. split; [exact Hout | exact Hrect].
Defined.

(** ** The positions and the scored regions *)

(** The positions of the grid depend on the shape alone. *)
Lemma extract_tiles_positions {A B} (a : raster A) (b : raster B) (h w : nat)
    (ts st : Z) ea eb :
  rect h w a -> rect h w b ->
  _extract_tiles a ts st = Ok ea -> _extract_tiles b ts st = Ok eb ->
  ea.*2 = eb.*2.
Proof.
  intros Ha Hb. unfold _extract_tiles.
  destruct (st =? 0); [discriminate|]. intros [= <-] [= <-].
  assert (Hlen : len a = len b)
    by (destruct Ha as [Hla _], Hb as [Hlb _]; unfold len; congruence).
  assert (Hwid : width a = width b).
  { destruct (decide (h = 0)%nat) as [->|Hh].
    - destruct Ha as [Hla _], Hb as [Hlb _].
      destruct a; [|discriminate]. destruct b; [|discriminate]. reflexivity.
    - rewrite (rect_width h w a Ha), (rect_width h w b Hb) by lia. reflexivity. }
  rewrite Hlen, Hwid.
  generalize (grid_starts (len b) ts st). generalize (grid_starts (Z.of_nat (width b)) ts st).
  intros xs ys. induction ys as [|y ys IH]; [reflexivity|].
  cbn [mbind list_bind]. rewrite !fmap_app, IH. f_equal.
  clear IH. induction xs as [|x xs IHx]; [reflexivity|].
  cbn [mbind list_bind fmap list_fmap app snd]. f_equal. exact IHx.
Qed.

(** X14.  A tile is scored against the density map under its own position.
    After [pad_image] and [extract_tiles] on an image of at least one
    row and one column, for a density map of the padded shape and
    tiles of the tile shape, [_calculate_tile_overlaps]
    succeeds, and the dictionary of tile [k] is the one computed from
    the tile and the region of the density map at position [k] of the
    coordinator. *)
Theorem tile_overlaps_use_own_region (self0 : SegFlow) (height width : Z)
    (H W : nat) (full : raster Z) (tiles : list (raster Z)) :
  positions self0 = None ->
  0 < tile_size self0 -> 0 < stride self0 ->
  0 < height -> 0 < width ->
  image_padded (pad_image self0 height width) = Some (H, W) ->
  rect H W full ->
  Forall (rect (Z.to_nat (tile_size self0)) (Z.to_nat (tile_size self0))) tiles ->
  exists self pos covs,
    extract_tiles (pad_image self0 height width) = Ok self
    /\ positions self = Some pos
    /\ _calculate_tile_overlaps self full tiles = Ok covs
    /\ forall k tile q,
         tiles !! k = Some tile -> pos !! k = Some q ->
         exists cov,
           covs !! k = Some cov
           /\ tile_coverage (average_weight self0) (sum_weight self0)
                (min_pixels self0)
                (tile, slice2 q.1 (q.1 + tile_size self0)
                              q.2 (q.2 + tile_size self0) full)
              = Ok cov.
Proof.
  intros Hpos Hts Hst Hheight Hwidth Hshape Hfull Htiles.
  set (ts := tile_size self0) in *. set (st := stride self0) in *.
  destruct (extract_tiles_rect (np_zeros 0 H W) H W ts st (rect_np_zeros 0 H W)
              ltac:(lia) Hst) as (ex0 & Hex0 & _).
  destruct (extract_tiles_rect full H W ts st Hfull ltac:(lia) Hst)
    as (ex & Hex & Hrects).
  pose proof (extract_tiles_positions full (np_zeros 0 H W) H W ts st ex ex0
                Hfull (rect_np_zeros 0 H W) Hex Hex0) as Hsame.
  set (self := {| tile_size := ts; stride := st;
                  average_weight := average_weight self0;
                  sum_weight := sum_weight self0;
                  min_pixels := min_pixels self0;
                  image_padded := Some (H, W);
                  padding := padding (pad_image self0 height width);
                  positions := Some ex0.*2 |}).
  assert (Hself : extract_tiles (pad_image self0 height width) = Ok self).
  { unfold extract_tiles.
    change (positions (pad_image self0 height width)) with (positions self0).
    rewrite Hpos, Hshape. cbn [fst snd].
    change (tile_size (pad_image self0 height width)) with ts.
    change (stride (pad_image self0 height width)) with st.
    rewrite Hex0. cbn [rbind]. unfold self. reflexivity. }
  destruct (mapM_Ok (tile_coverage (average_weight self0) (sum_weight self0)
                                   (min_pixels self0))
                    (zip tiles ex.*1)) as (covs & Hcovs & _ & Hlook).
  { assert (Hd : Forall (rect (Z.to_nat ts) (Z.to_nat ts)) ex.*1).
    { apply Forall_fmap. eapply Forall_impl; [exact Hrects|]. intros t Ht. apply Ht. }
    eapply Forall_impl; [apply (Forall_zip_both _ _ _ _ Htiles Hd)|].
    intros [tile density] [Hrt Hrd]. cbn [fst snd] in Hrt, Hrd.
    destruct (tile_coverage_spec (average_weight self0) (sum_weight self0)
                (min_pixels self0) _ _ tile density Hrt Hrd) as (cov & Hcov & _).
    exists cov. exact Hcov. }
  exists self, ex0.*2, covs. split; [exact Hself|]. split; [reflexivity|]. split.
  { unfold _calculate_tile_overlaps. cbn [tile_size stride self].
    rewrite Hex. cbn [rbind]. exact Hcovs. }
  intros k tile q Hk Hq. rewrite <- Hsame, list_lookup_fmap in Hq.
  destruct (ex !! k) as [t|] eqn:Ht; [|discriminate]. cbn in Hq. injection Hq as <-.
  destruct (proj1 (Forall_lookup _ _) Hrects k t Ht) as (_ & _ & Heq).
  destruct (Hlook k (tile, t.1)) as (cov & Hck & Hcov).
  { rewrite lookup_zip_with, Hk. cbn. rewrite list_lookup_fmap, Ht. reflexivity. }
  exists cov. split; [exact Hck|]. rewrite <- Heq. exact Hcov.
Qed.

Lemma tile_overlaps_use_own_region_witness :
  exists self pos covs,
    extract_tiles (pad_image (__init__ 3 1 (7 # 10) (3 # 10) 5) 1 1) = Ok self
    /\ positions self = Some pos
    /\ _calculate_tile_overlaps self (np_zeros 1 4 4) (replicate 4 (full_tile 1))
       = Ok covs.
Proof.
  destruct (tile_overlaps_use_own_region (__init__ 3 1 (7 # 10) (3 # 10) 5) 1 1 4 4
              (np_zeros 1 4 4) (replicate 4 (full_tile 1)))
    as (self & pos & covs & Hself & Hpos & Hcovs & _);
    [reflexivity | cbn; lia | cbn; lia | lia | lia | reflexivity
     | apply rect_np_zeros | |].
  - repeat (constructor; [solve_rect|]). constructor.
  - exists self, pos, covs. auto.
Defined.

(** ** The cached positions *)

(** X15.  [extract_tiles] computes the positions once and keeps them.  After
    [pad_image] and [extract_tiles] on a first image, [pad_image] on a
    second image records the new pads and the new padded shape, and
    [extract_tiles] returns the positions it holds: those of the grid
    on the first padded image, all within it.  When the second image
    is taller (wider) than the first by the tile size and the stride or
    more, its last row (column) lies in no tile of these positions. *)
Theorem extract_tiles_keeps_cached_positions (self0 : SegFlow)
    (height0 width0 height width : Z) :
  positions self0 = None ->
  0 < tile_size self0 -> 0 < stride self0 ->
  0 < height0 -> 0 < width0 -> 0 < height -> 0 < width ->
  exists self1 pos shape0 p,
    extract_tiles (pad_image self0 height0 width0) = Ok self1
    /\ positions self1 = Some pos
    /\ image_padded self1 = Some shape0
    /\ Forall (in_bounds (tile_size self0) shape0) pos
    /\ extract_tiles (pad_image self1 height width) = Ok (pad_image self1 height width)
    /\ positions (pad_image self1 height width) = Some pos
    /\ padding (pad_image self1 height width) = Some p
    /\ image_padded (pad_image self1 height width)
       = Some (Z.to_nat (pad_total (tile_size self0) (stride self0) height + height),
               Z.to_nat (pad_total (tile_size self0) (stride self0) width + width))
    /\ (height0 + tile_size self0 + stride self0 <= height ->
        forall q (j : nat), q ∈ pos ->
          ~ covers (tile_size self0) q (Z.to_nat (pad_top p + height - 1)) j)
    /\ (width0 + tile_size self0 + stride self0 <= width ->
        forall q (i : nat), q ∈ pos ->
          ~ covers (tile_size self0) q i (Z.to_nat (pad_left p + width - 1))).
Proof.
  intros Hpos Hts Hst Hh0 Hw0 Hh Hw.
  set (ts := tile_size self0) in *. set (st := stride self0) in *.
  pose proof (pad_total_split ts st height0 Hts Hst) as Hph0.
  pose proof (pad_total_split ts st width0 Hts Hst) as Hpw0.
  pose proof (pad_total_split ts st height Hts Hst) as Hph.
  pose proof (pad_total_split ts st width Hts Hst) as Hpw.
  cbn zeta in Hph0, Hpw0, Hph, Hpw.
  set (th0 := pad_total ts st height0) in *.
  set (tw0 := pad_total ts st width0) in *.
  set (th := pad_total ts st height) in *.
  set (tw := pad_total ts st width) in *.
  set (H0 := Z.to_nat (th0 / 2 + height0 + (th0 - th0 / 2))).
  set (W0 := Z.to_nat (tw0 / 2 + width0 + (tw0 - tw0 / 2))).
  destruct (extract_tiles_rect (np_zeros 0 H0 W0) H0 W0 ts st (rect_np_zeros 0 H0 W0)
              ltac:(lia) Hst) as (extracted & Hex & Hrects).
  set (self1 := {| tile_size := ts; stride := st;
                   average_weight := average_weight self0;
                   sum_weight := sum_weight self0;
                   min_pixels := min_pixels self0;
                   image_padded := Some (H0, W0);
                   padding := Some (mkPadding (th0 / 2) (th0 - th0 / 2)
                                              (tw0 / 2) (tw0 - tw0 / 2));
                   positions := Some extracted.*2 |}).
  assert (Hbounds : Forall (in_bounds ts (H0, W0)) extracted.*2).
  { apply Forall_fmap. eapply Forall_impl; [exact Hrects|].
    intros t Ht. apply Ht. }
  exists self1, extracted.*2, (H0, W0),
    (mkPadding (th / 2) (th - th / 2) (tw / 2) (tw - tw / 2)).
  split.
  { unfold extract_tiles.
    change (positions (pad_image self0 height0 width0)) with (positions self0).
    rewrite Hpos.
    change (image_padded (pad_image self0 height0 width0)) with (Some (H0, W0)).
    cbn [fst snd].
    change (tile_size (pad_image self0 height0 width0)) with ts.
    change (stride (pad_image self0 height0 width0)) with st.
    rewrite Hex. reflexivity. }
  split; [reflexivity|]. split; [reflexivity|]. split; [exact Hbounds|].
  split; [reflexivity|]. split; [reflexivity|]. split; [reflexivity|].
  split.
  { cbn [image_padded pad_image self1 tile_size stride]. fold th tw.
    do 3 f_equal; lia. }
  split.
  - intros Htall q j Hq [Hrow _]. cbn [pad_top] in Hrow.
    pose proof (proj1 (Forall_forall _ _) Hbounds q Hq) as (_ & _ & Hy & _).
    cbn [fst snd] in Hy. unfold H0 in Hy. lia.
  - intros Hwide q i Hq [_ Hcol]. cbn [pad_left] in Hcol.
    pose proof (proj1 (Forall_forall _ _) Hbounds q Hq) as (_ & _ & _ & _ & Hx).
    cbn [fst snd] in Hx. unfold W0 in Hx. lia.
Qed.

(** The theorem on [SegFlow(tile_size=3, stride=1)]: after a 1 x 1
    image the four positions stay when a 100 x 100 image is padded, and
    the last row of that image, padded row 100, lies in none of their
    tiles. *)
Lemma extract_tiles_keeps_cached_positions_witness :
  exists self1 p,
    tie_self = Ok self1
    /\ extract_tiles (pad_image self1 100 100) = Ok (pad_image self1 100 100)
    /\ positions (pad_image self1 100 100) = Some [(0, 0); (0, 1); (1, 0); (1, 1)]
    /\ padding (pad_image self1 100 100) = Some p
    /\ pad_top p + 100 - 1 = 100
    /\ ~ covers 3 (1, 1) 100 50.
Proof.
  destruct (extract_tiles_keeps_cached_positions
              (__init__ 3 1 (7 # 10) (3 # 10) 5) 1 1 100 100)
    as (self1 & pos & shape0 & p & Hx1 & Hp1 & _ & _ & Hx & Hp & Hpad & _ & Hrow & _);
    [reflexivity | cbn; lia | cbn; lia | lia | lia | lia | lia |].
  vm_compute in Hx1. injection Hx1 as <-.
  cbn in Hp1. injection Hp1 as <-.
  vm_compute in Hpad. injection Hpad as <-.
  eexists _, _. split; [vm_compute; reflexivity|].
  split; [exact Hx|]. split; [exact Hp|].
  split; [vm_compute; reflexivity|]. split; [reflexivity|].
  apply (Hrow ltac:(cbn; lia) (1, 1) 50%nat). right. right. right. left.
Defined.

(** ** Relabelling at random *)

Lemma py_index_in (n i : Z) : 0 <= i < n -> py_index n i = Ok (Z.to_nat i).
Proof.
  intros Hi. unfold py_index.
  destruct (Z.leb_spec 0 i); [|lia]. destruct (Z.ltb_spec i n); [|lia]. reflexivity.
Qed.

(** Assignment at distinct valid indices: each index holds its value,
    the other cells are unchanged. *)
Lemma assign_loop_spec (indices : list Z) :
  forall (a : list Z) (values : list Z),
  NoDup indices -> Forall (fun i => 0 <= i < len a) indices ->
  length values = length indices ->
  exists a',
    foldM (fun (a : list Z) (iv : Z * Z) =>
             rbind (py_index (len a) iv.1)
                   (fun k => Ok (<[k := wrap32 iv.2]> a)))
          a (zip indices values) = Ok a'
    /\ length a' = length a
    /\ (forall r i x, indices !! r = Some i -> values !! r = Some x ->
          a' !! Z.to_nat i = Some (wrap32 x))
    /\ (forall k : nat, Z.of_nat k ∉ indices -> a' !! k = a !! k).
Proof.
  induction indices as [|i indices IH]; intros a values Hnd Hin Hlen.
  - exists a. split; [reflexivity|]. split; [reflexivity|].
    split; [intros r i x Hr; discriminate | reflexivity].
  - destruct values as [|x values]; [discriminate|].
    apply NoDup_cons in Hnd. destruct Hnd as [Hni Hnd].
    inversion Hin as [|? ? Hi Hrest]; subst.
    change (zip (i :: indices) (x :: values)) with ((i, x) :: zip indices values).
    cbn [foldM fst snd]. rewrite py_index_in by exact Hi. cbn [rbind].
    destruct (IH (<[Z.to_nat i := wrap32 x]> a) values Hnd) as (a' & Hrun & Hl & Hset & Hkeep).
    { eapply Forall_impl; [exact Hrest|]. intros j Hj. cbv beta in *.
      unfold len in *. rewrite length_insert. exact Hj. }
    { cbn in Hlen. lia. }
    exists a'. split; [exact Hrun|].
    split; [rewrite Hl; apply length_insert|]. split.
    + intros [|r] j y Hr Hy; cbn in Hr, Hy.
      * injection Hr as <-. injection Hy as <-.
        rewrite (Hkeep (Z.to_nat i)) by (rewrite Z2Nat.id by lia; exact Hni).
        apply list_lookup_insert_eq. unfold len in Hi. lia.
      * apply (Hset r j y Hr Hy).
    + intros k Hk. rewrite Hkeep by (intros Hin'; apply Hk; right; exact Hin').
      apply list_lookup_insert_ne. intros Heq. apply Hk.
      replace (Z.of_nat k) with i by lia. left.
Qed.

Lemma mapM_fmap {A B} (f : A -> result B) (g : A -> B) (l : list A) :
  (forall x, x ∈ l -> f x = Ok (g x)) -> mapM f l = Ok (g <$> l).
Proof.
  induction l as [|x l IH]; intros Hf; [reflexivity|].
  cbn [mapM]. rewrite (Hf x) by left. cbn [rbind].
  rewrite IH by (intros y Hy; apply Hf; right; exact Hy). reflexivity.
Qed.

Lemma take_at_map2d (a : list Z) (image : raster Z) (g : Z -> Z) :
  (forall v, v ∈ ravel image ->
     exists k, py_index (len a) v = Ok k /\ a !! k = Some (g v)) ->
  take_at a image = Ok (map2d g image).
Proof.
  intros Hg. unfold take_at, map2d. apply mapM_fmap. intros row Hrow.
  apply mapM_fmap. intros v Hv.
  destruct (Hg v) as (k & Hk & Hak).
  { unfold ravel. apply list_elem_of_join. exists row. split; assumption. }
  rewrite Hk. cbn [rbind]. rewrite Hak. reflexivity.
Qed.

Lemma NoDup_np_unique (l : list Z) : NoDup (np_unique l).
Proof.
  unfold np_unique. rewrite merge_sort_Permutation. apply NoDup_remove_dups.
Qed.

(** The relabelling, on the body the two methods share. *)
Lemma randomize_labels_spec (permutation : Z -> list Z)
    (image : raster Z) (h w : nat) :
  rect h w image -> (0 < h)%nat -> (0 < w)%nat ->
  (forall v, v ∈ ravel image -> 0 <= v) ->
  let n := len (filter (fun l : Z => 0 < l) (np_unique (ravel image))) in
  permutation n ≡ₚ Z.of_nat <$> seq 0 (Z.to_nat n) ->
  n < 2 ^ 31 ->
  exists out,
    randomize_labels permutation image = Ok out
    /\ rect h w out
    /\ (forall i j v, at2 image i j = Some v ->
          exists o, at2 out i j = Some o
                    /\ (v = 0 -> o = 0) /\ (0 < v -> 1 <= o <= n))
    /\ (forall i j i' j' v v' o o',
          at2 image i j = Some v -> at2 image i' j' = Some v' ->
          at2 out i j = Some o -> at2 out i' j' = Some o' ->
          (o = o' <-> v = v'))
    /\ (forall k, 1 <= k <= n -> k ∈ ravel out).
Proof.
  intros Hr Hh Hw Hnn n Hperm Hn.
  set (U := np_unique (ravel image)) in *.
  set (P := filter (fun l : Z => 0 < l) U) in *.
  set (R := (fun k : Z => k + 1) <$> permutation n).
  (* the image has a cell *)
  destruct (at2_is_Some h w image 0 0 Hr Hh Hw) as [v0 Hv0].
  assert (Hv0in : v0 ∈ ravel image) by (apply elem_of_ravel_at2; eauto).
  assert (HUne : U <> []).
  { intros Hnil. apply elem_of_np_unique in Hv0in. fold U in Hv0in.
    rewrite Hnil in Hv0in. inversion Hv0in. }
  assert (Hmax : forall v, v ∈ ravel image -> 0 <= v <= np_max U).
  { intros v Hv. split; [apply Hnn, Hv|]. apply np_max_ge, elem_of_np_unique, Hv. }
  assert (Hmax0 : 0 <= np_max U) by (specialize (Hmax v0 Hv0in); lia).
  set (size := np_max U + 1) in *.
  (* the permutation *)
  assert (HlenP : length (permutation n) = length P).
  { rewrite Hperm, length_fmap, length_seq. unfold n, len. fold U P. lia. }
  assert (HndP : NoDup P) by (apply NoDup_filter, NoDup_np_unique).
  assert (HPin : forall l, l ∈ P <-> 0 < l /\ l ∈ ravel image).
  { intros l. unfold P. rewrite list_elem_of_filter. unfold U.
    rewrite elem_of_np_unique. reflexivity. }
  assert (Hpr : forall x, x ∈ permutation n <-> 0 <= x < n).
  { intros x. rewrite Hperm, list_elem_of_fmap. split.
    - intros (k & -> & Hk). apply elem_of_seq in Hk. lia.
    - intros Hx. exists (Z.to_nat x). split; [lia|]. apply elem_of_seq. lia. }
  assert (Hndperm : NoDup (permutation n)).
  { rewrite Hperm. apply NoDup_fmap_2; [intros a b; lia | apply NoDup_seq]. }
  (* the mapping *)
  destruct (assign_loop_spec P (replicate (Z.to_nat size) 0) R HndP)
    as (M & HM & HlM & Hset & Hkeep).
  { apply Forall_forall. intros l Hl. apply HPin in Hl. destruct Hl as [Hpos Hl].
    specialize (Hmax l Hl). unfold len. rewrite length_replicate. unfold size. lia. }
  { unfold R. rewrite length_fmap. exact HlenP. }
  rewrite length_replicate in HlM.
  (* the value the mapping holds for a label of the image *)
  set (g := fun v : Z => default 0 (M !! Z.to_nat v)).
  assert (Hidx : forall v, v ∈ ravel image ->
            exists k, py_index (len M) v = Ok k /\ M !! k = Some (g v)).
  { intros v Hv. specialize (Hmax v Hv).
    exists (Z.to_nat v). split.
    - apply py_index_in. unfold len. rewrite HlM. unfold size. lia.
    - unfold g. destruct (lookup_lt_is_Some_2 M (Z.to_nat v)) as [x Hx];
        [unfold size in HlM; lia|]. rewrite Hx. reflexivity. }
  assert (Hg0 : g 0 = 0).
  { unfold g. change (Z.to_nat 0) with 0%nat. rewrite (Hkeep 0%nat).
    - rewrite lookup_replicate_2 by (unfold size; lia). reflexivity.
    - intros Hin. apply HPin in Hin. cbn in Hin. lia. }
  assert (Hgpos : forall v, 0 < v -> v ∈ ravel image ->
            exists r x, P !! r = Some v /\ permutation n !! r = Some x
                        /\ g v = x + 1 /\ 0 <= x < n).
  { intros v Hpos Hv.
    assert (HvP : v ∈ P) by (apply HPin; auto).
    apply list_elem_of_lookup in HvP. destruct HvP as [r Hr'].
    destruct (lookup_lt_is_Some_2 (permutation n) r) as [x Hx].
    { rewrite HlenP. apply lookup_lt_is_Some. eauto. }
    assert (Hxr : 0 <= x < n) by (apply Hpr, (list_elem_of_lookup_2 _ r), Hx).
    exists r, x. split; [exact Hr'|]. split; [exact Hx|]. split; [|exact Hxr].
    unfold g. rewrite (Hset r v (x + 1) Hr').
    - cbn. apply wrap32_small. lia.
    - unfold R. rewrite list_lookup_fmap, Hx. reflexivity. }
  assert (Hrun : randomize_labels permutation image = Ok (map2d g image)).
  { unfold randomize_labels. fold U P. fold n. fold R.
    rewrite bool_decide_eq_false_2 by exact HUne.
    fold size. destruct (Z.ltb_spec size 0); [unfold size in *; lia|].
    unfold assign_at.
    replace (len R =? len P) with true
      by (symmetry; apply Z.eqb_eq; unfold len, R; rewrite length_fmap; lia).
    rewrite HM. cbn [rbind]. apply take_at_map2d, Hidx. }
  exists (map2d g image). split; [exact Hrun|].
  split; [apply rect_map2d, Hr|]. split; [|split].
  - intros i j v Hv. exists (g v). rewrite at2_map2d, Hv.
    split; [reflexivity|]. split.
    + intros ->. exact Hg0.
    + intros Hpos.
      destruct (Hgpos v Hpos) as (r & x & _ & _ & -> & Hx);
        [apply elem_of_ravel_at2; eauto | lia].
  - intros i j i' j' v v' o o' Hv Hv' Ho Ho'.
    rewrite at2_map2d, Hv in Ho. rewrite at2_map2d, Hv' in Ho'.
    injection Ho as <-. injection Ho' as <-.
    split; [|intros ->; reflexivity]. intros Heq.
    assert (Hvin : v ∈ ravel image) by (apply elem_of_ravel_at2; eauto).
    assert (Hvin' : v' ∈ ravel image) by (apply elem_of_ravel_at2; eauto).
    pose proof (Hnn v Hvin) as Hv0'. pose proof (Hnn v' Hvin') as Hv0''.
    destruct (Z.eq_dec v 0) as [->|Hnz]; destruct (Z.eq_dec v' 0) as [->|Hnz'].
    + reflexivity.
    + destruct (Hgpos v' ltac:(lia) Hvin') as (r & x & _ & _ & Hg & Hx).
      rewrite Hg0, Hg in Heq. lia.
    + destruct (Hgpos v ltac:(lia) Hvin) as (r & x & _ & _ & Hg & Hx).
      rewrite Hg0, Hg in Heq. lia.
    + destruct (Hgpos v ltac:(lia) Hvin) as (r & x & HPr & Hxr & Hg & Hx).
      destruct (Hgpos v' ltac:(lia) Hvin') as (r' & x' & HPr' & Hxr' & Hg' & Hx').
      rewrite Hg, Hg' in Heq. assert (x = x') by lia. subst x'.
      assert (r = r') by exact (NoDup_lookup _ r r' x Hndperm Hxr Hxr'). subst r'.
      congruence.
  - intros k Hk.
    assert (Hkin : k - 1 ∈ permutation n) by (apply Hpr; lia).
    apply list_elem_of_lookup in Hkin. destruct Hkin as [r Hr'].
    destruct (lookup_lt_is_Some_2 P r) as [l Hl].
    { rewrite <- HlenP. apply lookup_lt_is_Some. eauto. }
    assert (HlP : l ∈ P) by (apply (list_elem_of_lookup_2 _ r), Hl).
    apply HPin in HlP. destruct HlP as [Hpos Hlin].
    apply elem_of_ravel_map2d. exists l. split; [|exact Hlin].
    destruct (Hgpos l Hpos Hlin) as (r' & x & HPr & Hxr & Hg & _).
    assert (r' = r) by exact (NoDup_lookup P r' r l HndP HPr Hl). subst r'.
    rewrite Hr' in Hxr. injection Hxr as <-. lia.
Qed.

(** X16.  Both [randomize_segmentation] methods relabel the instances one to
    one with the numbers 1 to n, where n is the number of instances,
    and keep the background: on an image with pixels and no negative
    label, given a generator whose [permutation(n)] is a permutation of
    the numbers below n, the result has the shape of the image, a
    pixel is 0 exactly where the image is, two pixels get one label
    exactly when they had one label, and each of 1 to n is the label
    of some pixel. *)
Theorem randomize_segmentation_bijection (permutation : Z -> list Z)
    (image : raster Z) (h w : nat) :
  rect h w image -> (0 < h)%nat -> (0 < w)%nat ->
  (forall v, v ∈ ravel image -> 0 <= v) ->
  let n := len (filter (fun l : Z => 0 < l) (np_unique (ravel image))) in
  permutation n ≡ₚ Z.of_nat <$> seq 0 (Z.to_nat n) ->
  n < 2 ^ 31 ->
  exists out,
    randomize_segmentation permutation (Some image) = Ok out
    /\ (forall self, SegmentationImage.data self = image ->
          SegmentationImageMethods.randomize_segmentation permutation self
          = Ok (SegmentationImage.__new__ out))
    /\ rect h w out
    /\ (forall i j v, at2 image i j = Some v ->
          exists o, at2 out i j = Some o
                    /\ (v = 0 -> o = 0) /\ (0 < v -> 1 <= o <= n))
    /\ (forall i j i' j' v v' o o',
          at2 image i j = Some v -> at2 image i' j' = Some v' ->
          at2 out i j = Some o -> at2 out i' j' = Some o' ->
          (o = o' <-> v = v'))
    /\ (forall k, 1 <= k <= n -> k ∈ ravel out).
Proof.
  intros Hr Hh Hw Hnn n Hperm Hn.
  destruct (randomize_labels_spec permutation image h w Hr Hh Hw Hnn Hperm Hn)
    as (out & Hrun & Hrest).
  exists out. split; [exact Hrun|]. split; [|exact Hrest].
  intros self Hself. unfold SegmentationImageMethods.randomize_segmentation.
  rewrite Hself, Hrun. reflexivity.
Qed.

Lemma randomize_segmentation_bijection_witness :
  exists out,
    randomize_segmentation (fun _ => [1; 0]) (Some [[0; 7]; [7; 3]]) = Ok out
    /\ SegmentationImageMethods.randomize_segmentation (fun _ => [1; 0])
         (SegmentationImage.__new__ [[0; 7]; [7; 3]])
       = Ok (SegmentationImage.__new__ out)
    /\ rect 2 2 out.
Proof.
  destruct (randomize_segmentation_bijection (fun _ => [1; 0]) [[0; 7]; [7; 3]] 2 2)
    as (out & Hcore & Hself & Hr & _).
  - split; [reflexivity | repeat constructor].
  - lia.
  - lia.
  - intros v Hv. cbn in Hv.
    repeat (apply elem_of_cons in Hv; destruct Hv as [->|Hv]; [lia|]).
    inversion Hv.
  - cbn. apply perm_swap.
  - reflexivity.
  - exists out. split; [exact Hcore|]. split; [apply Hself; reflexivity | exact Hr].
Defined.

(** ** Masking a segmentation *)

(** ** Methods of [SegmentationImage] *)

Module MethodProps.
Import SegmentationImage SegmentationImageMethods MaskVocabulary.

Lemma count_true_nonneg (l : list bool) : 0 <= count_true l.
Proof.
  unfold count_true. induction l as [|b l IH]; cbn; [lia|].
  unfold np_sum in IH. destruct b; lia.
Qed.

Lemma count_true_pos (l : list bool) : true ∈ l -> 0 < count_true l.
Proof.
  unfold count_true. induction l as [|b l IH]; intros Hin.
  - apply elem_of_nil in Hin. contradiction.
  - pose proof (count_true_nonneg l) as Hn. unfold count_true, np_sum in Hn.
    cbn. destruct b; [lia|].
    apply elem_of_cons in Hin. destruct Hin as [Heq|Hin]; [discriminate|].
    specialize (IH Hin). unfold np_sum in IH. lia.
Qed.

Lemma has_missing_cells_loop_false (self : t) (labels : list Z) :
  (forall l, l ∈ labels -> l ∈ ravel (data self)) ->
  has_missing_cells_loop self labels = false.
Proof.
  induction labels as [|label rest IH]; intros Hin; [reflexivity|].
  cbn [has_missing_cells_loop].
  assert (Hrest : has_missing_cells_loop self rest = false).
  { apply IH. intros l Hl. apply Hin. right. exact Hl. }
  destruct (label =? 0); [exact Hrest|].
  assert (Hpos : 0 < count_true (ravel (map2d (fun v => v =? label) (data self)))).
  { apply count_true_pos. apply elem_of_ravel_map2d. exists label.
    split; [symmetry; apply Z.eqb_refl | apply Hin; left]. }
  destruct (Z.eqb_spec (count_true (ravel (map2d (fun v => v =? label) (data self)))) 0);
    [lia | exact Hrest].
Qed.

(** X17.  [has_missing_cells] returns [False] on every image: the labels it
    looks for are those of the pixels, so each has a pixel. *)
Theorem has_missing_cells_never (self : t) : has_missing_cells self = false.
Proof.
  apply has_missing_cells_loop_false. intros l Hl.
  apply elem_of_np_unique, Hl.
Qed.

Lemma np_unique_01 (l : list Z) :
  np_unique l = [0; 1]
  <-> 0 ∈ l /\ 1 ∈ l /\ forall v, v ∈ l -> v = 0 \/ v = 1.
Proof.
  split.
  - intros HU. repeat split.
    + apply elem_of_np_unique. rewrite HU. left.
    + apply elem_of_np_unique. rewrite HU. right. left.
    + intros v Hv. apply elem_of_np_unique in Hv. rewrite HU in Hv.
      apply elem_of_cons in Hv. destruct Hv as [->|Hv]; [left; reflexivity|].
      apply list_elem_of_singleton in Hv. right. exact Hv.
  - intros (H0 & H1 & Hall).
    pose proof (NoDup_np_unique l) as Hnd.
    assert (Hs : Sorted Z.le (np_unique l)) by apply (Sorted_merge_sort Z.le).
    assert (Hin : forall v, v ∈ np_unique l -> v = 0 \/ v = 1)
      by (intros v Hv; apply Hall, elem_of_np_unique, Hv).
    apply elem_of_np_unique in H0, H1.
    destruct (np_unique l) as [|a [|b [|c r]]].
    + inversion H0.
    + apply list_elem_of_singleton in H0, H1. lia.
    + apply NoDup_cons in Hnd. destruct Hnd as [Hab _].
      assert (a <> b) by (intros ->; apply Hab; left).
      inversion Hs as [|? ? _ Hhd]; subst. inversion Hhd; subst.
      destruct (Hin a ltac:(left)); destruct (Hin b ltac:(right; left)); subst;
        try lia; reflexivity.
    + apply NoDup_cons in Hnd. destruct Hnd as [Ha Hnd].
      apply NoDup_cons in Hnd. destruct Hnd as [Hb _].
      assert (a <> b) by (intros ->; apply Ha; left).
      assert (a <> c) by (intros ->; apply Ha; right; left).
      assert (b <> c) by (intros ->; apply Hb; left).
      destruct (Hin a ltac:(left)); destruct (Hin b ltac:(right; left));
        destruct (Hin c ltac:(right; right; left)); lia.
Qed.

(** X18.  An integer mask whose values are not exactly 0 and 1 (a mask
    without a false pixel, or without a true one, or with a value such
    as 2 or 255) makes [apply_binary_mask] raise [NameError]: the
    warning it wants to issue calls [warn], which the module never
    binds.  This holds for every method string. *)
Theorem apply_binary_mask_warn_unbound (centroids : list (Z * (Z * Z)))
    (self binary_mask : t) (method : string) :
  ~ (0 ∈ ravel (data binary_mask) /\ 1 ∈ ravel (data binary_mask)
     /\ forall v, v ∈ ravel (data binary_mask) -> v = 0 \/ v = 1) ->
  apply_binary_mask centroids self binary_mask false method
  = Err (NameError "warn").
Proof.
  intros Hnot. unfold apply_binary_mask.
  rewrite bool_decide_eq_false_2 by (intros HU; apply Hnot, np_unique_01, HU).
  reflexivity.
Qed.

Lemma apply_binary_mask_warn_unbound_witness :
  apply_binary_mask [] (__new__ [[1; 2]; [0; 2]]) (__new__ [[1; 1]; [1; 1]])
    false "any_in"
  = Err (NameError "warn").
Proof.
  apply apply_binary_mask_warn_unbound.
  intros (H0 & _). cbn in H0.
  repeat (apply elem_of_cons in H0; destruct H0 as [H0|H0]; [discriminate|]).
  inversion H0.
Defined.

Lemma select_app {A} (m1 m2 : list bool) (v1 v2 : list A) :
  length m1 = length v1 ->
  select (m1 ++ m2) (v1 ++ v2) = select m1 v1 ++ select m2 v2.
Proof.
  intros Hlen. unfold select.
  rewrite zip_with_app by exact Hlen.
  rewrite filter_app, fmap_app. reflexivity.
Qed.

Lemma elem_of_select_row {A} (m : list bool) (v : list A) (x : A) :
  x ∈ select m v <-> exists j, m !! j = Some true /\ v !! j = Some x.
Proof.
  unfold select. rewrite list_elem_of_fmap. split.
  - intros ([b y] & -> & Hin). apply list_elem_of_filter in Hin.
    destruct Hin as [Hb Hin]. cbn in Hb. subst b.
    apply list_elem_of_lookup in Hin. destruct Hin as [j Hj].
    rewrite lookup_zip_with in Hj. exists j.
    destruct (m !! j) as [b|]; cbn in Hj; [|discriminate].
    destruct (v !! j) as [y'|]; cbn in Hj; [|discriminate].
    injection Hj as -> ->. split; reflexivity.
  - intros (j & Hm & Hv). exists (true, x). split; [reflexivity|].
    apply list_elem_of_filter. split; [reflexivity|].
    apply (list_elem_of_lookup_2 _ j). rewrite lookup_zip_with, Hm. cbn.
    rewrite Hv. reflexivity.
Qed.

(** The cells a boolean mask selects, by position. *)
Lemma elem_of_select_ravel {A} (h w : nat) (mask : raster bool) (a : raster A)
    (x : A) :
  rect h w mask -> rect h w a ->
  x ∈ select (ravel mask) (ravel a)
  <-> exists i j, at2 mask i j = Some true /\ at2 a i j = Some x.
Proof.
  revert h a. induction mask as [|mrow mask IH]; intros h a [Hlm Hrm] [Hla Hra].
  - cbn. split; [intros Hin; inversion Hin|].
    intros (i & j & Hm & _). unfold at2 in Hm. rewrite lookup_nil in Hm. discriminate.
  - destruct a as [|arow a]; [cbn in Hlm, Hla; lia|].
    assert (Hlen : length a = length mask) by (cbn in Hlm, Hla; lia).
    clear Hlm Hla.
    inversion Hrm as [|? ? Hmr Hrm']; subst. inversion Hra as [|? ? Har Hra']; subst.
    unfold ravel. cbn [mjoin list_join].
    rewrite select_app by lia. rewrite elem_of_app, elem_of_select_row.
    fold (ravel mask) (ravel a).
    rewrite (IH (length mask) a (conj eq_refl Hrm') (conj Hlen Hra')).
    split.
    + intros [(j & Hm & Hv)|(i & j & Hm & Hv)].
      * exists 0%nat, j. unfold at2. cbn. auto.
      * exists (S i), j. unfold at2 in *. cbn. auto.
    + intros ([|i] & j & Hm & Hv); unfold at2 in *; cbn in Hm, Hv.
      * left. exists j. auto.
      * right. exists i, j. auto.
Qed.

Section Areas.
Variables (h w : nat) (image mask : raster Z).
Hypothesis Himage : rect h w image.
Hypothesis Hmask : rect h w mask.

Lemma elem_of_true_area (v : Z) :
  v ∈ np_unique (select (ravel (map2d (fun v => 0 <? v) mask)) (ravel image))
  <-> label_in_area image mask true v.
Proof.
  rewrite elem_of_np_unique.
  rewrite (elem_of_select_ravel h w) by (try apply rect_map2d; assumption).
  unfold label_in_area. split.
  - intros (i & j & Hm & Hv). rewrite at2_map2d in Hm.
    destruct (at2 mask i j) as [m|] eqn:Hmij; [|discriminate].
    cbn in Hm. injection Hm as Hm. exists i, j, m. auto.
  - intros (i & j & m & Hv & Hm & Hin). exists i, j.
    rewrite at2_map2d, Hm. cbn. rewrite Hin. auto.
Qed.

Lemma elem_of_false_area (v : Z) :
  v ∈ np_unique (select (ravel (map2d negb (map2d (fun v => 0 <? v) mask)))
                        (ravel image))
  <-> label_in_area image mask false v.
Proof.
  rewrite elem_of_np_unique.
  rewrite (elem_of_select_ravel h w) by (repeat apply rect_map2d; assumption).
  unfold label_in_area. split.
  - intros (i & j & Hm & Hv). rewrite !at2_map2d in Hm.
    destruct (at2 mask i j) as [m|] eqn:Hmij; [|discriminate].
    cbn in Hm. injection Hm as Hm. exists i, j, m.
    split; [exact Hv|]. split; [exact Hmij|].
    destruct (0 <? m); [discriminate | reflexivity].
  - intros (i & j & m & Hv & Hm & Hin). exists i, j.
    rewrite !at2_map2d, Hm. cbn. rewrite Hin. auto.
Qed.

Lemma at2_zero_where (labels : list Z) (i j : nat) (v : Z) :
  at2 image i j = Some v ->
  at2 (np_where (np_isin image labels) (map2d (fun _ => 0) image) image) i j
  = Some (if bool_decide (v ∈ labels) then 0 else v).
Proof.
  intros Hv. unfold np_isin. rewrite at2_np_where, !at2_map2d, Hv. reflexivity.
Qed.

Lemma rect_zero_where (labels : list Z) :
  rect h w (np_where (np_isin image labels) (map2d (fun _ => 0) image) image).
Proof.
  apply rect_np_where; [apply rect_map2d, Himage | apply rect_map2d, Himage | exact Himage].
Qed.

End Areas.

(** X19.  The two area methods of [apply_binary_mask], instance by instance.
    For an image and a mask of one shape, the mask boolean or with the
    values 0 and 1: 'any_in' keeps the pixels of every label that has a
    pixel where the mask is true and sets the others to 0; 'all_in'
    sets to 0 the pixels of every label that has a pixel where the mask
    is false and keeps the others; a pixel 'all_in' keeps, 'any_in'
    keeps too. *)
Theorem apply_binary_mask_area_methods (centroids : list (Z * (Z * Z)))
    (self binary_mask : t) (mask_is_bool : bool) (h w : nat) :
  rect h w (data self) -> rect h w (data binary_mask) ->
  plain_mask (data binary_mask) mask_is_bool ->
  exists any_in all_in,
    apply_binary_mask centroids self binary_mask mask_is_bool "any_in"
      = Ok (__new__ any_in)
    /\ apply_binary_mask centroids self binary_mask mask_is_bool "all_in"
      = Ok (__new__ all_in)
    /\ rect h w any_in /\ rect h w all_in
    /\ forall i j v, at2 (data self) i j = Some v ->
         (label_in_area (data self) (data binary_mask) true v ->
            at2 any_in i j = Some v)
         /\ (~ label_in_area (data self) (data binary_mask) true v ->
            at2 any_in i j = Some 0)
         /\ (label_in_area (data self) (data binary_mask) false v ->
            at2 all_in i j = Some 0)
         /\ (~ label_in_area (data self) (data binary_mask) false v ->
            at2 all_in i j = Some v)
         /\ (at2 all_in i j = Some v -> at2 any_in i j = Some v).
Proof.
  intros Himage Hmask Hplain.
  set (image := data self) in *. set (mask := data binary_mask) in *.
  assert (Hquiet : negb (bool_decide (np_unique (ravel mask) = [0; 1]))
                   && negb mask_is_bool = false).
  { destruct Hplain as [->|H01]; [apply andb_false_r|].
    rewrite bool_decide_eq_true_2 by (apply np_unique_01, H01). reflexivity. }
  set (to_zero := filter (fun l : Z => l ∉ np_unique (select (ravel (map2d (fun v => 0 <? v) mask)) (ravel image)))
                         (np_unique (ravel image))).
  set (in_false := np_unique (select (ravel (map2d negb (map2d (fun v => 0 <? v) mask)))
                                     (ravel image))).
  exists (np_where (np_isin image to_zero) (map2d (fun _ => 0) image) image),
         (np_where (np_isin image in_false) (map2d (fun _ => 0) image) image).
  assert (Hany : forall i j v, at2 image i j = Some v ->
            (label_in_area image mask true v ->
               at2 (np_where (np_isin image to_zero) (map2d (fun _ => 0) image) image) i j
               = Some v)
            /\ (~ label_in_area image mask true v ->
               at2 (np_where (np_isin image to_zero) (map2d (fun _ => 0) image) image) i j
               = Some 0)).
  { intros i j v Hv. rewrite (at2_zero_where image to_zero i j v Hv).
    assert (Hin : v ∈ to_zero <-> ~ label_in_area image mask true v).
    { unfold to_zero. rewrite list_elem_of_filter.
      pose proof (elem_of_true_area h w image mask Himage Hmask v) as Hta.
      pose proof (elem_of_np_unique (ravel image) v) as Hu.
      assert (v ∈ ravel image) by (apply elem_of_ravel_at2; eauto).
      tauto. }
    split; intros Har.
    - rewrite bool_decide_eq_false_2 by tauto. reflexivity.
    - rewrite bool_decide_eq_true_2 by tauto. reflexivity. }
  assert (Hall : forall i j v, at2 image i j = Some v ->
            (label_in_area image mask false v ->
               at2 (np_where (np_isin image in_false) (map2d (fun _ => 0) image) image) i j
               = Some 0)
            /\ (~ label_in_area image mask false v ->
               at2 (np_where (np_isin image in_false) (map2d (fun _ => 0) image) image) i j
               = Some v)).
  { intros i j v Hv. rewrite (at2_zero_where image in_false i j v Hv).
    pose proof (elem_of_false_area h w image mask Himage Hmask v) as Hin.
    fold in_false in Hin.
    split; intros Har.
    - rewrite bool_decide_eq_true_2 by tauto. reflexivity.
    - rewrite bool_decide_eq_false_2 by tauto. reflexivity. }
  split; [|split; [|split; [|split]]].
  - unfold apply_binary_mask. fold image mask. rewrite Hquiet. cbn [rbind].
    change (String.eqb "any_in" "centroid_overlap") with false.
    change (String.eqb "any_in" "all_in") with false.
    change (String.eqb "any_in" "any_in") with true. cbv iota.
    unfold bool_index.
    rewrite (same_shape_rect h w image (map2d (fun v => 0 <? v) mask) Himage)
      by (apply rect_map2d, Hmask).
    reflexivity.
  - unfold apply_binary_mask. fold image mask. rewrite Hquiet. cbn [rbind].
    change (String.eqb "all_in" "centroid_overlap") with false.
    change (String.eqb "all_in" "all_in") with true. cbv iota.
    unfold bool_index.
    rewrite (same_shape_rect h w image (map2d negb (map2d (fun v => 0 <? v) mask)) Himage)
      by (do 2 apply rect_map2d; exact Hmask).
    reflexivity.
  - apply rect_zero_where, Himage.
  - apply rect_zero_where, Himage.
  - intros i j v Hv.
    destruct (Hany i j v Hv) as [Hany1 Hany2].
    destruct (Hall i j v Hv) as [Hall1 Hall2].
    split; [exact Hany1|]. split; [exact Hany2|].
    split; [exact Hall1|]. split; [exact Hall2|].
    intros Hkeep.
    destruct (Z.eq_dec v 0) as [->|Hnz].
    + rewrite (at2_zero_where image to_zero i j 0 Hv).
      destruct (bool_decide (0 ∈ to_zero)); reflexivity.
    + destruct (at2_is_Some h w mask i j Hmask) as [m Hm];
        [apply (at2_Some_lt h w image i j v Himage Hv)..|].
      apply Hany1. exists i, j, m. split; [exact Hv|]. split; [exact Hm|].
      destruct (0 <? m) eqn:Hpos; [reflexivity|]. exfalso.
      rewrite Hall1 in Hkeep by (exists i, j, m; auto). congruence.
Qed.

Lemma apply_binary_mask_area_methods_witness :
  exists any_in all_in,
    apply_binary_mask [] (__new__ [[1; 1]; [2; 0]]) (__new__ [[1; 0]; [0; 0]])
      false "any_in" = Ok (__new__ any_in)
    /\ apply_binary_mask [] (__new__ [[1; 1]; [2; 0]]) (__new__ [[1; 0]; [0; 0]])
      false "all_in" = Ok (__new__ all_in)
    /\ at2 any_in 0 1 = Some 1
    /\ at2 all_in 0 1 = Some 0.
Proof.
  destruct (apply_binary_mask_area_methods [] (__new__ [[1; 1]; [2; 0]])
              (__new__ [[1; 0]; [0; 0]]) false 2 2)
    as (any_in & all_in & Hany & Hall & _ & _ & Hcells).
  - split; [reflexivity | repeat constructor].
  - split; [reflexivity | repeat constructor].
  - right. cbn. split; [right; left|]. split; [left|].
    intros v Hv.
    repeat (apply elem_of_cons in Hv; destruct Hv as [->|Hv]; [lia|]).
    inversion Hv.
  - exists any_in, all_in. split; [exact Hany|]. split; [exact Hall|].
    destruct (Hcells 0%nat 1%nat 1 eq_refl) as (Hk & _ & Hz & _).
    split.
    + apply Hk. exists 0%nat, 0%nat, 1. repeat split.
    + apply Hz. exists 0%nat, 1%nat, 0. repeat split.
Defined.

Lemma index2_in {A} (h w : nat) (a : raster A) (i j : Z) :
  rect h w a -> 0 <= i < Z.of_nat h -> 0 <= j < Z.of_nat w ->
  exists x, index2 a i j = Ok x /\ at2 a (Z.to_nat i) (Z.to_nat j) = Some x.
Proof.
  intros Hr Hi Hj. unfold index2.
  assert (Hlen : len a = Z.of_nat h) by (destruct Hr as [<- _]; reflexivity).
  assert (Hwid : width a = w) by (apply (rect_width h w); [exact Hr | lia]).
  rewrite Hlen, Hwid, !py_index_in by lia. cbn [rbind].
  destruct (at2_is_Some h w a (Z.to_nat i) (Z.to_nat j) Hr) as [x Hx]; [lia..|].
  exists x. rewrite Hx. auto.
Qed.

(** The labels the centroid method collects: those of the centroids
    that lie on a false pixel of the mask, in order. *)
Lemma centroids_in_false_areas (h w : nat) (mask : raster bool)
    (centroids : list (Z * (Z * Z))) :
  rect h w mask ->
  Forall (fun c => 0 <= c.2.1 < Z.of_nat h /\ 0 <= c.2.2 < Z.of_nat w) centroids ->
  forall acc,
  foldM (fun (acc : list Z) (c : Z * (Z * Z)) =>
           rbind (index2 mask c.2.1 c.2.2)
                 (fun b => Ok (if b then acc else acc ++ [c.1])))
        acc centroids
  = Ok (acc ++ (filter (fun c => at2 mask (Z.to_nat c.2.1) (Z.to_nat c.2.2)
                                 = Some false) centroids).*1).
Proof.
  intros Hr Hin. induction Hin as [|c cs [Hy Hx] _ IH]; intros acc.
  - cbn. rewrite app_nil_r. reflexivity.
  - cbn [foldM].
    destruct (index2_in h w mask c.2.1 c.2.2 Hr Hy Hx) as (b & Hb & Hat).
    rewrite Hb. cbn [rbind]. rewrite IH, filter_cons, Hat.
    destruct b.
    + rewrite decide_False by discriminate. reflexivity.
    + rewrite decide_True by reflexivity. rewrite fmap_cons, <- app_assoc. reflexivity.
Qed.

(** X20.  The centroid method of [apply_binary_mask].  For an image and a
    mask of one shape, the mask boolean or with the values 0 and 1, and
    centroids that lie within the image: a pixel is set to 0 when its
    label is that of a centroid lying on a false pixel of the mask, and
    is kept otherwise. *)
Theorem apply_binary_mask_centroid_overlap (centroids : list (Z * (Z * Z)))
    (self binary_mask : t) (mask_is_bool : bool) (h w : nat) :
  rect h w (data self) -> rect h w (data binary_mask) ->
  plain_mask (data binary_mask) mask_is_bool ->
  Forall (fun c => 0 <= c.2.1 < Z.of_nat h /\ 0 <= c.2.2 < Z.of_nat w) centroids ->
  exists out,
    apply_binary_mask centroids self binary_mask mask_is_bool "centroid_overlap"
      = Ok (__new__ out)
    /\ rect h w out
    /\ forall i j v, at2 (data self) i j = Some v ->
         ((exists c m, c ∈ centroids /\ c.1 = v
                       /\ at2 (data binary_mask) (Z.to_nat c.2.1) (Z.to_nat c.2.2)
                          = Some m
                       /\ m <= 0) ->
          at2 out i j = Some 0)
         /\ (~ (exists c m, c ∈ centroids /\ c.1 = v
                            /\ at2 (data binary_mask) (Z.to_nat c.2.1) (Z.to_nat c.2.2)
                               = Some m
                            /\ m <= 0) ->
             at2 out i j = Some v).
Proof.
  intros Himage Hmask Hplain Hcent.
  set (image := data self) in *. set (mask := data binary_mask) in *.
  assert (Hquiet : negb (bool_decide (np_unique (ravel mask) = [0; 1]))
                   && negb mask_is_bool = false).
  { destruct Hplain as [->|H01]; [apply andb_false_r|].
    rewrite bool_decide_eq_true_2 by (apply np_unique_01, H01). reflexivity. }
  set (bm := map2d (fun v => 0 <? v) mask).
  set (labels := (filter (fun c : Z * (Z * Z) =>
                            at2 bm (Z.to_nat c.2.1) (Z.to_nat c.2.2) = Some false)
                         centroids).*1).
  exists (np_where (np_isin image labels) (map2d (fun _ => 0) image) image).
  split; [|split].
  - unfold apply_binary_mask. fold image mask. rewrite Hquiet. cbn [rbind].
    change (String.eqb "centroid_overlap" "centroid_overlap") with true. cbv iota.
    fold bm.
    rewrite (centroids_in_false_areas h w bm centroids)
      by (try apply rect_map2d; assumption).
    reflexivity.
  - apply rect_zero_where, Himage.
  - intros i j v Hv. rewrite (at2_zero_where image labels i j v Hv).
    assert (Hin : v ∈ labels
                  <-> exists c m, c ∈ centroids /\ c.1 = v
                        /\ at2 mask (Z.to_nat c.2.1) (Z.to_nat c.2.2) = Some m
                        /\ m <= 0).
    { unfold labels. rewrite list_elem_of_fmap. split.
      - intros (c & -> & Hc). apply list_elem_of_filter in Hc.
        destruct Hc as [Hf Hc]. unfold bm in Hf. rewrite at2_map2d in Hf.
        destruct (at2 mask _ _) as [m|] eqn:Hm; [|discriminate].
        cbn in Hf. injection Hf as Hf. apply Z.ltb_ge in Hf.
        exists c, m. auto.
      - intros (c & m & Hc & <- & Hm & Hle). exists c. split; [reflexivity|].
        apply list_elem_of_filter. split; [|exact Hc].
        unfold bm. rewrite at2_map2d, Hm. cbn. f_equal. apply Z.ltb_ge. exact Hle. }
    split; intros Hc.
    + rewrite bool_decide_eq_true_2 by (apply Hin, Hc). reflexivity.
    + rewrite bool_decide_eq_false_2 by (intros Hl; apply Hc, Hin, Hl). reflexivity.
Qed.

Lemma apply_binary_mask_centroid_overlap_witness :
  exists out,
    apply_binary_mask [(1, (0, 0)); (2, (1, 0))]
      (__new__ [[1; 1]; [2; 0]]) (__new__ [[1; 0]; [0; 0]]) false "centroid_overlap"
    = Ok (__new__ out)
    /\ at2 out 1 0 = Some 0.
Proof.
  destruct (apply_binary_mask_centroid_overlap [(1, (0, 0)); (2, (1, 0))]
              (__new__ [[1; 1]; [2; 0]]) (__new__ [[1; 0]; [0; 0]]) false 2 2)
    as (out & Hrun & _ & Hcells).
  - split; [reflexivity | repeat constructor].
  - split; [reflexivity | repeat constructor].
  - right. cbn. split; [right; left|]. split; [left|].
    intros v Hv.
    repeat (apply elem_of_cons in Hv; destruct Hv as [->|Hv]; [lia|]).
    inversion Hv.
  - repeat (constructor; [cbn; lia|]). constructor.
  - exists out. split; [exact Hrun|].
    destruct (Hcells 1%nat 0%nat 2 eq_refl) as [Hz _]. apply Hz.
    exists (2, (1, 0)), 0. split; [right; left|]. split; [reflexivity|].
    split; [reflexivity | lia].
Defined.

(** X21.  [close_segmentation] closes binary images only.  With
    [closing_pixels] at least 1, on an image that is not boolean and
    whose values are not exactly 0 and 1 (a labelled image, or an
    image without an instance) it raises on the unbound local name
    [new_image], whatever OpenCV would compute; on a binary image it
    returns an image whose pixels are 0 or 1. *)
Theorem close_segmentation_binary_only
    (morphological_closing_fast : raster Z -> Z -> raster Z)
    (self : t) (is_bool : bool) (closing_pixels : Z) :
  1 <= closing_pixels ->
  (~ plain_mask (data self) is_bool ->
   close_segmentation morphological_closing_fast self is_bool closing_pixels
   = Err (NameError "new_image"))
  /\ (plain_mask (data self) is_bool ->
      exists out,
        close_segmentation morphological_closing_fast self is_bool closing_pixels
        = Ok (__new__ out)
        /\ forall v, v ∈ ravel out -> v = 0 \/ v = 1).
Proof.
  intros Hcp. unfold close_segmentation.
  destruct (Z.ltb_spec closing_pixels 1); [lia|]. split.
  - intros Hnot.
    assert (Hb : is_bool = false).
    { destruct is_bool; [|reflexivity]. exfalso. apply Hnot. left. reflexivity. }
    rewrite Hb, bool_decide_eq_false_2; [reflexivity|].
    intros HU. apply Hnot. right. apply np_unique_01, HU.
  - intros Hplain.
    assert (Hb : is_bool || bool_decide (np_unique (ravel (data self)) = [0; 1]) = true).
    { destruct Hplain as [->|H01]; [reflexivity|].
      rewrite bool_decide_eq_true_2 by (apply np_unique_01, H01). apply orb_true_r. }
    rewrite Hb. cbn [rbind]. eexists. split; [reflexivity|].
    intros v Hv. apply elem_of_ravel_map2d in Hv. destruct Hv as (x & -> & _).
    destruct (0 <? x); auto.
Qed.

Lemma close_segmentation_binary_only_witness :
  close_segmentation (fun image _ => image) (__new__ [[0; 3]; [3; 0]]) false 1
  = Err (NameError "new_image").
Proof.
  destruct (close_segmentation_binary_only (fun image _ => image)
              (__new__ [[0; 3]; [3; 0]]) false 1) as [Hraise _]; [lia|].
  apply Hraise. intros [Hb|(_ & H1 & _)]; [discriminate|]. cbn in H1.
  repeat (apply elem_of_cons in H1; destruct H1 as [H1|H1]; [discriminate|]).
  inversion H1.
Defined.

End MethodProps.

(** ** Patches *)

Module PatchProps.
Import SegmentationPatchTiledImage PatchVocabulary.

(** X22.  [from_image] never gets to cut a patch.  On an image without a
    cached area mapping that holds an instance, reading [area] raises
    [NameError]; in every other case reading [minor_axis_length]
    raises [AttributeError], the class naming that property
    [MinorAxisLength]. *)
Theorem from_image_never_cuts (input_image : SegmentationImage.t)
    (bbox_size : Z * Z) :
  from_image input_image bbox_size
  = if bool_decide (SegmentationImage._area_cache input_image = None
                    /\ Exists (fun l => 0 < l)
                              (ravel (SegmentationImage.data input_image)))
    then Err (NameError "labeled_image")
    else Err AttributeError.
Proof.
  unfold from_image.
  change (getattr "centroids") with (Ok tt). change (getattr "area") with (Ok tt).
  change (getattr "minor_axis_length") with (@Err unit AttributeError).
  cbn [rbind].
  destruct (bool_decide_reflect
              (SegmentationImage._area_cache input_image = None
               /\ Exists (fun l => 0 < l) (ravel (SegmentationImage.data input_image))))
    as [[Hcache Hex]|Hnot].
  - apply Exists_exists in Hex. destruct Hex as (l & Hin & Hpos).
    unfold SegmentationImage.area. rewrite Hcache.
    rewrite (AreaProps.calculate_area_raises input_image l Hcache Hpos Hin).
    reflexivity.
  - unfold SegmentationImage.area.
    destruct (SegmentationImage._area_cache input_image) as [cached|] eqn:Hcache;
      [reflexivity|].
    unfold SegmentationImage._calculate_area. rewrite Hcache.
    assert (Hreg : SegmentationImage.regionprops (SegmentationImage.data input_image) = []).
    { destruct (SegmentationImage.regionprops _) as [|r rest] eqn:Hreg; [reflexivity|].
      exfalso. apply Hnot. split; [reflexivity|].
      assert (Hr : r ∈ SegmentationImage.regionprops (SegmentationImage.data input_image))
        by (rewrite Hreg; left).
      apply AreaProps.regionprops_positive in Hr. destruct Hr as [Hpos Hin].
      apply Exists_exists. exists r. auto. }
    rewrite Hreg. reflexivity.
Qed.

Lemma isolate_cells (rl : Z) (patch : raster Z) :
  isolate rl patch = map2d (fun v => if v =? rl then v else 0) patch.
Proof. unfold isolate. apply np_where_map2d_self. Qed.

Lemma map2d_map2d {A B C} (f : A -> B) (g : B -> C) (m : raster A) :
  map2d g (map2d f m) = map2d (fun v => g (f v)) m.
Proof.
  unfold map2d. rewrite <- list_fmap_compose. apply list_fmap_ext.
  intros i row _. cbn. rewrite <- list_fmap_compose. reflexivity.
Qed.

Lemma isolate_idemp (rl : Z) (patch : raster Z) :
  isolate rl (isolate rl patch) = isolate rl patch.
Proof.
  rewrite !isolate_cells, map2d_map2d. apply map2d_ext_in. intros v _.
  destruct (Z.eqb_spec v rl) as [->|Hne]; [rewrite Z.eqb_refl; reflexivity|].
  destruct (0 =? rl); reflexivity.
Qed.

Lemma isolate_loop (s : t) (descs : list description) :
  (length descs <= length (patches s))%nat ->
  foldM isolate_center_label s (imap pair descs)
  = Ok {| patches := isolated descs (patches s);
          patch_descriptions := patch_descriptions s;
          original_shape := original_shape s |}.
Proof.
  induction descs as [|d l IH] using rev_ind; intros Hlen.
  - cbn. destruct s as [ps ds sh]. cbn. f_equal. f_equal.
    unfold isolated. apply list_eq. intros i. rewrite list_lookup_imap.
    destruct (ps !! i); reflexivity.
  - rewrite length_app in Hlen. cbn in Hlen.
    rewrite imap_app, foldM_app, IH by lia. cbn [rbind imap foldM].
    unfold isolate_center_label at 1. cbn [patches patch_descriptions original_shape].
    rewrite Nat.add_0_r.
    destruct (lookup_lt_is_Some_2 (patches s) (length l)) as [p Hp]; [lia|].
    assert (Hl : isolated l (patches s) !! length l = Some p).
    { unfold isolated. rewrite list_lookup_imap, Hp. cbn.
      rewrite lookup_ge_None_2 by lia. reflexivity. }
    rewrite Hl. cbn [rbind]. f_equal. f_equal.
    apply list_eq. intros i. unfold isolated.
    destruct (decide (i = length l)) as [->|Hne].
    + rewrite list_lookup_insert_eq by (rewrite length_imap; lia).
      rewrite list_lookup_imap, Hp. cbn.
      rewrite lookup_app_r, Nat.sub_diag by lia. reflexivity.
    + rewrite list_lookup_insert_ne by congruence.
      rewrite !list_lookup_imap. destruct (patches s !! i) as [q|]; [|reflexivity].
      cbn. destruct (decide (i < length l)%nat).
      * rewrite lookup_app_l by lia. reflexivity.
      * rewrite !lookup_ge_None_2; [reflexivity | rewrite length_app; cbn; lia | lia].
Qed.

Lemma isolated_idemp (descs : list description) (ps : list (raster Z)) :
  isolated descs (isolated descs ps) = isolated descs ps.
Proof.
  unfold isolated. apply list_eq. intros i. rewrite !list_lookup_imap.
  destruct (ps !! i) as [p|]; [|reflexivity]. cbn [fmap option_fmap option_map].
  destruct (descs !! i) as [d|]; [|reflexivity].
  rewrite isolate_idemp. reflexivity.
Qed.

Lemma np_any_isolate (rl : Z) (patch : raster Z) :
  rl <> 0 ->
  np_any (map2d (fun v => v =? rl) (isolate rl patch))
  = np_any (map2d (fun v => v =? rl) patch).
Proof.
  intros Hnz. rewrite isolate_cells, map2d_map2d. f_equal.
  apply map2d_ext_in. intros v _.
  destruct (Z.eqb_spec v rl) as [->|Hne]; [apply Z.eqb_refl|].
  apply Z.eqb_neq. congruence.
Qed.

Lemma omap_zip_isolated (descs : list description) :
  forall (ps : list (raster Z)) (k : nat) (all : list description),
  (forall i d, descs !! i = Some d -> all !! (k + i)%nat = Some d) ->
  Forall (fun d => region_label d <> 0) descs ->
  omap (fun pd : raster Z * description =>
          if negb (np_any (map2d (fun v => v =? region_label pd.2) pd.1))
          then Some (region_label pd.2) else None)
       (zip (imap (fun i p => match all !! (k + i)%nat with
                              | Some d => isolate (region_label d) p
                              | None => p
                              end) ps) descs)
  = omap (fun pd : raster Z * description =>
            if negb (np_any (map2d (fun v => v =? region_label pd.2) pd.1))
            then Some (region_label pd.2) else None)
         (zip ps descs).
Proof.
  induction descs as [|d descs IH]; intros ps k all Hall Hnz.
  - destruct ps; reflexivity.
  - destruct ps as [|p ps]; [reflexivity|].
    inversion Hnz as [|? ? Hd Hrest]; subst.
    rewrite imap_cons.
    rewrite (Hall 0%nat d eq_refl).
    set (f := fun pd : raster Z * description =>
                if negb (np_any (map2d (fun v => v =? region_label pd.2) pd.1))
                then Some (region_label pd.2) else None).
    change (zip (isolate (region_label d) p :: ?l) (d :: descs))
      with ((isolate (region_label d) p, d) :: zip l descs).
    change (zip (p :: ps) (d :: descs)) with ((p, d) :: zip ps descs).
    assert (Hhead : f (isolate (region_label d) p, d) = f (p, d)).
    { unfold f. cbn [fst snd]. rewrite np_any_isolate by exact Hd. reflexivity. }
    assert (Htail : omap f (zip (imap ((fun i p => match all !! (k + i)%nat with
                                                   | Some d => isolate (region_label d) p
                                                   | None => p
                                                   end) ∘ S) ps) descs)
                    = omap f (zip ps descs)).
    { unfold f. rewrite <- (IH ps (S k) all);
        [|intros i d' Hi; replace (S k + i)%nat with (k + S i)%nat by lia;
          apply (Hall (S i)); exact Hi
         | exact Hrest].
      f_equal. f_equal. apply imap_ext. intros i q _. unfold compose.
      replace (S k + i)%nat with (k + S i)%nat by lia. reflexivity. }
    cbn [omap list_omap]. rewrite Hhead, Htail. reflexivity.
Qed.

(** X23.  [isolate_center_labels], when every description has its patch:
    each described patch keeps the pixels of its own label and loses
    the others, the remaining fields are unchanged, a second call
    changes nothing, and (no description being for label 0) the
    patches that miss their label are the same before and after. *)
Theorem isolate_center_labels_own_label (self : t) :
  (length (patch_descriptions self) <= length (patches self))%nat ->
  exists self',
    isolate_center_labels self = Ok self'
    /\ patch_descriptions self' = patch_descriptions self
    /\ original_shape self' = original_shape self
    /\ length (patches self') = length (patches self)
    /\ (forall i patch d,
          patches self !! i = Some patch ->
          patch_descriptions self !! i = Some d ->
          exists patch',
            patches self' !! i = Some patch'
            /\ forall a b v, at2 patch a b = Some v ->
                 at2 patch' a b = Some (if v =? region_label d then v else 0))
    /\ isolate_center_labels self' = Ok self'
    /\ (Forall (fun d => region_label d <> 0) (patch_descriptions self) ->
        find_patches_with_missing_labels self'
        = find_patches_with_missing_labels self).
Proof.
  intros Hlen. eexists. split; [apply isolate_loop, Hlen|].
  cbn [patches patch_descriptions original_shape].
  split; [reflexivity|]. split; [reflexivity|].
  split; [unfold isolated; apply length_imap|]. split; [|split].
  - intros i patch d Hp Hd. exists (isolate (region_label d) patch). split.
    + unfold isolated. rewrite list_lookup_imap, Hp. cbn. rewrite Hd. reflexivity.
    + intros a b v Hv. rewrite isolate_cells, at2_map2d, Hv. reflexivity.
  - unfold isolate_center_labels. cbn [patch_descriptions].
    rewrite isolate_loop
      by (cbn [patches]; unfold isolated; rewrite length_imap; exact Hlen).
    cbn [patches patch_descriptions original_shape].
    rewrite isolated_idemp. reflexivity.
  - intros Hnz. unfold find_patches_with_missing_labels.
    cbn [patches patch_descriptions].
    apply (omap_zip_isolated (patch_descriptions self) (patches self) 0
             (patch_descriptions self)); [intros i d Hi; exact Hi | exact Hnz].
Qed.

Lemma isolate_center_labels_own_label_witness :
  exists self',
    isolate_center_labels
      {| patches := [[[1; 2]; [0; 1]]; [[2; 2]; [1; 0]]];
         patch_descriptions := [mkDescription 1 (0, 0); mkDescription 2 (0, 1)];
         original_shape := (2%nat, 3%nat) |} = Ok self'
    /\ patches self' = [[[1; 0]; [0; 1]]; [[2; 2]; [0; 0]]].
Proof.
  destruct (isolate_center_labels_own_label
              {| patches := [[[1; 2]; [0; 1]]; [[2; 2]; [1; 0]]];
                 patch_descriptions := [mkDescription 1 (0, 0); mkDescription 2 (0, 1)];
                 original_shape := (2%nat, 3%nat) |})
    as (self' & Hrun & _); [cbn; lia|].
  exists self'. split; [exact Hrun|].
  vm_compute in Hrun. injection Hrun as <-. reflexivity.
Defined.

Section Combine.
Variables (self : t) (ph pw : nat).
Hypothesis Hph : (0 < ph)%nat.
Hypothesis Hpatches : Forall (rect ph pw) (patches self).

(** One patch: its positive pixels are written, the rest is kept. *)
Lemma combine_tile_step (out : raster Z) (n : nat) (patch : raster Z)
    (d : description) :
  rect (original_shape self).1 (original_shape self).2 out ->
  patches self !! n = Some patch ->
  patch_fits self ph pw d ->
  exists out',
    combine_tile self out (n, d) = Ok out'
    /\ rect (original_shape self).1 (original_shape self).2 out'
    /\ forall i j o, at2 out i j = Some o ->
         at2 out' i j
         = Some (match patch_cell patch d i j with
                 | Some v => if 0 <? v then v else o
                 | None => o
                 end).
Proof.
  intros Hout Hn (Hy & Hy1 & Hx & Hx1).
  destruct d as [rl [y x]]. cbn [bbox_position fst snd] in *.
  set (H := (original_shape self).1) in *. set (W := (original_shape self).2) in *.
  pose proof (proj1 (Forall_lookup _ _) Hpatches n patch Hn) as Hr. cbv beta in Hr.
  assert (Hlen : len patch = Z.of_nat ph) by (destruct Hr as [<- _]; reflexivity).
  assert (Hwid : width patch = pw) by (apply (rect_width ph pw); assumption).
  unfold combine_tile. rewrite Hn. cbn [bbox_position]. rewrite Hlen, Hwid.
  fold H W.
  destruct (Z.ltb_spec (Z.of_nat H) (y + Z.of_nat ph)); [lia|].
  destruct (Z.ltb_spec (Z.of_nat W) (x + Z.of_nat pw)); [lia|]. cbn [orb].
  set (region := slice2 y (y + Z.of_nat ph) x (x + Z.of_nat pw) out).
  assert (Hreg : rect ph pw region).
  { pose proof (rect_slice2 H W out y (y + Z.of_nat ph) x (x + Z.of_nat pw) Hout
                  ltac:(lia) ltac:(lia) ltac:(lia) ltac:(lia)) as Hs.
    replace (Z.to_nat (y + Z.of_nat ph - y)) with ph in Hs by lia.
    replace (Z.to_nat (x + Z.of_nat pw - x)) with pw in Hs by lia. exact Hs. }
  rewrite (same_shape_rect ph pw patch region Hr Hreg). cbn [negb].
  set (new := np_where (map2d (fun v => 0 <? v) patch) patch region).
  assert (Hnew : rect ph pw new).
  { apply rect_np_where; [apply rect_map2d, Hr | exact Hr | exact Hreg]. }
  assert (Hnew' : rect (Z.to_nat (y + Z.of_nat ph - y)) (Z.to_nat (x + Z.of_nat pw - x)) new).
  { replace (Z.to_nat (y + Z.of_nat ph - y)) with ph by lia.
    replace (Z.to_nat (x + Z.of_nat pw - x)) with pw by lia. exact Hnew. }
  eexists. split; [reflexivity|]. split.
  { apply rect_set_slice2; try assumption; lia. }
  intros i j o Ho.
  destruct (at2_Some_lt H W out i j o Hout Ho) as [Hi Hj].
  unfold patch_cell. cbn [bbox_position fst snd]. rewrite Hlen, Hwid.
  destruct (bool_decide_reflect
              (y <= Z.of_nat i < y + Z.of_nat ph /\ x <= Z.of_nat j < x + Z.of_nat pw))
    as [[Hci Hcj]|Hnc].
  - rewrite (at2_set_slice2_in H W out new y (y + Z.of_nat ph) x (x + Z.of_nat pw) i j)
      by (try assumption; lia).
    unfold new. rewrite at2_np_where, at2_map2d.
    destruct (at2_is_Some ph pw patch (i - Z.to_nat y) (j - Z.to_nat x) Hr)
      as [v Hv]; [lia | lia |].
    rewrite Hv. cbn.
    assert (Hrv : at2 region (i - Z.to_nat y) (j - Z.to_nat x) = Some o).
    { unfold region.
      rewrite (at2_slice2 H W out y (y + Z.of_nat ph) x (x + Z.of_nat pw))
        by (try assumption; lia).
      rewrite <- Ho. f_equal; lia. }
    rewrite Hrv. reflexivity.
  - rewrite (at2_set_slice2_out H W out new y (y + Z.of_nat ph) x (x + Z.of_nat pw) i j)
      by (try assumption; lia).
    exact Ho.
Qed.

(** The loop over the descriptions, last patch first in the proof. *)
Lemma combine_loop (descs : list description) :
  (length descs <= length (patches self))%nat ->
  Forall (patch_fits self ph pw) descs ->
  exists out,
    foldM (combine_tile self)
          (np_zeros 0 (original_shape self).1 (original_shape self).2)
          (imap pair descs) = Ok out
    /\ rect (original_shape self).1 (original_shape self).2 out
    /\ forall i j, (i < (original_shape self).1)%nat ->
                   (j < (original_shape self).2)%nat ->
         exists o, at2 out i j = Some o /\ last_positive self descs i j o.
Proof.
  induction descs as [|d l IH] using rev_ind; intros Hlen Hfit.
  - eexists. split; [reflexivity|]. split; [apply rect_np_zeros|].
    intros i j Hi Hj. exists 0. split; [apply at2_np_zeros; assumption|].
    left. split; [reflexivity|]. intros k patch d v _ Hd. discriminate.
  - rewrite length_app in Hlen. cbn in Hlen.
    apply Forall_app in Hfit. destruct Hfit as [Hfl Hfd].
    inversion Hfd as [|? ? Hd _]; subst.
    destruct (IH ltac:(lia) Hfl) as (out & Hrun & Hrect & Hcells).
    destruct (lookup_lt_is_Some_2 (patches self) (length l)) as [patch Hp]; [lia|].
    destruct (combine_tile_step out (length l) patch d Hrect Hp Hd)
      as (out' & Hstep & Hrect' & Hcells').
    exists out'. split.
    { rewrite imap_app, foldM_app, Hrun. cbn [rbind imap foldM].
      rewrite Nat.add_0_r, Hstep. reflexivity. }
    split; [exact Hrect'|].
    intros i j Hi Hj. destruct (Hcells i j Hi Hj) as (o & Ho & Hinv).
    rewrite (Hcells' i j o Ho).
    assert (Hold : forall k patch0 d0,
               patches self !! k = Some patch0 -> (l ++ [d]) !! k = Some d0 ->
               (k < length l)%nat /\ l !! k = Some d0
               \/ k = length l /\ patch0 = patch /\ d0 = d).
    { intros k patch0 d0 Hk Hd0.
      destruct (decide (k < length l)%nat) as [Hlt|Hge].
      - left. rewrite lookup_app_l in Hd0 by exact Hlt. auto.
      - right. rewrite lookup_app_r in Hd0 by lia.
        destruct (k - length l)%nat as [|m] eqn:Hm; [|destruct m; discriminate].
        assert (k = length l) by lia. subst k.
        cbn in Hd0. injection Hd0 as <-. rewrite Hp in Hk. injection Hk as <-. auto. }
    assert (Hkeep : last_positive self l i j o ->
              (forall v, patch_cell patch d i j = Some v -> v <= 0) ->
              last_positive self (l ++ [d]) i j o).
    { intros [[-> Hnone]|(k & pk & dk & Hpk & Hdk & Hck & Hpos & Hlater)] Hlast.
      - left. split; [reflexivity|]. intros k p0 d0 v Hk Hd0 Hc.
        destruct (Hold k p0 d0 Hk Hd0) as [[_ Hl]|(-> & -> & ->)].
        + exact (Hnone k p0 d0 v Hk Hl Hc).
        + exact (Hlast v Hc).
      - right. exists k, pk, dk. split; [exact Hpk|].
        split; [rewrite lookup_app_l by (apply lookup_lt_is_Some; eauto); exact Hdk|].
        split; [exact Hck|]. split; [exact Hpos|].
        intros k' p' d' v Hlt Hk' Hd' Hc.
        destruct (Hold k' p' d' Hk' Hd') as [[_ Hl]|(-> & -> & ->)].
        + exact (Hlater k' p' d' v Hlt Hk' Hl Hc).
        + exact (Hlast v Hc). }
    destruct (patch_cell patch d i j) as [v|] eqn:Hc.
    + destruct (Z.ltb_spec 0 v) as [Hpos|Hnpos].
      * exists v. split; [reflexivity|]. right. exists (length l), patch, d.
        split; [exact Hp|].
        split; [rewrite lookup_app_r, Nat.sub_diag by lia; reflexivity|].
        split; [exact Hc|]. split; [exact Hpos|].
        intros k' p' d' v' Hlt Hk' Hd' _.
        apply lookup_lt_Some in Hd'. rewrite length_app in Hd'. cbn in Hd'. lia.
      * exists o. split; [reflexivity|]. apply Hkeep; [exact Hinv|].
        intros v' [= <-]. exact Hnpos.
    + exists o. split; [reflexivity|]. apply Hkeep; [exact Hinv|].
      intros v' Hv'. discriminate.
Qed.

End Combine.

(** X24.  [combine_tiles], pixel by pixel.  When the patches have one shape,
    every description has its patch and every patch lies within the
    full image, the combined image has the full shape, and each of its
    pixels holds the positive label of the last patch (in the order of
    the descriptions) that has a positive label there, or 0 when no
    patch has one. *)
Theorem combine_tiles_last_patch_wins (self : t) (ph pw : nat) :
  (0 < ph)%nat ->
  Forall (rect ph pw) (patches self) ->
  (length (patch_descriptions self) <= length (patches self))%nat ->
  Forall (patch_fits self ph pw) (patch_descriptions self) ->
  exists out,
    combine_tiles self = Ok (SegmentationImage.__new__ out)
    /\ rect (original_shape self).1 (original_shape self).2 out
    /\ forall i j, (i < (original_shape self).1)%nat ->
                   (j < (original_shape self).2)%nat ->
         exists o, at2 out i j = Some o
                   /\ last_positive self (patch_descriptions self) i j o.
Proof.
  intros Hph Hpatches Hlen Hfit.
  destruct (combine_loop self ph pw Hph Hpatches (patch_descriptions self) Hlen Hfit)
    as (out & Hrun & Hrect & Hcells).
  exists out. split; [|split; assumption].
  unfold combine_tiles. rewrite Hrun. reflexivity.
Qed.

Lemma combine_tiles_last_patch_wins_witness :
  exists out,
    combine_tiles
      {| patches := [[[1; 1]; [0; 1]]; [[2; 0]; [2; 2]]];
         patch_descriptions := [mkDescription 1 (0, 0); mkDescription 2 (0, 1)];
         original_shape := (2%nat, 3%nat) |}
    = Ok (SegmentationImage.__new__ out)
    /\ out = [[1; 2; 0]; [0; 2; 2]].
Proof.
  destruct (combine_tiles_last_patch_wins
              {| patches := [[[1; 1]; [0; 1]]; [[2; 0]; [2; 2]]];
                 patch_descriptions := [mkDescription 1 (0, 0); mkDescription 2 (0, 1)];
                 original_shape := (2%nat, 3%nat) |} 2 2)
    as (out & Hrun & _).
  - lia.
  - repeat (constructor; [split; [reflexivity | repeat constructor]|]). constructor.
  - cbn. lia.
  - repeat (constructor; [unfold patch_fits; cbn; lia|]). constructor.
  - exists out. split; [exact Hrun|].
    vm_compute in Hrun. injection Hrun as <-. reflexivity.
Defined.

(** A patch that reaches beyond the full image makes [combine_tiles]
    raise [ValueError], whatever the patches before it wrote. *)
Lemma combine_tile_out_of_bounds (self : t) (out : raster Z) (n : nat)
    (patch : raster Z) (d : description) :
  patches self !! n = Some patch ->
  Z.of_nat (original_shape self).1 < (bbox_position d).1 + len patch
  \/ Z.of_nat (original_shape self).2
     < (bbox_position d).2 + Z.of_nat (width patch) ->
  combine_tile self out (n, d) = Err ValueError.
Proof.
  intros Hn Hout. unfold combine_tile. rewrite Hn.
  destruct (bbox_position d) as [y x]. cbn [fst snd] in Hout.
  destruct Hout as [Hy|Hx].
  - rewrite (proj2 (Z.ltb_lt _ _) Hy). reflexivity.
  - rewrite (proj2 (Z.ltb_lt _ _) Hx), orb_true_r. reflexivity.
Qed.

Lemma rect_isolate (ph pw : nat) (rl : Z) (patch : raster Z) :
  rect ph pw patch -> rect ph pw (isolate rl patch).
Proof. intros Hr. rewrite isolate_cells. apply rect_map2d, Hr. Qed.

Lemma width_isolate (rl : Z) (patch : raster Z) :
  width (isolate rl patch) = width patch.
Proof.
  rewrite isolate_cells. destruct patch as [|row rest]; [reflexivity|].
  cbn. apply length_fmap.
Qed.

Lemma patch_cell_isolate (rl : Z) (patch : raster Z) (d : description)
    (i j : nat) (o : Z) :
  patch_cell (isolate rl patch) d i j = Some o -> 0 < o ->
  o = rl /\ patch_cell patch d i j = Some o.
Proof.
  unfold patch_cell. rewrite width_isolate.
  assert (Hlen : len (isolate rl patch) = len patch).
  { rewrite isolate_cells. unfold len, map2d. rewrite length_fmap. reflexivity. }
  rewrite Hlen. destruct (bool_decide _); [|discriminate].
  rewrite isolate_cells, at2_map2d.
  destruct (at2 patch _ _) as [v|]; [|discriminate]. cbn.
  destruct (Z.eqb_spec v rl) as [->|Hne]; intros [= <-] Hpos; [auto | lia].
Qed.

(** X25.  Isolating, then combining.  When the patches have one shape, every
    description has its patch and every patch lies within the full
    image, [combine_tiles] after [isolate_center_labels] gives an image
    of the full shape in which every pixel is 0 or the region label of
    a patch that holds this label at the pixel: labels of neighbouring
    instances that a patch happens to show are not written. *)
Theorem combine_isolated_region_labels (self : t) (ph pw : nat) :
  (0 < ph)%nat ->
  Forall (rect ph pw) (patches self) ->
  (length (patch_descriptions self) <= length (patches self))%nat ->
  Forall (patch_fits self ph pw) (patch_descriptions self) ->
  exists self' out,
    isolate_center_labels self = Ok self'
    /\ combine_tiles self' = Ok (SegmentationImage.__new__ out)
    /\ rect (original_shape self).1 (original_shape self).2 out
    /\ forall i j, (i < (original_shape self).1)%nat ->
                   (j < (original_shape self).2)%nat ->
         exists o, at2 out i j = Some o
           /\ (o = 0
               \/ exists k patch d,
                    patches self !! k = Some patch
                    /\ patch_descriptions self !! k = Some d
                    /\ patch_cell patch d i j = Some o
                    /\ 0 < o /\ o = region_label d).
Proof.
  intros Hph Hpatches Hlen Hfit.
  set (self' := {| patches := isolated (patch_descriptions self) (patches self);
                   patch_descriptions := patch_descriptions self;
                   original_shape := original_shape self |}).
  assert (Hiso : isolate_center_labels self = Ok self')
    by (apply isolate_loop, Hlen).
  assert (Hpatches' : Forall (rect ph pw) (patches self')).
  { apply Forall_lookup. intros k p Hk. cbn [patches self'] in Hk.
    unfold isolated in Hk. rewrite list_lookup_imap in Hk.
    destruct (patches self !! k) as [q|] eqn:Hq; [|discriminate].
    pose proof (proj1 (Forall_lookup _ _) Hpatches k q Hq) as Hrq. cbv beta in Hrq.
    cbn in Hk. injection Hk as <-.
    destruct (patch_descriptions self !! k); [apply rect_isolate|]; exact Hrq. }
  destruct (combine_loop self' ph pw Hph Hpatches' (patch_descriptions self))
    as (out & Hrun & Hrect & Hcells).
  { cbn [patches self']. unfold isolated. rewrite length_imap. exact Hlen. }
  { exact Hfit. }
  exists self', out. split; [exact Hiso|]. split.
  { unfold combine_tiles. cbn [patch_descriptions original_shape self'].
    cbn [original_shape self'] in Hrun. rewrite Hrun. reflexivity. }
  split; [exact Hrect|].
  intros i j Hi Hj. destruct (Hcells i j Hi Hj) as (o & Ho & Hlast).
  exists o. split; [exact Ho|].
  destruct Hlast as [[-> _]|(k & p' & d & Hp' & Hd & Hc & Hpos & _)];
    [left; reflexivity|].
  right. cbn [patches self'] in Hp'. unfold isolated in Hp'.
  rewrite list_lookup_imap in Hp'.
  destruct (patches self !! k) as [q|] eqn:Hq; [|discriminate].
  cbn in Hp'. rewrite Hd in Hp'. injection Hp' as <-.
  destruct (patch_cell_isolate _ _ _ _ _ _ Hc Hpos) as [Hrl Hcq].
  exists k, q, d. auto.
Qed.

Lemma combine_isolated_region_labels_witness :
  exists self' out,
    isolate_center_labels
      {| patches := [[[1; 2]; [0; 1]]; [[2; 2]; [1; 0]]];
         patch_descriptions := [mkDescription 1 (0, 0); mkDescription 2 (0, 1)];
         original_shape := (2%nat, 3%nat) |} = Ok self'
    /\ combine_tiles self' = Ok (SegmentationImage.__new__ out)
    /\ out = [[1; 2; 2]; [0; 1; 0]].
Proof.
  destruct (combine_isolated_region_labels
              {| patches := [[[1; 2]; [0; 1]]; [[2; 2]; [1; 0]]];
                 patch_descriptions := [mkDescription 1 (0, 0); mkDescription 2 (0, 1)];
                 original_shape := (2%nat, 3%nat) |} 2 2)
    as (self' & out & Hiso & Hrun & _).
  - lia.
  - repeat (constructor; [split; [reflexivity | repeat constructor]|]). constructor.
  - cbn. lia.
  - repeat (constructor; [unfold patch_fits; cbn; lia|]). constructor.
  - exists self', out. split; [exact Hiso|]. split; [exact Hrun|].
    vm_compute in Hiso. injection Hiso as <-.
    vm_compute in Hrun. injection Hrun as <-. reflexivity.
Defined.

End PatchProps.
